(** * Verification of the [br] concurrency toolkit and of [Graph::parallelBFS]

    Shallow embedding of [src/bedrock.h], [src/bedrock.cpp] and
    [src/Graph.cpp].

    - Objects guarded by a mutex ([br::Mutex], the [std::mutex] of
      [WaitGroup]) are modelled by their protected value; one critical
      section is one atomic transition.
    - [std::atomic<bool>] flags are modelled by booleans; a
      [compare_exchange_strong] is one atomic transition (atomicity of a
      read-modify-write on one location does not depend on the memory
      order).
    - A blocking call is a transition that is enabled only when its wait
      predicate holds.  Wake-ups are not modelled separately: [Done] and
      [Emplace] notify under (or right after) the critical section in which
      they make the predicate true, and a waiter tests its predicate under
      the same mutex, so a blocked thread moves once its predicate holds.
    - Threads are interleaved by an explicit schedule (a list of thread
      identifiers); every statement about [parallelBFS] quantifies over all
      schedules.
    - [std::size_t] is a [w]-bit unsigned integer; [WaitGroup] is modelled
      for every width, the traversal for the LP64 width 64. *)

From Stdlib Require Import ZArith Lia.
From stdpp Require Import base tactics option list strings.

Local Open Scope Z_scope.

(** ** Machine integers *)

(** Reduction of an unsigned [w]-bit result. *)
Definition wrap (w : positive) (x : Z) : Z := x mod 2 ^ Z.pos w.

Definition size_t_bits : positive := 64%positive.
Definition wrap64 (x : Z) : Z := wrap size_t_bits x.

Definition INT_MAX : Z := 2 ^ 31 - 1.
Definition UINT_MAX : Z := 2 ^ 32 - 1.

(** ** [br::WaitGroup] (bedrock.h 191-204, bedrock.cpp 30-49) *)

Module WaitGroup.

Record t : Type := mk { count_ : Z; waiters_ : Z }.

(** [explicit WaitGroup(std::size_t count) : count_(count) {}] *)
Definition make (count : Z) : t := {| count_ := count; waiters_ := 0 |}.

(** [count_ += count;] *)
Definition Add (w : positive) (count : Z) (g : t) : t :=
  {| count_ := wrap w (count_ g + count); waiters_ := waiters_ g |}.

(** [count_ -= 1; if (count_ == 0 && waiters_ > 0) cv_.notify_all();]
    The boolean tells whether [notify_all] was called. *)
Definition Done (w : positive) (g : t) : t * bool :=
  let g' := {| count_ := wrap w (count_ g - 1); waiters_ := waiters_ g |} in
  (g', (count_ g' =? 0) && (0 <? waiters_ g')).

(** The predicate of [cv_.wait(l, [&]() { return count_ == 0; })]. *)
Definition Wait_pred (g : t) : bool := count_ g =? 0.

(** [++waiters_;] *)
Definition Wait_enter (w : positive) (g : t) : t :=
  {| count_ := count_ g; waiters_ := wrap w (waiters_ g + 1) |}.

(** [--waiters_;] *)
Definition Wait_leave (w : positive) (g : t) : t :=
  {| count_ := count_ g; waiters_ := wrap w (waiters_ g - 1) |}.

(** The calls threads make on one group.  [CWaitReturn] is the moment a
    thread leaves [cv_.wait]: it is possible only when the predicate
    holds under the lock. *)
Inductive call : Type :=
  | CAdd (count : Z)
  | CDone
  | CWaitEnter
  | CWaitReturn.

Definition step (w : positive) (g : t) (c : call) : option t :=
  match c with
  | CAdd k => Some (Add w k g)
  | CDone => Some (fst (Done w g))
  | CWaitEnter => Some (Wait_enter w g)
  | CWaitReturn => if Wait_pred g then Some (Wait_leave w g) else None
  end.

Fixpoint run (w : positive) (g : t) (cs : list call) : option t :=
  match cs with
  | [] => Some g
  | c :: cs' =>
      match step w g c with
      | Some g' => run w g' cs'
      | None => None
      end
  end.

(** Sum of the counts passed to [Add], and number of [Done] calls. *)
Fixpoint added (cs : list call) : Z :=
  match cs with
  | [] => 0
  | CAdd k :: cs' => k + added cs'
  | _ :: cs' => added cs'
  end.

Fixpoint dones (cs : list call) : Z :=
  match cs with
  | [] => 0
  | CDone :: cs' => 1 + dones cs'
  | _ :: cs' => dones cs'
  end.

(** Arguments a caller can pass: [std::size_t] values. *)
Definition valid_call (w : positive) (c : call) : Prop :=
  match c with
  | CAdd k => 0 <= k < 2 ^ Z.pos w
  | _ => True
  end.

End WaitGroup.

(** ** [br::UnboundedBlockingQueue] (bedrock.h 107-163) *)

Module UnboundedBlockingQueue.

Inductive State : Type := RUNNING | STOPPED | FORCE_STOPPED.

Definition State_eqb (a b : State) : bool :=
  match a, b with
  | RUNNING, RUNNING | STOPPED, STOPPED | FORCE_STOPPED, FORCE_STOPPED => true
  | _, _ => false
  end.

(** [Mutex<std::pair<State, Container>> queue_] *)
Definition t (T : Type) : Type := (State * list T)%type.

Definition make {T : Type} : t T := (RUNNING, []).

Definition is_empty {T : Type} (l : list T) : bool :=
  match l with [] => true | _ => false end.

Definition Emplace {T : Type} (v : T) (q : t T) : bool * t T :=
  if negb (State_eqb (fst q) RUNNING) then (false, q)
  else (true, (fst q, snd q ++ [v])).

Definition Push {T : Type} (v : T) (q : t T) : bool * t T := Emplace v q.

Definition Stop {T : Type} (state : State) (q : t T) : t T := (state, snd q).

(** [queue->first != State::RUNNING || !queue->second.empty()] *)
Definition Pop_pred {T : Type} (q : t T) : bool :=
  negb (State_eqb (fst q) RUNNING) || negb (is_empty (snd q)).

Inductive pop_result (T : Type) : Type :=
  | PopBlocked
  | PopReturn (r : option T) (q' : t T).
Arguments PopBlocked {T}.
Arguments PopReturn {T} r q'.

Definition Pop {T : Type} (q : t T) : pop_result T :=
  if negb (Pop_pred q) then PopBlocked
  else if State_eqb (fst q) FORCE_STOPPED then PopReturn None q
  else match snd q with
       | value :: rest => PopReturn (Some value) (fst q, rest)
       | [] => PopReturn None q
       end.

(** Sequences of calls on one queue. *)
Inductive op (T : Type) : Type :=
  | OpPush (v : T)
  | OpStop (state : State)
  | OpPop.
Arguments OpPush {T} v.
Arguments OpStop {T} state.
Arguments OpPop {T}.

(** Runs the calls in order; a [Pop] that would block is left blocked and
    the remaining calls proceed.  Returns the final queue and the values
    the [Pop] calls returned, in order. *)
Fixpoint run {T : Type} (q : t T) (ops : list (op T)) : t T * list T :=
  match ops with
  | [] => (q, [])
  | OpPush v :: ops' => run (snd (Push v q)) ops'
  | OpStop st :: ops' => run (Stop st q) ops'
  | OpPop :: ops' =>
      match Pop q with
      | PopReturn (Some v) q' => let '(qf, out) := run q' ops' in (qf, v :: out)
      | PopReturn None q' => run q' ops'
      | PopBlocked => run q ops'
      end
  end.

Fixpoint pushed {T : Type} (ops : list (op T)) : list T :=
  match ops with
  | [] => []
  | OpPush v :: ops' => v :: pushed ops'
  | _ :: ops' => pushed ops'
  end.

Definition stop_args {T : Type} (ops : list (op T)) : list State :=
  omap (fun o => match o with OpStop st => Some st | _ => None end) ops.

(** [n] consecutive [Pop] calls; [None] as soon as one blocks. *)
Fixpoint pops {T : Type} (n : nat) (q : t T) : option (list (option T) * t T) :=
  match n with
  | O => Some ([], q)
  | S n' =>
      match Pop q with
      | PopBlocked => None
      | PopReturn r q' =>
          match pops n' q' with
          | Some (rs, qf) => Some (r :: rs, qf)
          | None => None
          end
      end
  end.

(** States through which a queue goes under a sequence of calls. *)
Fixpoint states {T : Type} (q : t T) (ops : list (op T)) : list State :=
  fst q ::
  match ops with
  | [] => []
  | o :: ops' => states (fst (run q [o])) ops'
  end.

(** The values the [Push] calls of [ops] enqueue, in order. *)
Fixpoint accepted {T : Type} (q : t T) (ops : list (op T)) : list T :=
  match ops with
  | [] => []
  | OpPush v :: ops' =>
      (if fst (Push v q) then [v] else []) ++ accepted (snd (Push v q)) ops'
  | OpStop st :: ops' => accepted (Stop st q) ops'
  | OpPop :: ops' =>
      accepted (match Pop q with PopReturn _ q' => q' | PopBlocked => q end) ops'
  end.

End UnboundedBlockingQueue.

(** ** [br::ThreadPool] (bedrock.h 165-189, bedrock.cpp 5-28) *)

Module ThreadPool.
Import UnboundedBlockingQueue.

(** A worker thread runs [while (auto task = tasks_.Pop())] and calls each task it gets.
    [R] is the type of control points of a running task. *)
Inductive worker (R : Type) : Type :=
  | Idle
  | Running (r : R)
  | Exited.
Arguments Idle {R}.
Arguments Running {R} r.
Arguments Exited {R}.

Record t (T R : Type) : Type := mk {
    tasks_ : UnboundedBlockingQueue.t T;
    threads_ : list (worker R)
  }.
Arguments mk {T R} _ _.
Arguments tasks_ {T R} _.
Arguments threads_ {T R} _.

(** The constructor starts [num_threads] threads. *)
Definition make {T R : Type} (num_threads : Z) : t T R :=
  {| tasks_ := UnboundedBlockingQueue.make;
     threads_ := replicate (Z.to_nat num_threads) Idle |}.

(** [tasks_.Push(std::move(task))]; the result is dropped. *)
Definition Push {T R : Type} (task : T) (p : t T R) : t T R :=
  {| tasks_ := snd (UnboundedBlockingQueue.Push task (tasks_ p));
     threads_ := threads_ p |}.

(** Tasks a worker executes are exactly the values its [Pop] calls
    return (bedrock.cpp 10-11). *)
Definition executed {T : Type} (q : UnboundedBlockingQueue.t T)
    (ops : list (op T)) : list T := snd (run q ops).

End ThreadPool.

(** ** Life of a [br::ThreadPool] (bedrock.cpp 5-28)

    The threads of the constructor, the callers of [Push] and the thread
    that runs the destructor, interleaved.  A task is opaque: a thread
    that popped it is [Running] it until its call returns. *)
Module ThreadPoolLife.
Import UnboundedBlockingQueue ThreadPool.

(** Control point of [~ThreadPool]: not called, in the [join] loop at
    thread [i], returned. *)
Inductive dtor_pc : Type :=
  | Alive
  | Joining (i : nat)
  | Destroyed.

Record state (T : Type) : Type := mkState {
    pool : ThreadPool.t T T;
    dtor : dtor_pc
  }.
Arguments mkState {T} _ _.
Arguments pool {T} _.
Arguments dtor {T} _.

Inductive actor (T : Type) : Type :=
  | Client (task : T)           (* a thread calling [Push] *)
  | Owner                       (* the thread running the destructor *)
  | Thread (k : nat).           (* [threads_[k]] *)
Arguments Client {T} task.
Arguments Owner {T}.
Arguments Thread {T} k.

Inductive event (T : Type) : Type :=
  | Pushed (task : T) (ok : bool)
  | Stopped
  | Joined (i : nat)
  | Returned
  | Started (k : nat) (task : T)
  | Finished (k : nat) (task : T)
  | LoopExit (k : nat).
Arguments Pushed {T} task ok.
Arguments Stopped {T}.
Arguments Joined {T} i.
Arguments Returned {T}.
Arguments Started {T} k task.
Arguments Finished {T} k task.
Arguments LoopExit {T} k.

Definition init {T : Type} (num_threads : Z) : state T :=
  mkState (ThreadPool.make num_threads) Alive.

(** One transition; [None] where the actor is blocked ([Pop] on a RUNNING
    empty queue, [join] on a thread that has not left its loop) or has
    nothing to do. *)
Definition step {T : Type} (s : state T) (a : actor T) : option (event T * state T) :=
  let p := pool s in
  match a with
  | Client task =>
      match dtor s with
      | Destroyed => None
      | _ => Some (Pushed task (fst (UnboundedBlockingQueue.Push task (tasks_ p))),
                   mkState (ThreadPool.Push task p) (dtor s))
      end
  | Owner =>
      match dtor s with
      | Alive =>
          Some (Stopped,
                mkState (ThreadPool.mk (Stop STOPPED (tasks_ p)) (threads_ p)) (Joining 0))
      | Joining i =>
          match threads_ p !! i with
          | None => Some (Returned, mkState p Destroyed)
          | Some Exited => Some (Joined i, mkState p (Joining (S i)))
          | Some _ => None
          end
      | Destroyed => None
      end
  | Thread k =>
      match threads_ p !! k with
      | Some Idle =>
          match Pop (tasks_ p) with
          | PopBlocked => None
          | PopReturn None q' =>
              Some (LoopExit k,
                    mkState (ThreadPool.mk q' (<[k := Exited]> (threads_ p))) (dtor s))
          | PopReturn (Some task) q' =>
              Some (Started k task,
                    mkState (ThreadPool.mk q' (<[k := Running task]> (threads_ p))) (dtor s))
          end
      | Some (Running task) =>
          Some (Finished k task,
                mkState (ThreadPool.mk (tasks_ p) (<[k := Idle]> (threads_ p)))
                        (dtor s))
      | _ => None
      end
  end.

Fixpoint run {T : Type} (s : state T) (sched : list (actor T))
    : option (list (event T) * state T) :=
  match sched with
  | [] => Some ([], s)
  | a :: rest =>
      match step s a with
      | Some (e, s') =>
          match run s' rest with
          | Some (es, s'') => Some (e :: es, s'')
          | None => None
          end
      | None => None
      end
  end.

Definition accepted_tasks {T : Type} (es : list (event T)) : list T :=
  omap (fun e => match e with Pushed task true => Some task | _ => None end) es.

Definition rejected_tasks {T : Type} (es : list (event T)) : list T :=
  omap (fun e => match e with Pushed task false => Some task | _ => None end) es.

Definition started {T : Type} (es : list (event T)) : list T :=
  omap (fun e => match e with Started _ task => Some task | _ => None end) es.

Definition completed {T : Type} (es : list (event T)) : list T :=
  omap (fun e => match e with Finished _ task => Some task | _ => None end) es.

Definition in_progress {T : Type} (w : worker T) : list T :=
  match w with Running task => [task] | _ => [] end.

Definition queued {T : Type} (s : state T) : list T := snd (tasks_ (pool s)).

Definition is_client {T : Type} (a : actor T) : bool :=
  match a with Client _ => true | _ => false end.

(** Invariant of the executions from [init num_threads]; [es] are the
    events so far. *)
Record inv {T : Type} (num_threads : Z) (es : list (event T)) (s : state T) : Prop := mkInv {
  i_len : length (threads_ (pool s)) = Z.to_nat num_threads;
  i_state : fst (tasks_ (pool s)) = match dtor s with Alive => RUNNING | _ => STOPPED end;
  i_join : forall i j, dtor s = Joining i -> (j < i)%nat -> threads_ (pool s) !! j = Some Exited;
  i_destroyed : dtor s = Destroyed -> Forall (fun w => w = Exited) (threads_ (pool s));
  i_exit : forall k, threads_ (pool s) !! k = Some Exited -> queued s = [] /\ dtor s <> Alive;
  i_fifo : started es ++ queued s = accepted_tasks es;
  i_running : completed es ++ (threads_ (pool s) ≫= in_progress) ≡ₚ started es;
  i_rejected : dtor s = Alive -> rejected_tasks es = [];
  i_nothread : num_threads <= 0 -> started es = []
}.

(** Bound on the number of transitions that are left without [Push]. *)
Definition thread_weight {T : Type} (w : worker T) : nat :=
  match w with Idle => 1 | Running _ => 3 | Exited => 0 end.

Definition dtor_weight (n : nat) (p : dtor_pc) : nat :=
  match p with
  | Alive => n + 3
  | Joining i => S (n + 1 - i)
  | Destroyed => 0
  end.

Definition weight {T : Type} (s : state T) : nat :=
  3 * length (queued s) + sum_list (thread_weight <$> threads_ (pool s))
  + dtor_weight (length (threads_ (pool s))) (dtor s).

End ThreadPoolLife.

(** ** [THREAD_COUNT] (Graph.cpp 10-20)

    [getenv_TP_SIZE] is the result of [std::getenv("TP_SIZE")], [atoi] is
    [std::atoi] and [hardware_concurrency] the value of
    [std::thread::hardware_concurrency()]. *)
Definition THREAD_COUNT (getenv_TP_SIZE : option string) (atoi : string -> Z)
    (hardware_concurrency : Z) : Z :=
  match getenv_TP_SIZE with
  | Some env =>
      let result := atoi env in
      if 0 <? result then result else hardware_concurrency
  | None => hardware_concurrency
  end.

(** ** [Graph] (Graph.h, Graph.cpp) *)

Module Graph.
Import UnboundedBlockingQueue.

Record t : Type := mk { vertexCount_ : Z; matrix_ : list (list Z) }.

(** [Graph::Graph(int vertices) : vertexCount_(vertices), matrix_(vertices)].
    With a negative argument the vector constructor throws; well-formed
    graphs ([wf] below) have [0 <= vertexCount_]. *)
Definition make (vertices : Z) : t :=
  {| vertexCount_ := vertices; matrix_ := replicate (Z.to_nat vertices) [] |}.

Definition addEdge (src dest : Z) (g : t) : t :=
  if (src <? 0) || (dest <? 0) || (src >=? vertexCount_ g) || (dest >=? vertexCount_ g)
  then g
  else {| vertexCount_ := vertexCount_ g;
          matrix_ := alter (fun vec => if decide (dest ∈ vec) then vec else vec ++ [dest])
                           (Z.to_nat src) (matrix_ g) |}.

Definition vertices (g : t) : Z := vertexCount_ g.

(** A graph as client code builds it: the constructor, then [addEdge]
    calls in order. *)
Definition build (vertices : Z) (edges : list (Z * Z)) : t :=
  foldl (fun g e => addEdge (fst e) (snd e) g) (make vertices) edges.

(** [v[i]] for a vector and an [int] index; [None] is an access out of
    bounds (a negative [int] converts to a huge [size_t]). *)
Definition at_ {A : Type} (v : list A) (i : Z) : option A :=
  if i <? 0 then None else v !! Z.to_nat i.

(** [v[i] = x] at an index known to be in bounds. *)
Definition store {A : Type} (v : list A) (i : Z) (x : A) : list A :=
  <[Z.to_nat i := x]> v.

(** The invariant the constructor and [addEdge] maintain. *)
Definition wf (g : t) : Prop :=
  0 <= vertexCount_ g <= INT_MAX
  /\ length (matrix_ g) = Z.to_nat (vertexCount_ g)
  /\ forall (u : nat) (vec : list Z), matrix_ g !! u = Some vec ->
       forall v, v ∈ vec -> 0 <= v < vertexCount_ g.

(** *** [Graph::bfs] (Graph.cpp 83-103) *)

(** [for (int n : matrix_[u]) if (!visited[n]) { visited[n] = 1; q.push(n); }] *)
Fixpoint bfs_for (ns : list Z) (visited : list bool) (q : list Z)
    : option (list bool * list Z) :=
  match ns with
  | [] => Some (visited, q)
  | n :: ns' =>
      match at_ visited n with
      | None => None
      | Some true => bfs_for ns' visited q
      | Some false => bfs_for ns' (store visited n true) (q ++ [n])
      end
  end.

(** [while (!q.empty())]; [None] when the fuel runs out or an access is
    out of bounds. *)
Fixpoint bfs_while (fuel : nat) (g : t) (visited : list bool) (q : list Z)
    : option (list bool) :=
  match q with
  | [] => Some visited
  | u :: q' =>
      match fuel with
      | O => None
      | S fuel' =>
          match at_ (matrix_ g) u with
          | None => None
          | Some ns =>
              match bfs_for ns visited q' with
              | None => None
              | Some (visited', q'') => bfs_while fuel' g visited' q''
              end
          end
      end
  end.

(** The flags at the end of [bfs]; no flag exists when the start vertex
    is rejected.  Every vertex enters the queue at most once, hence the
    fuel. *)
Definition bfs (g : t) (startVertex : Z) : option (list bool) :=
  if (startVertex <? 0) || (startVertex >=? vertexCount_ g) then Some []
  else
    let visited := replicate (Z.to_nat (vertexCount_ g)) false in
    let visited := store visited startVertex true in
    bfs_while (S (Z.to_nat (vertexCount_ g))) g visited [startVertex].

(** *** [Graph::parallelBFS] (Graph.cpp 40-81) *)

(** The lambda captures [chunkStart] and [chunkEnd] by copy and everything
    else by reference. *)
Abbreviation task := (Z * Z)%type.

(** Control points of the lambda. *)
Inductive chunk_pc : Type :=
  | COuter (i chunkEnd : Z) (localNextLevel : list Z)
      (* at the test [i < chunkEnd] *)
  | CInner (i chunkEnd : Z) (rest : list Z) (localNextLevel : list Z)
      (* in [for (int v : matrix_[u])], [rest] still to visit *)
  | CMerge (localNextLevel : list Z)
      (* at [if (!localNextLevel.empty())] *)
  | CDone.
      (* at [wg.Done()] *)

(** Control points of the calling thread. *)
Inductive driver_pc : Type :=
  | DWhile                  (* at [while (!currentLevel.empty())] *)
  | DFor (chunkStart : Z)   (* at the test [chunkStart < currentLevel.size()] *)
  | DWait                   (* at [wg.Wait()] *)
  | DWaiting                (* inside [cv_.wait] *)
  | DMove                   (* at [currentLevel = std::move( *nextLevel.Lock())] *)
  | DReturn.

Record state : Type := mkState {
    visited : list bool;
    currentLevel : list Z;
    nextLevel : list Z;
    chunkSize : Z;
    wg : WaitGroup.t;
    pc : driver_pc;
    pool : ThreadPool.t task chunk_pc
  }.

Inductive tid : Type := Driver | Worker (k : nat).

Inductive event : Type :=
  | EvTau
  | EvSubmit (chunkStart chunkEnd : Z)   (* [pool.Push] of a chunk *)
  | EvStart (k : nat) (chunkStart chunkEnd : Z)
  | EvClaim (k : nat) (v : Z)            (* [compare_exchange_strong] succeeded *)
  | EvSeen (k : nat) (v : Z)             (* [compare_exchange_strong] failed *)
  | EvMerge (k : nat) (vs : list Z)
  | EvDone (k : nat).

Inductive outcome : Type :=
  | Blocked
  | Fault                                (* undefined behaviour *)
  | Next (e : event) (s : state).

(** [(currentLevel.size() + THREAD_COUNT - 1) / THREAD_COUNT] *)
Definition level_chunkSize (size TC : Z) : option Z :=
  if TC =? 0 then None else Some (wrap64 (wrap64 (size + TC) - 1) / TC).

(** [1 + ((currentLevel.size() - 1) / chunkSize)] *)
Definition level_wg_count (size chunkSize : Z) : option Z :=
  if chunkSize =? 0 then None
  else Some (wrap64 (1 + wrap64 (size - 1) / chunkSize)).

(** [std::min(chunkStart + chunkSize, currentLevel.size())] *)
Definition chunk_end (chunkStart chunkSize size : Z) : Z :=
  Z.min (wrap64 (chunkStart + chunkSize)) size.

(** The chunks submitted by the [for] loop of one level. *)
Fixpoint for_chunks (fuel : nat) (size chunkSize chunkStart : Z)
    : option (list task) :=
  if chunkStart <? size then
    match fuel with
    | O => None
    | S fuel' =>
        match for_chunks fuel' size chunkSize (wrap64 (chunkStart + chunkSize)) with
        | Some cs => Some ((chunkStart, chunk_end chunkStart chunkSize size) :: cs)
        | None => None
        end
    end
  else Some [].

Definition set_pc (s : state) (p : driver_pc) : state :=
  mkState (visited s) (currentLevel s) (nextLevel s) (chunkSize s) (wg s) p (pool s).

Definition set_wg (s : state) (g : WaitGroup.t) : state :=
  mkState (visited s) (currentLevel s) (nextLevel s) (chunkSize s) g (pc s) (pool s).

Definition set_pool (s : state) (p : ThreadPool.t task chunk_pc) : state :=
  mkState (visited s) (currentLevel s) (nextLevel s) (chunkSize s) (wg s) (pc s) p.

Definition set_visited (s : state) (v : list bool) : state :=
  mkState v (currentLevel s) (nextLevel s) (chunkSize s) (wg s) (pc s) (pool s).

Definition set_nextLevel (s : state) (l : list Z) : state :=
  mkState (visited s) (currentLevel s) l (chunkSize s) (wg s) (pc s) (pool s).

Definition set_worker (s : state) (k : nat) (w : ThreadPool.worker chunk_pc) : state :=
  set_pool s (ThreadPool.mk (ThreadPool.tasks_ (pool s))
                            (<[k := w]> (ThreadPool.threads_ (pool s)))).

Definition size (l : list Z) : Z := Z.of_nat (length l).

Definition step_driver (TC : Z) (s : state) : outcome :=
  match pc s with
  | DWhile =>
      if is_empty (currentLevel s) then Next EvTau (set_pc s DReturn)
      else
        match level_chunkSize (size (currentLevel s)) TC with
        | None => Fault
        | Some c =>
            match level_wg_count (size (currentLevel s)) c with
            | None => Fault
            | Some n =>
                Next EvTau
                  (mkState (visited s) (currentLevel s) [] c
                           (WaitGroup.make n) (DFor 0) (pool s))
            end
        end
  | DFor chunkStart =>
      if chunkStart <? size (currentLevel s) then
        let chunkEnd := chunk_end chunkStart (chunkSize s) (size (currentLevel s)) in
        Next (EvSubmit chunkStart chunkEnd)
             (set_pc (set_pool s (ThreadPool.Push (chunkStart, chunkEnd) (pool s)))
                     (DFor (wrap64 (chunkStart + chunkSize s))))
      else Next EvTau (set_pc s DWait)
  | DWait =>
      let g := WaitGroup.Wait_enter size_t_bits (wg s) in
      if WaitGroup.Wait_pred g
      then Next EvTau (set_pc (set_wg s (WaitGroup.Wait_leave size_t_bits g)) DMove)
      else Next EvTau (set_pc (set_wg s g) DWaiting)
  | DWaiting =>
      if WaitGroup.Wait_pred (wg s)
      then Next EvTau (set_pc (set_wg s (WaitGroup.Wait_leave size_t_bits (wg s))) DMove)
      else Blocked
  | DMove =>
      Next EvTau
        (mkState (visited s) (nextLevel s) [] (chunkSize s) (wg s) DWhile (pool s))
  | DReturn => Blocked
  end.

Definition step_task (g : t) (s : state) (k : nat) (r : chunk_pc) : outcome :=
  match r with
  | COuter i chunkEnd local =>
      if i <? chunkEnd then
        match at_ (currentLevel s) i with
        | None => Fault
        | Some u =>
            match at_ (matrix_ g) u with
            | None => Fault
            | Some ns =>
                Next EvTau (set_worker s k (ThreadPool.Running (CInner i chunkEnd ns local)))
            end
        end
      else Next EvTau (set_worker s k (ThreadPool.Running (CMerge local)))
  | CInner i chunkEnd [] local =>
      Next EvTau (set_worker s k (ThreadPool.Running (COuter (wrap64 (i + 1)) chunkEnd local)))
  | CInner i chunkEnd (v :: rest) local =>
      match at_ (visited s) v with
      | None => Fault
      | Some false =>
          Next (EvClaim k v)
               (set_worker (set_visited s (store (visited s) v true)) k
                  (ThreadPool.Running (CInner i chunkEnd rest (local ++ [v]))))
      | Some true =>
          Next (EvSeen k v)
               (set_worker s k (ThreadPool.Running (CInner i chunkEnd rest local)))
      end
  | CMerge local =>
      if negb (is_empty local)
      then Next (EvMerge k local)
                (set_worker (set_nextLevel s (nextLevel s ++ local)) k
                   (ThreadPool.Running CDone))
      else Next EvTau (set_worker s k (ThreadPool.Running CDone))
  | CDone =>
      Next (EvDone k)
           (set_worker (set_wg s (fst (WaitGroup.Done size_t_bits (wg s)))) k
              ThreadPool.Idle)
  end.

Definition step_worker (g : t) (s : state) (k : nat) : outcome :=
  match ThreadPool.threads_ (pool s) !! k with
  | None => Blocked
  | Some ThreadPool.Exited => Blocked
  | Some ThreadPool.Idle =>
      match Pop (ThreadPool.tasks_ (pool s)) with
      | PopBlocked => Blocked
      | PopReturn None q' =>
          Next EvTau
            (set_pool s (ThreadPool.mk q' (<[k := ThreadPool.Exited]> (ThreadPool.threads_ (pool s)))))
      | PopReturn (Some (chunkStart, chunkEnd)) q' =>
          Next (EvStart k chunkStart chunkEnd)
            (set_pool s (ThreadPool.mk q'
               (<[k := ThreadPool.Running (COuter chunkStart chunkEnd [])]>
                  (ThreadPool.threads_ (pool s)))))
      end
  | Some (ThreadPool.Running r) => step_task g s k r
  end.

Definition step (g : t) (TC : Z) (s : state) (th : tid) : outcome :=
  match th with
  | Driver => step_driver TC s
  | Worker k => step_worker g s k
  end.

(** The state in which the [while] loop is reached, or the state of the
    early return.  The pool is the static one, built with [THREAD_COUNT]
    threads. *)
Definition parallelBFS (g : t) (TC : Z) (startVertex : Z) : state :=
  if (startVertex <? 0) || (startVertex >=? vertexCount_ g)
  then mkState [] [] [] 0 (WaitGroup.make 0) DReturn (ThreadPool.make TC)
  else
    let visited := replicate (Z.to_nat (vertexCount_ g)) false in
    mkState (store visited startVertex true) [startVertex] [] 0
            (WaitGroup.make 0) DWhile (ThreadPool.make TC).

(** Execution under a schedule; [None] when a scheduled thread cannot
    move or faults. *)
Fixpoint run (g : t) (TC : Z) (sched : list tid) (s : state)
    : option (list event * state) :=
  match sched with
  | [] => Some ([], s)
  | th :: sched' =>
      match step g TC s th with
      | Next e s' =>
          match run g TC sched' s' with
          | Some (es, sf) => Some (e :: es, sf)
          | None => None
          end
      | _ => None
      end
  end.

Definition returned (s : state) : Prop := pc s = DReturn.

Definition marked (s : state) (v : Z) : Prop := at_ (visited s) v = Some true.

Definition claims (es : list event) : list Z :=
  omap (fun e => match e with EvClaim _ v => Some v | _ => None end) es.

(** A scheduler used to run the model: the first thread that can move,
    the calling thread first. *)
Fixpoint first_enabled (g : t) (TC : Z) (s : state) (ths : list tid) : option tid :=
  match ths with
  | [] => None
  | th :: ths' =>
      match step g TC s th with
      | Next _ _ => Some th
      | _ => first_enabled g TC s ths'
      end
  end.

Definition threads (s : state) : list tid :=
  Driver :: map Worker (seq 0 (length (ThreadPool.threads_ (pool s)))).

Fixpoint eager_schedule (fuel : nat) (g : t) (TC : Z) (s : state) : list tid :=
  match fuel with
  | O => []
  | S fuel' =>
      match first_enabled g TC s (rev (threads s)) with
      | None => []
      | Some th =>
          match step g TC s th with
          | Next _ s' => th :: eager_schedule fuel' g TC s'
          | _ => []
          end
      end
  end.

(** Reachability in the graph. *)
Definition edge (g : t) (u v : Z) : Prop :=
  exists ns, at_ (matrix_ g) u = Some ns /\ v ∈ ns.

Inductive reachable (g : t) (s : Z) : Z -> Prop :=
  | reach_start : reachable g s s
  | reach_step u v : reachable g s u -> edge g u v -> reachable g s v.

(** The [k]-th chunk of a frontier of length [L] cut in pieces of [c]. *)
Definition chunk_of (c L : Z) (k : nat) : task :=
  (Z.of_nat k * c, Z.min ((Z.of_nat k + 1) * c) L).

(** The event of submitting a chunk. *)
Definition submit_event (tk : task) : event := EvSubmit (fst tk) (snd tk).

(** *** Vocabulary of the invariant of [parallelBFS] *)

Definition markedv (visited : list bool) (v : Z) : Prop := at_ visited v = Some true.

(** [l[i], ..., l[e-1]] *)
Definition slice (l : list Z) (i e : Z) : list Z :=
  take (Z.to_nat (e - i)) (drop (Z.to_nat i) l).

Definition nbrs (g : t) (u : Z) : list Z := default [] (at_ (matrix_ g) u).

(** The vertices the loops over [l[i..e)] will try to claim. *)
Definition targets (g : t) (l : list Z) (i e : Z) : list Z :=
  slice l i e ≫= nbrs g.

Definition task_pending (g : t) (l : list Z) (tk : task) : list Z :=
  targets g l (fst tk) (snd tk).

Definition pc_pending (g : t) (l : list Z) (r : chunk_pc) : list Z :=
  match r with
  | COuter i e _ => targets g l i e
  | CInner i e rest _ => rest ++ targets g l (i + 1) e
  | _ => []
  end.

Definition pc_local (r : chunk_pc) : list Z :=
  match r with
  | COuter _ _ loc | CInner _ _ _ loc | CMerge loc => loc
  | CDone => []
  end.

Definition worker_pending (g : t) (l : list Z) (w : ThreadPool.worker chunk_pc) : list Z :=
  match w with ThreadPool.Running r => pc_pending g l r | _ => [] end.

Definition worker_local (w : ThreadPool.worker chunk_pc) : list Z :=
  match w with ThreadPool.Running r => pc_local r | _ => [] end.

Definition worker_busy (w : ThreadPool.worker chunk_pc) : list unit :=
  match w with ThreadPool.Running _ => [()] | _ => [] end.

Definition items (s : state) : list task := snd (ThreadPool.tasks_ (pool s)).
Definition workers (s : state) : list (ThreadPool.worker chunk_pc) :=
  ThreadPool.threads_ (pool s).

Definition driver_pending (g : t) (p : driver_pc) (l : list Z) : list Z :=
  match p with
  | DFor cs => targets g l cs (size l)
  | _ => []
  end.

(** Chunks the [for] loop has still to submit. *)
Definition driver_chunks (p : driver_pc) (l : list Z) (c : Z) : Z :=
  match p with
  | DFor cs => if cs <? size l then 1 + (size l - 1 - cs) / c else 0
  | _ => 0
  end.

(** The frontier, before its chunks are cut. *)
Definition driver_level (p : driver_pc) (l : list Z) : list Z :=
  match p with DWhile => l | _ => [] end.

(** Claim attempts of the current level that are still to come. *)
Definition pending (g : t) (s : state) : list Z :=
  driver_pending g (pc s) (currentLevel s)
  ++ (items s ≫= task_pending g (currentLevel s))
  ++ (workers s ≫= worker_pending g (currentLevel s)).

(** Vertices claimed in the current level. *)
Definition fresh (s : state) : list Z :=
  nextLevel s ++ (workers s ≫= worker_local).

(** Marked vertices whose neighbours have not been submitted yet. *)
Definition unexpanded (s : state) : list Z :=
  fresh s ++ driver_level (pc s) (currentLevel s).

(** Chunk tasks that have not called [Done] yet. *)
Definition outstanding (s : state) : Z :=
  driver_chunks (pc s) (currentLevel s) (chunkSize s)
  + Z.of_nat (length (items s))
  + Z.of_nat (length (workers s ≫= worker_busy)).

Definition pc_ok (L : Z) (w : ThreadPool.worker chunk_pc) : Prop :=
  match w with
  | ThreadPool.Running (COuter i e _) => 0 <= i <= e /\ e <= L
  | ThreadPool.Running (CInner i e _ _) => 0 <= i < e /\ e <= L
  | _ => True
  end.

Definition task_ok (L : Z) (tk : task) : Prop := 0 <= fst tk <= snd tk /\ snd tk <= L.

(** Control points of the calling thread at which chunk tasks may exist. *)
Definition in_level (p : driver_pc) : Prop :=
  match p with DFor _ | DWait | DWaiting => True | _ => False end.

(** The part of the invariant about control and counters. *)
Record ctrl_inv (TC : Z) (s : state) : Prop := mkCtrl {
  c_queue : fst (ThreadPool.tasks_ (pool s)) = RUNNING;
  c_threads : length (workers s) = Z.to_nat TC;
  c_noexit : Forall (fun w => w <> ThreadPool.Exited) (workers s);
  c_bound : size (currentLevel s) < 2 ^ 62;
  c_tasks : Forall (task_ok (size (currentLevel s))) (items s);
  c_pcs : Forall (pc_ok (size (currentLevel s))) (workers s);
  c_wg : 0 <= WaitGroup.count_ (wg s) < 2 ^ 64;
  c_count : in_level (pc s) -> WaitGroup.count_ (wg s) = outstanding s;
  c_for : forall cs, pc s = DFor cs ->
            0 <= cs /\ 1 <= chunkSize s <= size (currentLevel s);
  c_quiet : ~ in_level (pc s) ->
            items s = [] /\ Forall (fun w => w = ThreadPool.Idle) (workers s);
  c_next : pc s = DWhile \/ pc s = DReturn -> nextLevel s = []
}.

(** The part of the invariant about the graph. *)
Record graph_inv (g : t) (startVertex : Z) (s : state) : Prop := mkGraphInv {
  g_len : length (visited s) = Z.to_nat (vertexCount_ g);
  g_start : marked s startVertex;
  g_reach : forall v, marked s v -> reachable g startVertex v;
  g_nodup : NoDup (unexpanded s);
  g_unexp : forall v, v ∈ unexpanded s -> marked s v;
  g_closed : forall u v, marked s u -> u ∉ unexpanded s -> edge g u v ->
               marked s v \/ v ∈ pending g s;
  g_pending : forall v, v ∈ pending g s -> exists u, marked s u /\ edge g u v;
  g_level : NoDup (currentLevel s) /\ forall u, u ∈ currentLevel s -> marked s u
}.

(** What one transition does to the marks, the pending claim attempts and
    the unexpanded vertices. *)
Inductive effect (g : t) (s s' : state) : event -> Prop :=
| eff_tau e :
    (forall k v, e <> EvClaim k v) -> (forall k v, e <> EvSeen k v) ->
    visited s' = visited s -> currentLevel s' = currentLevel s ->
    pending g s' ≡ₚ pending g s -> unexpanded s' ≡ₚ unexpanded s ->
    effect g s s' e
| eff_claim k v :
    at_ (visited s) v = Some false -> visited s' = store (visited s) v true ->
    currentLevel s' = currentLevel s ->
    pending g s ≡ₚ v :: pending g s' -> unexpanded s' ≡ₚ v :: unexpanded s ->
    effect g s s' (EvClaim k v)
| eff_seen k v :
    at_ (visited s) v = Some true -> visited s' = visited s ->
    currentLevel s' = currentLevel s ->
    pending g s ≡ₚ v :: pending g s' -> unexpanded s' ≡ₚ unexpanded s ->
    effect g s s' (EvSeen k v)
| eff_level :
    visited s' = visited s -> currentLevel s' = currentLevel s ->
    pending g s = [] -> unexpanded s = currentLevel s -> unexpanded s' = [] ->
    pending g s' = currentLevel s ≫= nbrs g ->
    effect g s s' EvTau
| eff_move :
    visited s' = visited s -> currentLevel s' = unexpanded s ->
    pending g s' = [] -> pending g s = [] -> unexpanded s' = unexpanded s ->
    effect g s s' EvTau.

(** Number of flags that are still false. *)
Fixpoint unmarked (visited : list bool) : nat :=
  match visited with
  | [] => O
  | b :: rest => ((if b then 0 else 1) + unmarked rest)%nat
  end.

(** Invariant of the [while] loop of [bfs]. *)
Record bfs_inv (g : t) (startVertex : Z) (visited : list bool) (q : list Z) : Prop := mkBfsInv {
  b_len : length visited = Z.to_nat (vertexCount_ g);
  b_start : markedv visited startVertex;
  b_reach : forall v, markedv visited v -> reachable g startVertex v;
  b_queue : forall u, u ∈ q -> markedv visited u;
  b_closed : forall u v, markedv visited u -> u ∉ q -> edge g u v -> markedv visited v
}.

(** The invariant of [parallelBFS]. *)
Definition inv (g : t) (TC startVertex : Z) (s : state) : Prop :=
  ctrl_inv TC s /\ graph_inv g startVertex s.

(** *** Termination measure *)

Definition zsum (l : list Z) : Z := foldr Z.add 0 l.

(** Transitions a chunk task still has to make. *)
Definition pc_work (g : t) (l : list Z) (r : chunk_pc) : Z :=
  match r with
  | COuter i e _ => 2 * (e - i) + size (targets g l i e) + 3
  | CInner i e rest _ => size rest + size (targets g l (i + 1) e) + 2 * (e - i) + 2
  | CMerge _ => 2
  | CDone => 1
  end.

Definition worker_work (g : t) (l : list Z) (w : ThreadPool.worker chunk_pc) : Z :=
  match w with ThreadPool.Running r => pc_work g l r | _ => 0 end.

Definition task_work (g : t) (l : list Z) (tk : task) : Z :=
  2 * (snd tk - fst tk) + size (targets g l (fst tk) (snd tk)) + 4.

Definition driver_work (g : t) (p : driver_pc) (l : list Z) (c : Z) : Z :=
  match p with
  | DFor cs =>
      5 * driver_chunks p l c + 2 * Z.max 0 (size l - cs)
      + size (targets g l cs (size l)) + 5
  | DWait => 4
  | DWaiting => 3
  | DMove => 2
  | DWhile => 1
  | DReturn => 0
  end.

(** Transitions left in the current level. *)
Definition level_work (g : t) (s : state) : Z :=
  driver_work g (pc s) (currentLevel s) (chunkSize s)
  + zsum (task_work g (currentLevel s) <$> items s)
  + zsum (worker_work g (currentLevel s) <$> workers s).

(** Vertices that can still enter a frontier. *)
Definition frontier_budget (s : state) : nat :=
  (unmarked (visited s) + length (unexpanded s))%nat.

(** *** The scenario of the specification

    Six vertices, edges 0->1, 0->2, 1->3, 2->3, 3->4; vertex 5 isolated. *)
Definition scenario_graph : t :=
  addEdge 3 4 (addEdge 2 3 (addEdge 1 3 (addEdge 0 2 (addEdge 0 1 (make 6))))).

Definition scenario_schedule (TC startVertex : Z) : list tid :=
  eager_schedule 200 scenario_graph TC (parallelBFS scenario_graph TC startVertex).

(** Result of an execution, or nothing done when the schedule is not
    executable. *)
Definition exec (g : t) (TC : Z) (sched : list tid) (s : state) : list event * state :=
  default ([], s) (run g TC sched s).

(** [localNextLevel] of the task that thread [k] of the pool is running;
    empty when it runs none. *)
Definition localNextLevel (s : state) (k : nat) : list Z :=
  match workers s !! k with
  | Some w => worker_local w
  | None => []
  end.


(** Rows without duplicates. *)
Definition simple (g : t) : Prop :=
  forall (u : nat) (vec : list Z), matrix_ g !! u = Some vec -> NoDup vec.

(** Every schedule from [s] comes to a state in which no thread can move. *)
Inductive terminating (g : t) (TC : Z) (s : state) : Prop :=
| terminating_intro :
    (forall th e s', step g TC s th = Next e s' -> terminating g TC s') ->
    terminating g TC s.

(** [path g s k v]: a walk of [k] edges leads from [s] to [v]. *)
Inductive path (g : t) (s : Z) : nat -> Z -> Prop :=
| path_start : path g s O s
| path_step k u v : path g s k u -> edge g u v -> path g s (S k) v.

(** [v] is at distance [d] from [s]. *)
Definition dist (g : t) (s : Z) (d : nat) (v : Z) : Prop :=
  path g s d v /\ forall k, (k < d)%nat -> ~ path g s k v.

(** Invariant relating the frontiers to distances; [e] is the distance of
    the vertices not expanded yet. *)
Record level_inv (g : t) (startVertex : Z) (e : nat) (s : state) : Prop := mkLevelInv {
  l_unexp : forall v, v ∈ unexpanded s -> dist g startVertex e v;
  l_old : forall v, marked s v -> v ∉ unexpanded s ->
            exists k, (k < e)%nat /\ path g startVertex k v;
  l_near : forall k v, (k < e)%nat -> path g startVertex k v -> marked s v;
  l_pending : forall v, v ∈ pending g s ->
                exists d u, e = S d /\ dist g startVertex d u /\ edge g u v
}.

End Graph.

(** * Properties *)

(** ** Machine integers *)

Lemma pow2_pos (w : positive) : 2 <= 2 ^ Z.pos w.
Proof.
  change 2 with (2 ^ 1) at 1. apply Z.pow_le_mono_r; lia.
Qed.

Lemma wrap_small (w : positive) (x : Z) : 0 <= x < 2 ^ Z.pos w -> wrap w x = x.
Proof. intros H. unfold wrap. by apply Z.mod_small. Qed.

Lemma wrap_range (w : positive) (x : Z) : 0 <= wrap w x < 2 ^ Z.pos w.
Proof. unfold wrap. apply Z.mod_pos_bound. pose proof (pow2_pos w). lia. Qed.

Lemma wrap_wrap_add (w : positive) (x y : Z) : wrap w (wrap w x + y) = wrap w (x + y).
Proof. unfold wrap. apply Zplus_mod_idemp_l. Qed.

Lemma wrap64_small (x : Z) : 0 <= x < 2 ^ 64 -> wrap64 x = x.
Proof. apply wrap_small. Qed.

(** ** WaitGroup *)

Module WaitGroupFacts.
Import WaitGroup.

Lemma dones_nonneg (cs : list call) : 0 <= dones cs.
Proof. induction cs as [|[]]; simpl; lia. Qed.

Lemma added_app (cs1 cs2 : list call) : added (cs1 ++ cs2) = added cs1 + added cs2.
Proof. induction cs1 as [|[] cs1 IH]; simpl; lia. Qed.

Lemma dones_app (cs1 cs2 : list call) : dones (cs1 ++ cs2) = dones cs1 + dones cs2.
Proof. induction cs1 as [|[] cs1 IH]; simpl; lia. Qed.

Lemma calls_app (w : positive) (cs1 cs2 : list call) (g : t) :
  run w g (cs1 ++ cs2) = run w g cs1 ≫= fun g' => run w g' cs2.
Proof.
  revert g. induction cs1 as [|c cs1 IH]; intros g; simpl; [done|].
  destruct (step w g c); simpl; auto.
Qed.

(** The counter is the balance of registrations and completions, reduced
    modulo [2^w]. *)
Lemma run_count (w : positive) (cs : list call) (g g' : t) :
  run w g cs = Some g' ->
  wrap w (count_ g') = wrap w (count_ g + added cs - dones cs).
Proof.
  revert g. induction cs as [|c cs IH]; intros g; simpl.
  - intros [= <-]. f_equal. lia.
  - destruct (step w g c) as [g1|] eqn:Hs; [|done].
    intros Hr. rewrite (IH _ Hr). clear IH Hr.
    destruct c; simpl in Hs.
    + injection Hs as <-. simpl.
      replace (wrap w (count_ g + count) + added cs - dones cs)
        with (wrap w (count_ g + count) + (added cs - dones cs)) by lia.
      rewrite wrap_wrap_add. f_equal. lia.
    + injection Hs as <-. simpl.
      replace (count_ g - 1) with (count_ g + -1) by lia.
      replace (wrap w (count_ g + -1) + added cs - dones cs)
        with (wrap w (count_ g + -1) + (added cs - dones cs)) by lia.
      rewrite wrap_wrap_add. f_equal. lia.
    + injection Hs as <-. done.
    + destruct (Wait_pred g); [|done]. injection Hs as <-. done.
Qed.

Lemma wait_return_zero (w : positive) (cs : list call) (g g' : t) :
  run w g (cs ++ [CWaitReturn]) = Some g' ->
  wrap w (count_ g + added cs - dones cs) = 0.
Proof.
  rewrite calls_app. destruct (run w g cs) as [g1|] eqn:Hr; simpl; [|done].
  unfold Wait_pred. destruct (count_ g1 =? 0) eqn:Hz; [|done]. intros _.
  apply Z.eqb_eq in Hz. rewrite <- (run_count _ _ _ _ Hr), Hz. done.
Qed.

Lemma wrap_zero_small (w : positive) (x : Z) :
  wrap w x = 0 -> - 2 ^ Z.pos w < x < 2 ^ Z.pos w -> x = 0.
Proof.
  unfold wrap. intros Hm Hx. pose proof (pow2_pos w).
  apply Z.mod_divide in Hm; [|lia]. destruct Hm as [k Hk].
  remember (2 ^ Z.pos w) as P. assert (k = 0) as -> by nia. lia.
Qed.

(** C5, as stated, fails: two [Add] calls can overflow the counter back
    to 0, and [Wait] then returns although no [Done] was called. *)
Lemma Wait_returns_without_Done :
  ~ (forall (w : positive) (N : Z) (cs : list call) (g' : t),
       0 <= N < 2 ^ Z.pos w -> Forall (valid_call w) cs ->
       run w (make N) (cs ++ [CWaitReturn]) = Some g' ->
       dones cs = N + added cs).
Proof.
  intros H.
  specialize (H 64%positive 0 [CAdd (2 ^ 64 - 1); CAdd 1; CWaitEnter]
                {| count_ := 0; waiters_ := 0 |}).
  assert (dones [CAdd (2 ^ 64 - 1); CAdd 1; CWaitEnter]
          = 0 + added [CAdd (2 ^ 64 - 1); CAdd 1; CWaitEnter]) as Habs.
  { apply H.
    - lia.
    - repeat constructor; simpl; lia.
    - vm_compute. reflexivity. }
  vm_compute in Habs. discriminate.
Qed.

(** C5 (amended): for every initial count and every sequence of calls,
    [Wait] returns only in a state whose counter is 0, that is when the
    number of [Done] calls is congruent modulo [2^w] to the initial
    count plus the added counts.  When neither total reaches [2^w] the
    two are equal, and a [Wait] issued while fewer [Done] calls have
    occurred cannot return. *)
Theorem Wait_returns_only_at_zero (w : positive) (N : Z) (cs : list call) :
  (forall g', run w (make N) (cs ++ [CWaitReturn]) = Some g' ->
     (exists g, run w (make N) cs = Some g /\ count_ g = 0 /\ Wait_pred g = true)
     /\ count_ g' = 0
     /\ wrap w (N + added cs - dones cs) = 0)
  /\ (0 <= N + added cs < 2 ^ Z.pos w -> dones cs < 2 ^ Z.pos w ->
      (forall g', run w (make N) (cs ++ [CWaitReturn]) = Some g' ->
                  dones cs = N + added cs)
      /\ (dones cs < N + added cs -> run w (make N) (cs ++ [CWaitReturn]) = None)).
Proof.
  split.
  - intros g' Hr. split_and!.
    + rewrite calls_app in Hr. destruct (run w (make N) cs) as [g|]; [|done].
      simpl in Hr. destruct (Wait_pred g) eqn:Hp; [|done].
      exists g. split; [done|]. split; [|done]. by apply Z.eqb_eq.
    + rewrite calls_app in Hr. destruct (run w (make N) cs) as [g|]; [|done].
      simpl in Hr. destruct (Wait_pred g) eqn:Hp; [|done].
      injection Hr as <-. simpl. by apply Z.eqb_eq.
    + by apply wait_return_zero in Hr.
  - intros Hreg Hdone. pose proof (dones_nonneg cs) as Hd0.
    assert (forall g', run w (make N) (cs ++ [CWaitReturn]) = Some g' ->
                       dones cs = N + added cs) as Hret.
    { intros g' Hr. apply wait_return_zero in Hr. simpl in Hr.
      apply wrap_zero_small in Hr; lia. }
    split; [done|].
    intros Hlt. destruct (run w (make N) (cs ++ [CWaitReturn])) as [g'|] eqn:Hr; [|done].
    specialize (Hret g' eq_refl). lia.
Qed.

Lemma Wait_returns_only_at_zero_witness :
  dones [CAdd 1; CDone; CWaitEnter; CDone; CDone] = 2 + added [CAdd 1; CDone; CWaitEnter; CDone; CDone]
  /\ run 64 (make 2) ([CAdd 1; CDone; CWaitEnter; CDone] ++ [CWaitReturn]) = None
  /\ wrap 64 (0 + added [CAdd (2 ^ 64 - 1); CAdd 1; CWaitEnter]
                - dones [CAdd (2 ^ 64 - 1); CAdd 1; CWaitEnter]) = 0.
Proof.
  split_and!.
  - refine (proj1 (proj2 (Wait_returns_only_at_zero 64 2
              [CAdd 1; CDone; CWaitEnter; CDone; CDone]) _ _)
              {| count_ := 0; waiters_ := 0 |} _).
    + vm_compute. split; [discriminate | reflexivity].
    + vm_compute. reflexivity.
    + vm_compute. reflexivity.
  - refine (proj2 (proj2 (Wait_returns_only_at_zero 64 2
              [CAdd 1; CDone; CWaitEnter; CDone]) _ _) _).
    + vm_compute. split; [discriminate | reflexivity].
    + vm_compute. reflexivity.
    + vm_compute. reflexivity.
  - refine (proj2 (proj2 (proj1 (Wait_returns_only_at_zero 64 0
              [CAdd (2 ^ 64 - 1); CAdd 1; CWaitEnter])
              {| count_ := 0; waiters_ := 0 |} _))).
    vm_compute. reflexivity.
Defined.

(** C10: [Done] on a counter that is 0 wraps it to [2^w - 1]; the counter
    is then not 0 and the predicate of [Wait] is false. *)
Theorem Done_at_zero_wraps (w : positive) (waiters : Z) :
  let g' := fst (Done w {| count_ := 0; waiters_ := waiters |}) in
  count_ g' = 2 ^ Z.pos w - 1 /\ count_ g' <> 0 /\ Wait_pred g' = false
  /\ snd (Done w {| count_ := 0; waiters_ := waiters |}) = false.
Proof.
  pose proof (pow2_pos w) as Hp. simpl. unfold Wait_pred. simpl.
  assert (wrap w (0 - 1) = 2 ^ Z.pos w - 1) as ->.
  { unfold wrap. symmetry. apply (Z.mod_unique _ _ (-1)); lia. }
  assert ((2 ^ Z.pos w - 1 =? 0) = false) as Hne by (apply Z.eqb_neq; lia).
  rewrite Hne. repeat split; try done; lia.
Qed.

End WaitGroupFacts.

(** ** UnboundedBlockingQueue and ThreadPool *)

Module QueueFacts.
Import UnboundedBlockingQueue.

Section Queue.
Context {T : Type}.
Implicit Types (q : t T) (v : T) (ops : list (op T)).

Lemma Pop_item (st : State) (x : T) (xs : list T) :
    st <> FORCE_STOPPED -> Pop (st, x :: xs) = PopReturn (Some x) (st, xs).
Proof. by destruct st. Qed.

Lemma Pop_force_stopped (items : list T) :
    Pop (FORCE_STOPPED, items) = PopReturn None (FORCE_STOPPED, items).
Proof. done. Qed.

Lemma Pop_stopped_drained : Pop (T := T) (STOPPED, []) = PopReturn None (STOPPED, []).
Proof. done. Qed.

Lemma pops_drain (st : State) (items : list T) :
    st <> FORCE_STOPPED ->
    pops (length items) (st, items) = Some (map Some items, (st, [])).
Proof.
    intros Hst. induction items as [|x xs IH]; simpl; [done|].
    rewrite (Pop_item st x xs Hst), IH. done.
Qed.

Lemma run_pushes (xs ys : list T) ops :
    run (RUNNING, ys) (map OpPush xs ++ ops) = run (RUNNING, ys ++ xs) ops.
Proof.
    revert ys. induction xs as [|x xs IH]; intros ys; simpl.
    - by rewrite app_nil_r.
    - rewrite IH. by rewrite <- app_assoc.
Qed.

Lemma run_pops (st : State) (xs : list T) :
    st <> FORCE_STOPPED ->
    run (st, xs) (replicate (length xs) OpPop) = ((st, []), xs).
Proof.
    intros Hst. induction xs as [|x xs IH]; simpl; [done|].
    rewrite (Pop_item st x xs Hst), IH. done.
Qed.

    (** Whatever a [Pop] returns was in the queue or was pushed since. *)
Lemma run_source ops : forall q x,
    x ∈ snd (run q ops) -> x ∈ snd q \/ x ∈ pushed ops.
Proof.
    induction ops as [|o ops IH]; intros q x; simpl.
    - intros Hx. by apply elem_of_nil in Hx.
    - destruct o as [v|st|].
      + intros Hx. apply IH in Hx. unfold Push, Emplace in Hx.
        destruct (negb (State_eqb q.1 RUNNING)); simpl in Hx.
        * destruct Hx; [by left | right; by apply list_elem_of_further].
        * destruct Hx as [Hx|Hx]; [|right; by apply list_elem_of_further].
          apply elem_of_app in Hx as [Hx|Hx]; [by left|].
          apply list_elem_of_singleton in Hx as ->. right. apply list_elem_of_here.
      + intros Hx. apply IH in Hx. done.
      + unfold Pop. destruct (negb (Pop_pred q)); [by apply IH|].
        destruct (State_eqb q.1 FORCE_STOPPED); [by apply IH|].
        destruct q as [st [|y ys]]; simpl; [by apply IH|].
        destruct (run (st, ys) ops) as [qf out] eqn:Hr. simpl.
        intros Hx. apply elem_of_cons in Hx as [->|Hx].
        * left. apply list_elem_of_here.
        * specialize (IH (st, ys) x). rewrite Hr in IH.
          destruct (IH Hx) as [Hy|Hy]; [left; by apply list_elem_of_further | by right].
Qed.

Lemma Push_state v q : fst (snd (Push v q)) = fst q.
Proof. unfold Push, Emplace. by destruct (negb _). Qed.

Lemma Pop_state q r q' : Pop q = PopReturn r q' -> fst q' = fst q.
Proof.
    unfold Pop. destruct (negb (Pop_pred q)); [done|].
    destruct (State_eqb q.1 FORCE_STOPPED); [by intros [= _ <-]|].
    destruct q as [st [|y ys]]; by intros [= _ <-].
Qed.

Lemma run_one_state (o : op T) q :
    fst (fst (run q [o])) = match o with OpStop st => st | _ => fst q end.
Proof.
    destruct o as [v|st|]; simpl.
    - apply Push_state.
    - done.
    - destruct (Pop q) as [|[x|] q'] eqn:Hp; simpl; try done;
        by apply Pop_state in Hp.
Qed.

Lemma states_stopped ops : forall q,
    RUNNING ∉ stop_args ops -> fst q <> RUNNING ->
    Forall (fun st => st <> RUNNING) (states q ops).
Proof.
    induction ops as [|o ops IH]; intros q Hargs Hq.
    - by constructor.
    - change (states q (o :: ops)) with (fst q :: states (fst (run q [o])) ops).
      constructor; [done|]. apply IH.
      + intros Hin. apply Hargs. unfold stop_args in *. simpl.
        destruct o; simpl; try done. by apply list_elem_of_further.
      + rewrite run_one_state. destruct o as [v|st|]; try done.
        intros ->. apply Hargs. unfold stop_args. simpl. apply list_elem_of_here.
Qed.

End Queue.

(** C3: [Pop] returns the front item unless the queue is FORCE_STOPPED,
    items come out in the order they were pushed, a FORCE_STOPPED queue
    returns empty whatever it holds, and after [Stop(STOPPED)] the items
    already enqueued are popped in order, after which [Pop] returns
    empty. *)
Theorem Pop_fifo_and_stop {T : Type} (st : State) (x : T) (xs items : list T) :
  st <> FORCE_STOPPED ->
  Pop (st, x :: xs) = PopReturn (Some x) (st, xs)
  /\ run make (map OpPush items ++ replicate (length items) OpPop) = ((RUNNING, []), items)
  /\ Pop (FORCE_STOPPED, items) = PopReturn None (FORCE_STOPPED, items)
  /\ Pop (Stop FORCE_STOPPED (st, items)) = PopReturn None (FORCE_STOPPED, items)
  /\ pops (length items) (Stop STOPPED (st, items)) = Some (map Some items, (STOPPED, []))
  /\ Pop (T := T) (STOPPED, []) = PopReturn None (STOPPED, [])
  /\ Pop (T := T) (RUNNING, []) = PopBlocked.
Proof.
  intros Hst. split; [by apply Pop_item|]. split.
  { unfold make. rewrite run_pushes. simpl. by apply run_pops. }
  split; [done|]. split; [done|]. split; [|done].
  unfold Stop. simpl. by apply pops_drain.
Qed.

Lemma Pop_fifo_and_stop_witness :
  Pop (RUNNING, [1; 2; 3]) = PopReturn (Some 1) (RUNNING, [2; 3])
  /\ pops 2 (Stop STOPPED (RUNNING, [4; 5])) = Some ([Some 4; Some 5], (STOPPED, [])).
Proof.
  pose proof (Pop_fifo_and_stop RUNNING 1 [2; 3] [4; 5]) as H.
  split; apply H; discriminate.
Defined.

(** C4: [Push] and [Emplace] return true exactly when the queue is
    RUNNING and then append the value; otherwise they return false and
    leave the queue as it was, so that no later [Pop] returns the value
    and no worker executes it (unless it was in the queue before or is
    pushed again). *)
Theorem Push_iff_running {T : Type} (v : T) (q : t T) :
  Push v q = Emplace v q
  /\ (fst (Push v q) = true <-> fst q = RUNNING)
  /\ (fst q = RUNNING -> Push v q = (true, (RUNNING, snd q ++ [v])))
  /\ (fst q <> RUNNING ->
      Push v q = (false, q)
      /\ forall ops, v ∉ snd q -> v ∉ pushed ops ->
           (v ∉ snd (run (snd (Push v q)) ops))
           /\ (v ∉ ThreadPool.executed (snd (Push v q)) ops)).
Proof.
  split; [done|]. destruct q as [st items]. unfold Push, Emplace. simpl.
  split; [destruct st; simpl; split; congruence|].
  split; [intros ->; done|].
  intros Hst. assert (negb (State_eqb st RUNNING) = true) as Hneg by (destruct st; done).
  rewrite Hneg.
  split; [done|]. intros ops Hq Hp. simpl. unfold ThreadPool.executed.
  assert (v ∉ (run (st, items) ops).2) as Hn; [|done].
  intros Hx. apply run_source in Hx. simpl in Hx. tauto.
Qed.

Lemma Push_iff_running_witness :
  Push 7 (STOPPED, [1; 2]) = (false, (STOPPED, [1; 2]))
  /\ 7 ∉ ThreadPool.executed (snd (Push 7 (STOPPED, [1; 2])))
           [OpPop; OpStop RUNNING; OpPush 3; OpPop; OpPop; OpPop].
Proof.
  assert ((STOPPED, [1; 2]).1 <> RUNNING) as Hst by discriminate.
  destruct (Push_iff_running 7 (STOPPED, [1; 2])) as (_ & _ & _ & H).
  destruct (H Hst) as [Hp Hx]. split; [exact Hp|].
  apply (Hx [OpPop; OpStop RUNNING; OpPush 3; OpPop; OpPop; OpPop]).
  - simpl. intros Hin. apply elem_of_cons in Hin as [Hin|Hin]; [discriminate|].
    apply list_elem_of_singleton in Hin. discriminate.
  - simpl. intros Hin. apply list_elem_of_singleton in Hin. discriminate.
Defined.

(** C7, as stated, fails: [Stop] stores whatever state it is given, and
    [Stop(State::RUNNING)] restarts a stopped queue. *)
Lemma Stop_can_restart :
  ~ (forall (q : t Z) (ops : list (op Z)),
       fst q <> RUNNING -> fst (fst (run q ops)) <> RUNNING).
Proof.
  intros H. apply (H (STOPPED, []) [OpStop RUNNING]); [discriminate|reflexivity].
Qed.

Lemma run_final_state {T : Type} (ops : list (op T)) : forall q : t T,
  fst (fst (run q ops)) = default (fst q) (last (stop_args ops)).
Proof.
  induction ops as [|o ops IH]; intros q; [done|].
  assert (fst (fst (run q (o :: ops)))
          = fst (fst (run (fst (run q [o])) ops))) as ->.
  { destruct o as [v|st|]; simpl; try done.
    destruct (Pop q) as [|[x|] q']; simpl; try done. by destruct (run q' ops). }
  rewrite IH, run_one_state.
  destruct o as [v|st|]; try done.
  change (stop_args (OpStop st :: ops)) with (st :: stop_args ops).
  rewrite last_cons. by destruct (last (stop_args ops)).
Qed.

(** C7 (amended): on every queue, RUNNING or not, [Push], [Emplace] and
    [Pop] leave the state as it is and [Stop] sets it to its argument,
    whatever it is; so after any sequence of calls the state is the
    argument of the last [Stop], or the initial state when there is none.
    Hence under calls whose [Stop] arguments are STOPPED or
    FORCE_STOPPED, a queue that is not RUNNING never becomes RUNNING
    again. *)
Theorem state_one_directional {T : Type} (q : t T) (ops : list (op T)) :
  (forall v, fst (snd (Push v q)) = fst q)
  /\ (forall v, fst (snd (Emplace v q)) = fst q)
  /\ (forall r q', Pop q = PopReturn r q' -> fst q' = fst q)
  /\ (forall st, fst (Stop st q) = st /\ snd (Stop st q) = snd q)
  /\ fst (fst (run q ops)) = default (fst q) (last (stop_args ops))
  /\ (RUNNING ∉ stop_args ops -> fst q <> RUNNING ->
      Forall (fun st => st <> RUNNING) (states q ops)
      /\ fst (fst (run q ops)) <> RUNNING).
Proof.
  split; [intros v; apply Push_state|].
  split; [intros v; apply (Push_state v q)|].
  split; [intros r q'; apply Pop_state|].
  split; [done|].
  split; [apply run_final_state|].
  intros Hargs Hq. split; [by apply states_stopped|].
  rewrite run_final_state. destruct (last (stop_args ops)) as [st|] eqn:Hl; simpl; [|done].
  intros ->. apply Hargs. apply last_Some in Hl as [l' ->]. apply elem_of_app. right. by left.
Qed.

Lemma state_one_directional_witness :
  Forall (fun st => st <> RUNNING)
    (states (STOPPED, [5]) [OpPush 1; OpPop; OpStop FORCE_STOPPED; OpPop; OpStop STOPPED]).
Proof.
  apply (proj2 (proj2 (proj2 (proj2 (proj2 (state_one_directional (STOPPED, [5])
           [OpPush 1; OpPop; OpStop FORCE_STOPPED; OpPop; OpStop STOPPED])))))).
  - unfold stop_args. simpl. intros Hin.
    apply elem_of_cons in Hin as [Hin|Hin]; [discriminate|].
    apply list_elem_of_singleton in Hin. discriminate.
  - discriminate.
Defined.

End QueueFacts.

Module PoolFacts.

(** C8, as stated, fails: the constructor starts exactly [num_threads]
    threads, none for 0, and the fallback of [THREAD_COUNT] is whatever
    [hardware_concurrency] reports, 0 included. *)
Lemma pool_of_zero_has_no_worker :
  ~ (forall num_threads : Z, 0 <= num_threads ->
       (1 <= length (ThreadPool.threads_ (ThreadPool.make (T := Graph.task) (R := Graph.chunk_pc) num_threads)))%nat)
  /\ THREAD_COUNT None (fun _ => 0) 0 = 0.
Proof.
  split; [|reflexivity].
  intros H. specialize (H 0 ltac:(lia)). simpl in H. lia.
Qed.

(** C8 (amended): the pool runs exactly the configured number of worker
    threads; [THREAD_COUNT] is the parsed value of [TP_SIZE] when it is
    positive, and [hardware_concurrency] when the variable is unset or
    its value not positive, so it is at least 1 whenever
    [hardware_concurrency] is. *)
Theorem pool_size_as_configured {T R : Type} (num_threads : Z)
    (env : option string) (atoi : string -> Z) (hardware_concurrency : Z) :
  0 <= num_threads ->
  Z.of_nat (length (ThreadPool.threads_ (ThreadPool.make (T := T) (R := R) num_threads)))
    = num_threads
  /\ Forall (fun w => w = ThreadPool.Idle)
       (ThreadPool.threads_ (ThreadPool.make (T := T) (R := R) num_threads))
  /\ (env = None -> THREAD_COUNT env atoi hardware_concurrency = hardware_concurrency)
  /\ (forall e, env = Some e -> atoi e <= 0 ->
        THREAD_COUNT env atoi hardware_concurrency = hardware_concurrency)
  /\ (forall e, env = Some e -> 0 < atoi e ->
        THREAD_COUNT env atoi hardware_concurrency = atoi e)
  /\ (1 <= hardware_concurrency -> 1 <= THREAD_COUNT env atoi hardware_concurrency).
Proof.
  intros Hn. unfold ThreadPool.make, THREAD_COUNT. simpl.
  split; [rewrite length_replicate; lia|].
  split; [apply Forall_replicate; done|].
  split; [by intros ->|].
  split; [intros e -> He; simpl; destruct (0 <? atoi e) eqn:Hlt; [lia|done]|].
  split; [intros e -> He; simpl; destruct (0 <? atoi e) eqn:Hlt; [done|lia]|].
  intros Hhw. destruct env as [e|]; [|done]. simpl.
  destruct (0 <? atoi e) eqn:Hlt; lia.
Qed.

Lemma pool_size_as_configured_witness :
  Z.of_nat (length (ThreadPool.threads_ (ThreadPool.make (T := Graph.task) (R := Graph.chunk_pc) 4))) = 4.
Proof.
  apply (pool_size_as_configured (T := Graph.task) (R := Graph.chunk_pc) 4 None (fun _ => 0) 8).
  lia.
Defined.

End PoolFacts.

(** ** Chunking of a level *)

Module ChunkFacts.
Import UnboundedBlockingQueue Graph.

Lemma ceil_div (a b : Z) :
  0 < b -> 0 <= a -> (((a + b - 1) / b) - 1) * b < a <= ((a + b - 1) / b) * b.
Proof.
  intros Hb Ha.
  pose proof (Z.mul_div_le (a + b - 1) b Hb).
  pose proof (Z.mul_succ_div_gt (a + b - 1) b Hb).
  lia.
Qed.

Lemma level_chunkSize_value (L W : Z) :
  1 <= L < 2 ^ 62 -> 1 <= W <= UINT_MAX ->
  level_chunkSize L W = Some ((L + W - 1) / W)
  /\ 1 <= (L + W - 1) / W <= L.
Proof.
  intros HL HW. unfold UINT_MAX in HW. unfold level_chunkSize.
  assert ((W =? 0) = false) as -> by (apply Z.eqb_neq; lia).
  rewrite (wrap64_small (L + W)) by lia.
  rewrite (wrap64_small (L + W - 1)) by lia.
  split; [done|].
  pose proof (ceil_div L W ltac:(lia) ltac:(lia)). nia.
Qed.

Lemma level_wg_count_value (L c : Z) :
  1 <= L < 2 ^ 62 -> 1 <= c ->
  level_wg_count L c = Some (1 + (L - 1) / c)
  /\ ((1 + (L - 1) / c) - 1) * c < L <= (1 + (L - 1) / c) * c
  /\ 1 <= 1 + (L - 1) / c <= L.
Proof.
  intros HL Hc. unfold level_wg_count.
  assert ((c =? 0) = false) as -> by (apply Z.eqb_neq; lia).
  rewrite (wrap64_small (L - 1)) by lia.
  pose proof (Z.mul_div_le (L - 1) c ltac:(lia)).
  pose proof (Z.mul_succ_div_gt (L - 1) c ltac:(lia)).
  assert (0 <= (L - 1) / c <= L - 1) by (split; [apply Z.div_pos; lia | nia]).
  rewrite wrap64_small by lia.
  split; [done|]. lia.
Qed.

Lemma for_chunks_from (L c : Z) :
  1 <= c -> 0 <= L -> L + c < 2 ^ 64 ->
  forall (j k fuel : nat),
    (j <= fuel)%nat ->
    L <= (Z.of_nat k + Z.of_nat j) * c ->
    ((0 < j)%nat -> (Z.of_nat k + Z.of_nat j - 1) * c < L) ->
    for_chunks fuel L c (Z.of_nat k * c) = Some (map (chunk_of c L) (seq k j)).
Proof.
  intros Hc HL Hlim. induction j as [|j IH]; intros k fuel Hfuel Hup Hlow.
  - assert ((Z.of_nat k * c <? L) = false) as Hlt by (apply Z.ltb_ge; lia).
    destruct fuel; simpl; by rewrite Hlt.
  - destruct fuel as [|fuel]; [lia|].
    assert (Z.of_nat k * c < L) as Hk by (specialize (Hlow ltac:(lia)); nia).
    assert ((Z.of_nat k * c <? L) = true) as Hlt by (apply Z.ltb_lt; lia).
    simpl. rewrite Hlt.
    assert (wrap64 (Z.of_nat k * c + c) = Z.of_nat (S k) * c) as Hw.
    { rewrite wrap64_small by nia. lia. }
    unfold chunk_end. rewrite Hw.
    rewrite (IH (S k) fuel); [|lia|lia|intros Hj; specialize (Hlow ltac:(lia)); lia].
    unfold chunk_of at 2. do 3 f_equal. lia.
Qed.

Lemma driver_for_loop (g : t) (TC L c : Z) :
  1 <= c -> 0 <= L -> L + c < 2 ^ 64 ->
  forall (j k : nat) (s : state),
    pc s = DFor (Z.of_nat k * c) -> size (currentLevel s) = L -> chunkSize s = c ->
    fst (ThreadPool.tasks_ (pool s)) = RUNNING ->
    L <= (Z.of_nat k + Z.of_nat j) * c ->
    ((0 < j)%nat -> (Z.of_nat k + Z.of_nat j - 1) * c < L) ->
    exists s',
      run g TC (replicate (S j) Driver) s
        = Some ((submit_event <$> (chunk_of c L <$> seq k j)) ++ [EvTau], s')
      /\ pc s' = DWait
      /\ items s' = items s ++ (chunk_of c L <$> seq k j)
      /\ workers s' = workers s /\ wg s' = wg s /\ visited s' = visited s
      /\ currentLevel s' = currentLevel s /\ nextLevel s' = nextLevel s
      /\ chunkSize s' = chunkSize s.
Proof.
  intros Hc HL Hlim. induction j as [|j IH]; intros k s Hpc Hsz Hcs Hq Hup Hlow.
  - assert ((Z.of_nat k * c <? L) = false) as Hlt by (apply Z.ltb_ge; lia).
    exists (set_pc s DWait). simpl. unfold step_driver. rewrite Hpc, Hsz, Hlt. simpl.
    split_and!; try done. by rewrite app_nil_r.
  - assert (Z.of_nat k * c < L) as Hk by (specialize (Hlow ltac:(lia)); nia).
    assert ((Z.of_nat k * c <? L) = true) as Hlt by (apply Z.ltb_lt; lia).
    assert (wrap64 (Z.of_nat k * c + c) = Z.of_nat (S k) * c) as Hw.
    { rewrite wrap64_small by nia. lia. }
    set (s1 := set_pc (set_pool s (ThreadPool.Push
                 (Z.of_nat k * c, chunk_end (Z.of_nat k * c) c L) (pool s)))
                 (DFor (Z.of_nat (S k) * c))).
    destruct (IH (S k) s1) as (s' & Hrun & Hp & Hi & Hws & Hwg & Hv & Hcl & Hnl & Hch);
      try done; try lia.
    { simpl. unfold Push, Emplace.
      destruct (ThreadPool.tasks_ (pool s)) as [st its]. simpl in *. by subst st. }
    exists s'. split_and!; try done.
    + change (replicate (S (S j)) Driver) with (Driver :: replicate (S j) Driver).
      cbn [run step]. unfold step_driver at 1. rewrite Hpc, Hsz, Hlt, Hcs, Hw.
      fold s1. rewrite Hrun. simpl. do 3 f_equal. unfold submit_event, chunk_of, chunk_end.
      simpl. rewrite Hw. f_equal. f_equal. lia.
    + rewrite Hi. unfold s1, items. simpl. unfold Push, Emplace.
      destruct (ThreadPool.tasks_ (pool s)) as [st its]. simpl in *. subst st. simpl.
      rewrite <- app_assoc. simpl. do 3 f_equal. unfold chunk_of, chunk_end.
      rewrite Hw. f_equal. f_equal. lia.
Qed.

(** C9: for a frontier of length [L >= 1] and [W >= 1] workers, the chunk
    size is [ceil(L / W)], the [for] loop submits the contiguous chunks
    [[k*c, min((k+1)*c, L))] for [k < m], all of size [c] except
    possibly the last, and the WaitGroup is built with the count [m],
    the number of chunks, [m = 1 + (L-1)/c = ceil(L / c)].  The last part
    states it on the calling thread of [parallelBFS]: from the head of the
    [while] loop, its next [m + 2] transitions build the WaitGroup, whose
    counter [count_] is then [m], and submit exactly these chunks, in
    order. *)
Theorem level_chunks (L W : Z) :
  1 <= L < 2 ^ 62 -> 1 <= W <= UINT_MAX ->
  exists (c : Z) (m : nat),
    level_chunkSize L W = Some c
    /\ (c - 1) * W < L <= c * W
    /\ level_wg_count L c = Some (Z.of_nat m)
    /\ Z.of_nat m = 1 + (L - 1) / c
    /\ (Z.of_nat m - 1) * c < L <= Z.of_nat m * c
    /\ for_chunks (Z.to_nat L) L c 0 = Some (map (chunk_of c L) (seq 0 m))
    /\ length (map (chunk_of c L) (seq 0 m)) = m
    /\ (forall k, (k < m - 1)%nat ->
          chunk_of c L k = (Z.of_nat k * c, Z.of_nat k * c + c))
    /\ chunk_of c L (m - 1) = (Z.of_nat (m - 1) * c, L)
    /\ 1 <= L - Z.of_nat (m - 1) * c <= c
    /\ forall (g : t) (s : state),
         pc s = DWhile -> size (currentLevel s) = L ->
         fst (ThreadPool.tasks_ (pool s)) = UnboundedBlockingQueue.RUNNING ->
         exists s',
           run g W (replicate (S (S m)) Driver) s
             = Some (EvTau :: (submit_event <$> map (chunk_of c L) (seq 0 m)) ++ [EvTau], s')
           /\ chunkSize s' = c
           /\ wg s' = WaitGroup.make (Z.of_nat m)
           /\ WaitGroup.count_ (wg s') = Z.of_nat m
           /\ WaitGroup.waiters_ (wg s') = 0
           /\ items s' = items s ++ map (chunk_of c L) (seq 0 m)
           /\ pc s' = DWait.
Proof.
  intros HL HW.
  destruct (level_chunkSize_value L W HL HW) as [Hc Hcr].
  pose proof (ceil_div L W ltac:(lia) ltac:(lia)) as Hceil.
  set (c := (L + W - 1) / W) in *.
  destruct (level_wg_count_value L c HL ltac:(lia)) as (Hm & Hmr & Hmb).
  exists c, (Z.to_nat (1 + (L - 1) / c)).
  set (m := Z.to_nat (1 + (L - 1) / c)).
  assert (Z.of_nat m = 1 + (L - 1) / c) as Hmz by (unfold m; lia).
  rewrite Hmz. repeat split; try done; try lia.
  - change 0 with (Z.of_nat 0 * c). apply for_chunks_from; lia.
  - by rewrite length_map, length_seq.
  - intros k Hk. unfold chunk_of. f_equal. nia.
  - unfold chunk_of. f_equal. nia.
  - nia.
  - intros g s Hpc Hsz Hq.
    set (s0 := mkState (visited s) (currentLevel s) [] c
                 (WaitGroup.make (1 + (L - 1) / c)) (DFor 0) (pool s)).
    destruct (driver_for_loop g W L c ltac:(lia) ltac:(lia) ltac:(lia) m O s0)
      as (s' & Hrun & Hp & Hi & Hws & Hwg & Hv & Hcl & Hnl & Hch); try done; try lia.
    exists s'. split_and!; try done; try (by rewrite Hwg).
    change (replicate (S (S m)) Driver) with (Driver :: replicate (S m) Driver).
    cbn [run step]. unfold step_driver at 1. rewrite Hpc, Hsz.
      assert (UnboundedBlockingQueue.is_empty (currentLevel s) = false) as ->.
      { destruct (currentLevel s); [|done]. unfold size in Hsz. simpl in Hsz. lia. }
      rewrite Hc, Hm. fold s0. by rewrite Hrun.
Qed.

Lemma level_chunks_witness :
  exists (c : Z) (m : nat),
    level_chunkSize 10 4 = Some c
    /\ (c - 1) * 4 < 10 <= c * 4
    /\ level_wg_count 10 c = Some (Z.of_nat m)
    /\ Z.of_nat m = 1 + (10 - 1) / c
    /\ (Z.of_nat m - 1) * c < 10 <= Z.of_nat m * c
    /\ for_chunks (Z.to_nat 10) 10 c 0 = Some (map (chunk_of c 10) (seq 0 m))
    /\ length (map (chunk_of c 10) (seq 0 m)) = m
    /\ exists s',
         run (make 10) 4 (replicate (S (S m)) Driver)
           (mkState (replicate 10 true) [0; 1; 2; 3; 4; 5; 6; 7; 8; 9] [] 0
                    (WaitGroup.make 0) DWhile (ThreadPool.make 4))
         = Some (EvTau :: (submit_event <$> map (chunk_of c 10) (seq 0 m)) ++ [EvTau], s')
         /\ WaitGroup.count_ (wg s') = Z.of_nat m.
Proof.
  destruct (level_chunks 10 4) as (c & m & H1 & H2 & H3 & H4 & H5 & H6 & H7 & _ & _ & _ & H8).
  - lia.
  - unfold UINT_MAX. lia.
  - exists c, m. split_and!; try solve [apply H2 | apply H5 | done].
    destruct (H8 (make 10)
                (mkState (replicate 10 true) [0; 1; 2; 3; 4; 5; 6; 7; 8; 9] [] 0
                         (WaitGroup.make 0) DWhile (ThreadPool.make 4)))
      as (s' & Hrun & _ & _ & Hcount & _); [reflexivity|reflexivity|reflexivity|].
    exists s'. by split.
Defined.

Example level_chunks_10_4 :
  level_chunkSize 10 4 = Some 3 /\ level_wg_count 10 3 = Some 4
  /\ for_chunks 10 10 3 0 = Some [(0, 3); (3, 6); (6, 9); (9, 10)].
Proof. vm_compute. done. Qed.

End ChunkFacts.

(** ** Graphs, reachability and the sequential traversal *)

Module GraphFacts.
Import Graph.

Lemma at_Some {A : Type} (l : list A) (i : Z) (x : A) :
  at_ l i = Some x <-> 0 <= i /\ l !! Z.to_nat i = Some x.
Proof.
  unfold at_. destruct (i <? 0) eqn:Hi.
  - apply Z.ltb_lt in Hi. split; [done|]. lia.
  - apply Z.ltb_ge in Hi. tauto.
Qed.

Lemma at_range {A : Type} (l : list A) (i : Z) (x : A) :
  at_ l i = Some x -> 0 <= i < Z.of_nat (length l).
Proof.
  intros [Hi Hl]%at_Some. apply lookup_lt_Some in Hl. lia.
Qed.

Lemma at_is_Some {A : Type} (l : list A) (i : Z) :
  0 <= i < Z.of_nat (length l) -> exists x, at_ l i = Some x.
Proof.
  intros Hi. destruct (lookup_lt_is_Some_2 l (Z.to_nat i)) as [x Hx]; [lia|].
  exists x. apply at_Some. split; [lia|done].
Qed.

Lemma length_store {A : Type} (l : list A) (i : Z) (x : A) :
  length (store l i x) = length l.
Proof. apply length_insert. Qed.

Lemma at_store_eq {A : Type} (l : list A) (i : Z) (x y : A) :
  at_ l i = Some x -> at_ (store l i y) i = Some y.
Proof.
  intros [Hi Hl]%at_Some. apply at_Some. split; [done|].
  apply list_lookup_insert_eq. by apply lookup_lt_Some in Hl.
Qed.

Lemma at_store_ne {A : Type} (l : list A) (i j : Z) (y : A) :
  0 <= i -> i <> j -> at_ (store l i y) j = at_ l j.
Proof.
  intros Hi Hne. unfold at_, store. destruct (j <? 0) eqn:Hj; [done|].
  apply Z.ltb_ge in Hj. apply list_lookup_insert_ne. lia.
Qed.

Lemma markedv_store (vis : list bool) (v x : Z) (b : bool) :
  at_ vis v = Some b ->
  markedv (store vis v true) x <-> markedv vis x \/ x = v.
Proof.
  intros Hv. unfold markedv. destruct (decide (x = v)) as [->|Hne].
  - rewrite (at_store_eq _ _ _ _ Hv). tauto.
  - rewrite at_store_ne; [tauto | apply at_range in Hv; lia | congruence].
Qed.

Lemma markedv_range (vis : list bool) (v : Z) :
  markedv vis v -> 0 <= v < Z.of_nat (length vis).
Proof. apply at_range. Qed.

(** *** Well-formed graphs *)

Lemma wf_make (vertices : Z) : 0 <= vertices <= INT_MAX -> wf (make vertices).
Proof.
  intros Hn. split; [done|]. split; [apply length_replicate|].
  intros u vec Hu v Hv. simpl in Hu.
  apply lookup_replicate in Hu as [-> _]. by apply elem_of_nil in Hv.
Qed.

Lemma wf_addEdge (src dest : Z) (g : t) : wf g -> wf (addEdge src dest g).
Proof.
  intros (Hn & Hlen & Hadj). unfold addEdge.
  destruct ((src <? 0) || (dest <? 0) || (src >=? vertexCount_ g) || (dest >=? vertexCount_ g)) eqn:Hc;
    [done|].
  apply orb_false_elim in Hc as [Hc Hd]. apply orb_false_elim in Hc as [Hc Hs].
  apply orb_false_elim in Hc as [Hs0 Hd0].
  split; [done|]. split; [simpl; by rewrite length_alter|].
  simpl. intros u vec Hu v Hv.
  destruct (decide (Z.to_nat src = u)) as [<-|Hne].
  - rewrite list_lookup_alter_eq in Hu.
    destruct (matrix_ g !! Z.to_nat src) as [old|] eqn:Hold; [|done].
    simpl in Hu. injection Hu as <-.
    destruct (decide (dest ∈ old)); [by eapply Hadj|].
    apply elem_of_app in Hv as [Hv|Hv]; [by eapply Hadj|].
    apply list_elem_of_singleton in Hv as ->. lia.
  - rewrite list_lookup_alter_ne in Hu by done. by eapply Hadj.
Qed.

(** Every graph that can be built is well formed. *)
Lemma wf_build (vertices : Z) (edges : list (Z * Z)) :
  0 <= vertices <= INT_MAX -> wf (build vertices edges).
Proof.
  intros Hn. unfold build. generalize (wf_make vertices Hn).
  generalize (make vertices). induction edges as [|[a b] edges IH]; intros g Hg; [done|].
  simpl. apply IH. by apply wf_addEdge.
Qed.

Lemma edge_nbrs (g : t) (u v : Z) : edge g u v <-> v ∈ nbrs g u.
Proof.
  unfold edge, nbrs. split.
  - intros (ns & -> & Hv). done.
  - destruct (at_ (matrix_ g) u) as [ns|]; simpl; [eauto|].
    intros Hv. by apply elem_of_nil in Hv.
Qed.

Lemma edge_range (g : t) (u v : Z) : wf g -> edge g u v -> 0 <= v < vertexCount_ g.
Proof.
  intros (Hn & Hlen & Hadj) (ns & [Hu Hns]%at_Some & Hv). by eapply Hadj.
Qed.

Lemma adjacency_defined (g : t) (vis : list bool) (u : Z) :
  wf g -> length vis = Z.to_nat (vertexCount_ g) -> markedv vis u ->
  exists ns, at_ (matrix_ g) u = Some ns.
Proof.
  intros (Hn & Hlen & _) Hvis Hu. apply markedv_range in Hu.
  apply at_is_Some. lia.
Qed.

(** The test [startVertex < 0 || startVertex >= vertexCount_]. *)
Lemma valid_start (g : t) (startVertex : Z) :
  (startVertex <? 0) || (startVertex >=? vertexCount_ g) = false
  <-> 0 <= startVertex < vertexCount_ g.
Proof.
  rewrite orb_false_iff, Z.ltb_ge, Z.geb_leb, Z.leb_gt. lia.
Qed.

(** A set that contains the start vertex and is closed under edges
    contains every reachable vertex. *)
Lemma reachable_closed (g : t) (s : Z) (P : Z -> Prop) :
  P s -> (forall u v, P u -> edge g u v -> P v) ->
  forall v, reachable g s v -> P v.
Proof. intros Hs Hcl v Hr. induction Hr; eauto. Qed.

End GraphFacts.

Module BfsFacts.
Import Graph GraphFacts.

Lemma unmarked_replicate (n : nat) : unmarked (replicate n false) = n.
Proof. induction n; simpl; congruence. Qed.

Lemma unmarked_insert (vis : list bool) (i : nat) :
  vis !! i = Some false -> (unmarked (<[i := true]> vis) + 1 = unmarked vis)%nat.
Proof.
  revert i. induction vis as [|b vis IH]; intros [|i] Hi; simpl in *; try done.
  - injection Hi as ->. lia.
  - specialize (IH i Hi). lia.
Qed.

Lemma unmarked_store (vis : list bool) (v : Z) :
  at_ vis v = Some false -> (unmarked (store vis v true) + 1 = unmarked vis)%nat.
Proof. intros [_ Hv]%at_Some. by apply unmarked_insert. Qed.

Lemma bfs_for_ok (ns : list Z) : forall (vis : list bool) (q : list Z),
  (forall n, n ∈ ns -> 0 <= n < Z.of_nat (length vis)) ->
  exists vis' q',
    bfs_for ns vis q = Some (vis', q')
    /\ length vis' = length vis
    /\ (forall v, markedv vis' v <-> markedv vis v \/ v ∈ ns)
    /\ (forall x, x ∈ q' -> x ∈ q \/ x ∈ ns)
    /\ (forall x, x ∈ q -> x ∈ q')
    /\ (forall x, x ∈ ns -> markedv vis x \/ x ∈ q')
    /\ (unmarked vis' + length q' = unmarked vis + length q)%nat.
Proof.
  induction ns as [|n ns IH]; intros vis q Hr.
  - exists vis, q. simpl. split_and!; try done.
    + intros v. rewrite elem_of_nil. tauto.
    + intros x Hx. by left.
    + intros x Hx. by apply elem_of_nil in Hx.
  - destruct (at_is_Some vis n) as [b Hb]; [apply Hr; left|].
    assert (forall m, m ∈ ns -> 0 <= m < Z.of_nat (length vis)) as Hr'
      by (intros m Hm; apply Hr; by right).
    simpl. rewrite Hb. destruct b.
    + destruct (IH vis q Hr') as (vis' & q' & Hf & Hl & Hm & Hq1 & Hq2 & Hq3 & Hc).
      exists vis', q'. split_and!; try done.
      * intros v. rewrite Hm, elem_of_cons. split; [tauto|].
        intros [?|[->|?]]; auto.
      * intros x Hx. destruct (Hq1 x Hx); [by left|right; by right].
      * intros x [->|Hx]%elem_of_cons; [by left|by apply Hq3].
    + destruct (IH (store vis n true) (q ++ [n])) as (vis' & q' & Hf & Hl & Hm & Hq1 & Hq2 & Hq3 & Hc).
      { intros m Hm. rewrite length_store. by apply Hr'. }
      exists vis', q'. rewrite length_store in Hl. split_and!; try done.
      * intros v. rewrite Hm, (markedv_store _ _ _ _ Hb), elem_of_cons. tauto.
      * intros x Hx. destruct (Hq1 x Hx) as [[?| ->%list_elem_of_singleton]%elem_of_app|?];
          [by left|right; by left|right; by right].
      * intros x Hx. apply Hq2, elem_of_app. by left.
      * intros x [->|Hx]%elem_of_cons.
        -- right. apply Hq2, elem_of_app. right. by left.
        -- destruct (Hq3 x Hx) as [[?| ->]%(markedv_store _ _ _ _ Hb)|?]; [by left| |by right].
           right. apply Hq2, elem_of_app. right. by left.
      * pose proof (unmarked_store _ _ Hb). rewrite length_app in Hc. simpl in Hc. lia.
Qed.

Lemma bfs_inv_init (g : t) (startVertex : Z) :
  0 <= startVertex < vertexCount_ g ->
  bfs_inv g startVertex
    (store (replicate (Z.to_nat (vertexCount_ g)) false) startVertex true) [startVertex].
Proof.
  intros Hs.
  assert (at_ (replicate (Z.to_nat (vertexCount_ g)) false) startVertex = Some false) as H0.
  { apply at_Some. split; [lia|]. apply lookup_replicate_2. lia. }
  assert (forall v, markedv (store (replicate (Z.to_nat (vertexCount_ g)) false) startVertex true) v
                    -> v = startVertex) as Honly.
  { intros v [Hv|Hv]%(markedv_store _ _ _ _ H0); [|done].
    apply at_Some in Hv as [_ Hv]. by apply lookup_replicate in Hv as [? _]. }
  split.
  - by rewrite length_store, length_replicate.
  - apply (markedv_store _ _ _ _ H0). by right.
  - intros v ->%Honly. constructor.
  - intros u ->%list_elem_of_singleton. apply (markedv_store _ _ _ _ H0). by right.
  - intros u v ->%Honly Hq. exfalso. apply Hq. by left.
Qed.

Lemma bfs_inv_step (g : t) (startVertex : Z) (vis : list bool) (u : Z) (q : list Z) :
  wf g -> bfs_inv g startVertex vis (u :: q) ->
  exists ns vis' q',
    at_ (matrix_ g) u = Some ns
    /\ bfs_for ns vis q = Some (vis', q')
    /\ bfs_inv g startVertex vis' q'
    /\ (unmarked vis' + length q' = unmarked vis + length q)%nat.
Proof.
  intros Hwf [Hlen Hst Hre Hqu Hcl].
  destruct (adjacency_defined g vis u Hwf Hlen) as [ns Hns]; [apply Hqu; by left|].
  assert (forall v, v ∈ ns <-> edge g u v) as Hedge.
  { intros v. rewrite edge_nbrs. unfold nbrs. by rewrite Hns. }
  destruct (bfs_for_ok ns vis q) as (vis' & q' & Hf & Hl & Hm & Hq1 & Hq2 & Hq3 & Hc).
  { intros n Hn. apply Hedge, (edge_range g u n Hwf) in Hn. lia. }
  exists ns, vis', q'. split_and!; try done. split.
  - congruence.
  - apply Hm. by left.
  - intros v [Hv|Hv]%Hm; [by apply Hre|].
    apply (reach_step g startVertex u v); [|by apply Hedge].
    apply Hre, Hqu. by left.
  - intros x [Hx|Hx]%Hq1; apply Hm; [left; apply Hqu; by right|by right].
  - intros a b Ha Hnq Hab. apply Hm in Ha as [Ha|Ha].
    + destruct (decide (a = u)) as [->|Hne].
      * apply Hm. right. by apply Hedge.
      * apply Hm. left. apply (Hcl a b Ha); [|done].
        intros [->|Hin]%elem_of_cons; [done|]. by apply Hnq, Hq2.
    + destruct (Hq3 a Ha) as [Hold|Hin]; [|done].
      destruct (decide (a = u)) as [->|Hne].
      * apply Hm. right. by apply Hedge.
      * apply Hm. left. apply (Hcl a b Hold); [|done].
        intros [->|Hin]%elem_of_cons; [done|]. by apply Hnq, Hq2.
Qed.

Lemma bfs_while_ok (g : t) (startVertex : Z) : wf g ->
  forall (fuel : nat) (vis : list bool) (q : list Z),
    bfs_inv g startVertex vis q ->
    (unmarked vis + length q < fuel)%nat ->
    exists vis', bfs_while fuel g vis q = Some vis' /\ bfs_inv g startVertex vis' [].
Proof.
  intros Hwf. induction fuel as [|fuel IH]; intros vis q Hinv Hfuel; [lia|].
  destruct q as [|u q]; [by exists vis|].
  destruct (bfs_inv_step g startVertex vis u q Hwf Hinv) as (ns & vis' & q' & Hns & Hf & Hinv' & Hc).
  simpl. rewrite Hns, Hf. apply IH; [done|]. simpl in Hfuel. lia.
Qed.

(** [bfs] returns, and marks exactly the vertices reachable from the
    start vertex. *)
Lemma bfs_reachable (g : t) (startVertex : Z) :
  wf g -> 0 <= startVertex < vertexCount_ g ->
  exists vis,
    bfs g startVertex = Some vis
    /\ length vis = Z.to_nat (vertexCount_ g)
    /\ forall v, markedv vis v <-> reachable g startVertex v.
Proof.
  intros Hwf Hs. unfold bfs.
  rewrite (proj2 (valid_start g startVertex) Hs).
  destruct (bfs_while_ok g startVertex Hwf (S (Z.to_nat (vertexCount_ g)))
              (store (replicate (Z.to_nat (vertexCount_ g)) false) startVertex true)
              [startVertex]) as (vis & Hb & [Hlen Hst Hre _ Hcl]).
  - by apply bfs_inv_init.
  - assert (at_ (replicate (Z.to_nat (vertexCount_ g)) false) startVertex = Some false) as H0.
    { apply at_Some. split; [lia|]. apply lookup_replicate_2. lia. }
    pose proof (unmarked_store _ _ H0) as Hu. rewrite unmarked_replicate in Hu.
    simpl. lia.
  - exists vis. split_and!; try done. intros v. split; [apply Hre|].
    apply reachable_closed; [done|]. intros a b Ha Hab. apply (Hcl a b Ha); [|done].
    apply not_elem_of_nil.
Qed.

End BfsFacts.

(** ** The parallel traversal: marks and claims *)

Module ClaimFacts.
Import UnboundedBlockingQueue Graph GraphFacts.

Ltac step_cases H :=
  unfold step, step_driver, step_worker, step_task in H;
  repeat case_match; simplify_eq; simpl in *.

(** A transition leaves the flags alone or is a successful
    compare-and-swap that sets one flag that was false. *)
Lemma step_flags (g : t) (TC : Z) (s s' : state) (th : tid) (e : event) :
  step g TC s th = Next e s' ->
  (visited s' = visited s /\ claims [e] = [])
  \/ (exists k v, e = EvClaim k v /\ at_ (visited s) v = Some false
                  /\ visited s' = store (visited s) v true).
Proof.
  intros H. step_cases H; try (left; done).
  right. eauto.
Qed.

Lemma step_mono (g : t) (TC : Z) (s s' : state) (th : tid) (e : event) (v : Z) :
  step g TC s th = Next e s' -> marked s v -> marked s' v.
Proof.
  intros [[Hv _]|(k & x & _ & Hx & Hv)]%step_flags; unfold marked; rewrite Hv; [done|].
  intros Hm. apply (markedv_store _ _ _ _ Hx). by left.
Qed.

Lemma run_cons (g : t) (TC : Z) (th : tid) (sched : list tid) (s : state)
    (es : list event) (sf : state) :
  run g TC (th :: sched) s = Some (es, sf) ->
  exists e s' es', step g TC s th = Next e s' /\ run g TC sched s' = Some (es', sf)
                   /\ es = e :: es'.
Proof.
  simpl. destruct (step g TC s th) as [| |e s']; try done.
  destruct (run g TC sched s') as [[es' sf']|] eqn:Hr; [|done].
  intros [= <- <-]. by exists e, s', es'.
Qed.


Lemma claims_app (es1 es2 : list event) : claims (es1 ++ es2) = claims es1 ++ claims es2.
Proof. apply omap_app. Qed.

Lemma claims_cons (e : event) (es : list event) : claims (e :: es) = claims [e] ++ claims es.
Proof. apply (claims_app [e] es). Qed.

Lemma run_mono (g : t) (TC : Z) (sched : list tid) : forall (s s' : state) (es : list event),
  run g TC sched s = Some (es, s') -> forall v, marked s v -> marked s' v.
Proof.
  induction sched as [|th sched IH]; intros s s' es Hr v Hv.
  - simpl in Hr. by simplify_eq.
  - apply run_cons in Hr as (e & s1 & es' & Hs & Hr & ->).
    eapply IH; [done|]. by eapply step_mono.
Qed.

(** Every claim made during an execution is of a vertex that was not
    marked when the execution started, and no vertex is claimed twice. *)
Lemma run_claims (g : t) (TC : Z) (sched : list tid) : forall (s s' : state) (es : list event),
  run g TC sched s = Some (es, s') ->
  NoDup (claims es) /\ forall v, v ∈ claims es -> ~ marked s v /\ marked s' v.
Proof.
  induction sched as [|th sched IH]; intros s s' es Hr.
  - simpl in Hr. simplify_eq. split; [constructor|]. intros v Hv. by apply elem_of_nil in Hv.
  - apply run_cons in Hr as (e & s1 & es' & Hs & Hr & ->).
    destruct (IH _ _ _ Hr) as [Hnd Hcl]. rewrite claims_cons.
    destruct (step_flags _ _ _ _ _ _ Hs) as [[Hv He]|(k & x & -> & Hx & Hv)].
    + rewrite He. simpl. split; [done|]. intros v Hin. destruct (Hcl v Hin) as [Hn Hm].
      split; [|done]. unfold marked in *. by rewrite <- Hv.
    + simpl. assert (marked s1 x) as Hx1.
      { unfold marked. rewrite Hv. by apply (at_store_eq _ _ false). }
      split.
      * apply NoDup_cons. split; [|done]. intros Hin. by apply Hcl in Hin as [? _].
      * intros v [->|Hin]%elem_of_cons.
        -- split; [unfold marked; congruence|]. by eapply run_mono.
        -- destruct (Hcl v Hin) as [Hn Hm]. split; [|done].
           intros Hs0. apply Hn. by eapply step_mono.
Qed.











End ClaimFacts.

Module EarlyReturnFacts.
Import UnboundedBlockingQueue Graph GraphFacts.

Lemma idle_pool_blocked (g : t) (s : state) (k : nat) :
  ThreadPool.tasks_ (pool s) = (RUNNING, []) ->
  Forall (fun w => w = ThreadPool.Idle) (ThreadPool.threads_ (pool s)) ->
  step_worker g s k = Blocked.
Proof.
  intros Hq Hw. unfold step_worker.
  destruct (ThreadPool.threads_ (pool s) !! k) as [w|] eqn:Hk; [|done].
  rewrite Forall_forall in Hw. rewrite (Hw w) by (by eapply list_elem_of_lookup_2).
  by rewrite Hq.
Qed.

(** C6: with a start vertex out of range, [parallelBFS] is at its
    [return] at once: no flag was allocated or set, no thread can make a
    move, and the only execution is the empty one. *)
Theorem invalid_start_is_noop (g : t) (TC startVertex : Z) :
  startVertex < 0 \/ vertexCount_ g <= startVertex ->
  let s := parallelBFS g TC startVertex in
  returned s
  /\ visited s = []
  /\ (forall v, ~ marked s v)
  /\ (forall th, step g TC s th = Blocked)
  /\ (forall sched es s', run g TC sched s = Some (es, s') ->
        sched = [] /\ es = [] /\ s' = s).
Proof.
  intros Hs. unfold parallelBFS.
  assert ((startVertex <? 0) || (startVertex >=? vertexCount_ g) = true) as ->.
  { apply orb_true_iff. rewrite Z.ltb_lt, Z.geb_leb, Z.leb_le. lia. }
  set (s := mkState _ _ _ _ _ _ _). simpl.
  assert (forall th, step g TC s th = Blocked) as Hblocked.
  { intros [|k]; [done|]. simpl. apply idle_pool_blocked; [done|].
    simpl. by apply Forall_replicate. }
  split_and!; try done.
  - intros v. unfold marked, at_. simpl. destruct (v <? 0); [done|].
    by rewrite lookup_nil.
  - intros [|th sched] es s' Hr.
    + simpl in Hr. by simplify_eq.
    + simpl in Hr. by rewrite Hblocked in Hr.
Qed.

Lemma invalid_start_is_noop_witness :
  returned (parallelBFS (addEdge 0 1 (make 2)) 4 (-1))
  /\ returned (parallelBFS (addEdge 0 1 (make 2)) 4 2)
  /\ step (addEdge 0 1 (make 2)) 4 (parallelBFS (addEdge 0 1 (make 2)) 4 2) (Worker 0) = Blocked.
Proof.
  split; [|split].
  - apply (invalid_start_is_noop (addEdge 0 1 (make 2)) 4 (-1)). left. lia.
  - apply (invalid_start_is_noop (addEdge 0 1 (make 2)) 4 2). right. simpl. lia.
  - apply (invalid_start_is_noop (addEdge 0 1 (make 2)) 4 2). right. simpl. lia.
Defined.

End EarlyReturnFacts.

(** ** The parallel traversal: invariant *)

Module SliceFacts.
Import Graph GraphFacts.

Lemma slice_nil (l : list Z) (i e : Z) : e <= i -> slice l i e = [].
Proof. intros H. unfold slice. by replace (Z.to_nat (e - i)) with O by lia. Qed.

Lemma slice_cons (l : list Z) (i e u : Z) :
  i < e -> at_ l i = Some u -> slice l i e = u :: slice l (i + 1) e.
Proof.
  intros Hie [Hi Hu]%at_Some. unfold slice.
  replace (Z.to_nat (e - i)) with (S (Z.to_nat (e - (i + 1)))) by lia.
  replace (Z.to_nat (i + 1)) with (S (Z.to_nat i)) by lia.
  by rewrite (drop_S _ _ _ Hu).
Qed.

Lemma slice_split (l : list Z) (a b c : Z) :
  0 <= a <= b -> b <= c -> slice l a c = slice l a b ++ slice l b c.
Proof.
  intros Hab Hbc. unfold slice.
  replace (Z.to_nat (c - a)) with (Z.to_nat (b - a) + Z.to_nat (c - b))%nat by lia.
  rewrite <- take_take_drop, drop_drop. do 3 f_equal. lia.
Qed.

Lemma slice_all (l : list Z) : slice l 0 (size l) = l.
Proof.
  unfold slice, size. simpl. rewrite drop_0. apply take_ge. lia.
Qed.

Lemma at_slice_defined (l : list Z) (i : Z) :
  0 <= i < size l -> exists u, at_ l i = Some u /\ u ∈ l.
Proof.
  intros Hi. destruct (at_is_Some l i Hi) as [u Hu]. exists u. split; [done|].
  apply at_Some in Hu as [_ Hu]. by eapply list_elem_of_lookup_2.
Qed.

Lemma targets_nil (g : t) (l : list Z) (i e : Z) : e <= i -> targets g l i e = [].
Proof. intros H. unfold targets. by rewrite slice_nil. Qed.

Lemma targets_cons (g : t) (l : list Z) (i e u : Z) :
  i < e -> at_ l i = Some u ->
  targets g l i e = nbrs g u ++ targets g l (i + 1) e.
Proof. intros H1 H2. unfold targets. by rewrite (slice_cons l i e u H1 H2). Qed.

Lemma targets_split (g : t) (l : list Z) (a b c : Z) :
  0 <= a <= b -> b <= c -> targets g l a c = targets g l a b ++ targets g l b c.
Proof. intros H1 H2. unfold targets. by rewrite (slice_split l a b c H1 H2), bind_app. Qed.

Lemma targets_all (g : t) (l : list Z) : targets g l 0 (size l) = l ≫= nbrs g.
Proof. unfold targets. by rewrite slice_all. Qed.

(** A duplicate-free list of vertices in range is no longer than the
    number of vertices. *)
Lemma NoDup_range_length (l : list Z) (n : Z) :
  0 <= n -> NoDup l -> (forall x, x ∈ l -> 0 <= x < n) -> size l <= n.
Proof.
  intros Hn Hnd Hr. unfold size.
  assert (l ⊆+ seqZ 0 n) as Hsub.
  { apply NoDup_submseteq; [done|]. intros x Hx. apply elem_of_seqZ. specialize (Hr x Hx). lia. }
  apply submseteq_length in Hsub. rewrite length_seqZ in Hsub. lia.
Qed.

End SliceFacts.

(** ** The parallel traversal: invariant *)

Module InvariantFacts.
Import UnboundedBlockingQueue Graph GraphFacts SliceFacts ClaimFacts ChunkFacts.

Ltac unfold_state :=
  unfold pending, unexpanded, fresh, outstanding,
    items, workers, set_worker, set_visited, set_nextLevel, set_wg, set_pc, set_pool,
    ThreadPool.Push in *; simpl in *.

Ltac ctrl_easy :=
  unfold_state; try done; try tauto; try (intros [?|?]; done); try lia.

Lemma INT_MAX_small : INT_MAX < 2 ^ 62.
Proof. done. Qed.

Lemma is_empty_true {A} (l : list A) : is_empty l = true -> l = [].
Proof. by destruct l. Qed.

Lemma is_empty_false (l : list Z) : is_empty l = false -> 1 <= size l.
Proof. destruct l; [done|]. unfold size. simpl. lia. Qed.

Lemma bind_idle {B : Type} (f : ThreadPool.worker chunk_pc -> list B)
    (ws : list (ThreadPool.worker chunk_pc)) :
  f ThreadPool.Idle = [] -> Forall (fun w => w = ThreadPool.Idle) ws -> ws ≫= f = [].
Proof.
  intros Hf. induction 1 as [|w ws -> _ IH]; [done|].
  by rewrite bind_cons, Hf, IH.
Qed.


Lemma chunks_step (L c cs : Z) :
  1 <= c -> 0 <= cs < L ->
  (if cs + c <? L then 1 + (L - 1 - (cs + c)) / c else 0) + 1 = 1 + (L - 1 - cs) / c.
Proof.
  intros Hc Hcs. destruct (cs + c <? L) eqn:Hlt.
  - apply Z.ltb_lt in Hlt.
    replace (L - 1 - cs) with ((L - 1 - (cs + c)) + 1 * c) by lia.
    rewrite Z.div_add by lia. lia.
  - apply Z.ltb_ge in Hlt. rewrite (Z.div_small (L - 1 - cs) c) by lia. lia.
Qed.

Lemma targets_after_chunk (g : t) (l : list Z) (cs c : Z) :
  1 <= c -> 0 <= cs < size l ->
  targets g l (cs + c) (size l) = targets g l (Z.min (cs + c) (size l)) (size l).
Proof.
  intros Hc Hcs. destruct (Z.le_gt_cases (cs + c) (size l)).
  - by rewrite Z.min_l.
  - rewrite Z.min_r by lia. by rewrite !targets_nil by lia.
Qed.

Lemma all_idle (ws : list (ThreadPool.worker chunk_pc)) :
  Forall (fun w => w <> ThreadPool.Exited) ws ->
  length (ws ≫= worker_busy) = 0%nat ->
  Forall (fun w => w = ThreadPool.Idle) ws.
Proof.
  induction 1 as [|w ws Hw _ IH]; [done|].
  rewrite bind_cons, length_app. intros Hl. constructor.
  - destruct w; simpl in Hl; [done|lia|done].
  - apply IH. lia.
Qed.

Lemma unexpanded_bound (g : t) (startVertex : Z) (s : state) :
  wf g -> graph_inv g startVertex s -> size (unexpanded s) <= vertexCount_ g.
Proof.
  intros (Hn & _) Hg. apply NoDup_range_length; [lia|apply Hg|].
  intros x Hx. apply (g_unexp _ _ _ Hg), markedv_range in Hx.
  rewrite (g_len _ _ _ Hg) in Hx. lia.
Qed.

Lemma step_driver_inv (g : t) (TC startVertex: Z) (s s' : state) (e : event) :
  wf g -> 1 <= TC <= UINT_MAX ->
  ctrl_inv TC s -> graph_inv g startVertex s ->
  step_driver TC s = Next e s' -> ctrl_inv TC s' /\ effect g s s' e.
Proof.
  intros Hwf HTC [Hq Hth Hne Hb Hts Hpcs Hwg Hcnt Hfor Hquiet Hnext] Hg H.
  pose proof (unexpanded_bound g startVertex s Hwf Hg) as Hub.
  destruct s as [vis cur nxt c wg0 p [[qst its] ws]].
  step_cases H; simplify_eq; unfold_state; subst.
  - apply is_empty_true in H1 as ->. split.
    + split; ctrl_easy. 
    + apply eff_tau; unfold_state; try done.
  - apply is_empty_false in H1.
    destruct (level_chunkSize_value (size cur) TC ltac:(lia) HTC) as [Hz Hzr].
    rewrite Hz in H2. injection H2 as <-.
    destruct (level_wg_count_value (size cur) ((size cur + TC - 1) / TC) ltac:(lia) ltac:(lia))
      as (Hm & Hmr & Hmb).
    rewrite Hm in H3. injection H3 as <-.
    destruct (Hquiet ltac:(tauto)) as [-> Hidle].
    rewrite (Hnext ltac:(tauto)) in *.
    split.
    + split; ctrl_easy.
      * intros _. rewrite (bind_idle worker_busy ws eq_refl Hidle). simpl.
        assert ((0 <? size cur) = true) as -> by (apply Z.ltb_lt; lia).
        rewrite Z.sub_0_r. lia.
      * intros cs [= <-]. lia.
    + apply eff_level; unfold_state; try done.
      * by rewrite (bind_idle (worker_pending g cur) ws eq_refl Hidle).
      * by rewrite (bind_idle worker_local ws eq_refl Hidle).
      * by rewrite (bind_idle worker_local ws eq_refl Hidle).
      * rewrite (bind_idle (worker_pending g cur) ws eq_refl Hidle), app_nil_r.
        apply targets_all.
  - (* submit a chunk *)
    apply Z.ltb_lt in H1. destruct (Hfor _ eq_refl) as [Hcs Hc].
    rewrite (wrap64_small (chunkStart + c)) in * by lia. unfold chunk_end.
    rewrite (wrap64_small (chunkStart + c)) in * by lia.
    split.
    + split; ctrl_easy.
      * apply Forall_app. split; [done|]. constructor; [|done].
        unfold task_ok. simpl. lia.
      * intros _. rewrite length_app, (Hcnt I). simpl.
        assert ((chunkStart <? size cur) = true) as -> by (apply Z.ltb_lt; lia).
        rewrite <- (chunks_step (size cur) c chunkStart) by lia.
        destruct (chunkStart + c <? size cur); lia.
      * intros cs [= <-]. lia.
    + apply eff_tau; unfold_state; try done.
      rewrite bind_app, bind_cons. simpl. unfold task_pending at 2. simpl.
      rewrite (targets_split g cur chunkStart (Z.min (chunkStart + c) (size cur)) (size cur))
        by lia.
      rewrite (targets_after_chunk g cur chunkStart c) by lia.
      solve_Permutation.
  - (* leave the for loop *)
    rewrite H1 in Hcnt. apply Z.ltb_ge in H1. split.
    + split; ctrl_easy.
    + apply eff_tau; unfold_state; try done.
      by rewrite targets_nil by lia.
  - (* Wait finds the counter at 0 *)
    unfold WaitGroup.Wait_pred in H1. simpl in H1. apply Z.eqb_eq in H1.
    rewrite (Hcnt I) in H1.
    assert (its = [] /\ Forall (fun w => w = ThreadPool.Idle) ws) as Hidle.
    { split; [destruct its; [done|simpl in H1; lia]|]. apply all_idle; [done|]. lia. }
    split.
    + split; ctrl_easy.
    + apply eff_tau; unfold_state; try done.
  - (* Wait blocks *)
    split.
    + split; ctrl_easy.
    + apply eff_tau; unfold_state; try done.
  - (* Wait wakes up *)
    unfold WaitGroup.Wait_pred in H1. simpl in H1. apply Z.eqb_eq in H1.
    rewrite (Hcnt I) in H1.
    assert (its = [] /\ Forall (fun w => w = ThreadPool.Idle) ws) as Hidle.
    { split; [destruct its; [done|simpl in H1; lia]|]. apply all_idle; [done|]. lia. }
    split.
    + split; ctrl_easy.
    + apply eff_tau; unfold_state; try done.
  - (* the next frontier becomes the current one *)
    destruct (Hquiet ltac:(tauto)) as [-> Hidle].
    rewrite (bind_idle worker_local ws eq_refl Hidle), !app_nil_r in Hub.
    destruct Hwf as (Hn & _). pose proof INT_MAX_small as Hsm.
    split.
    + split; ctrl_easy.
      eapply Forall_impl; [exact Hidle|]. by intros w ->.
    + apply eff_move; unfold_state; try done.
      * by rewrite (bind_idle worker_local ws eq_refl Hidle), !app_nil_r.
      * by rewrite (bind_idle (worker_pending g nxt) ws eq_refl Hidle).
      * by rewrite (bind_idle (worker_pending g cur) ws eq_refl Hidle).
      * by rewrite (bind_idle worker_local ws eq_refl Hidle), !app_nil_r.
Qed.

Lemma workers_replace {A : Type} (ws : list A) (k : nat) (w : A) :
  ws !! k = Some w ->
  exists l1 l2, ws = l1 ++ w :: l2 /\ forall w', <[k := w']> ws = l1 ++ w' :: l2.
Proof.
  intros Hk. exists (take k ws), (drop (S k) ws). split.
  - by rewrite take_drop_middle.
  - intros w'. apply insert_take_drop. by eapply lookup_lt_Some.
Qed.

Lemma in_level_cases (p : driver_pc) : in_level p \/ ~ in_level p.
Proof. destruct p; simpl; tauto. Qed.

Lemma step_worker_inv (g : t) (TC startVertex: Z) (s s' : state) (k : nat) (e : event) :
  wf g -> 1 <= TC <= UINT_MAX ->
  ctrl_inv TC s -> graph_inv g startVertex s ->
  step_worker g s k = Next e s' -> ctrl_inv TC s' /\ effect g s s' e.
Proof.
  intros Hwf HTC [Hq Hth Hne Hb Hts Hpcs Hwg Hcnt Hfor Hquiet Hnext] Hg H.
  destruct s as [vis cur nxt c wg0 p [[qst its] ws]].
  unfold step_worker in H. unfold_state. subst qst.
  destruct (ws !! k) as [w|] eqn:Hk; [|done].
  destruct (workers_replace ws k w Hk) as (l1 & l2 & -> & Hins).
  rewrite Forall_app, Forall_cons in Hne, Hpcs.
  destruct Hne as (Hne1 & Hnew & Hne2). destruct Hpcs as (Hpc1 & Hpcw & Hpc2).
  rewrite bind_app, bind_cons in Hcnt.
  destruct w as [|r|]; [| |done].
  - (* a worker takes a task *)
    destruct its as [|[cs ce] its']; [done|]. simpl in H. simplify_eq. rewrite Hins.
    assert (in_level p) as Hin.
    { destruct (in_level_cases p) as [?|Hn]; [done|]. by destruct (Hquiet Hn). }
    apply Forall_cons in Hts as [Hok Hts].
    split.
    + split; ctrl_easy.
      * rewrite !length_app in *. done.
      * rewrite Forall_app, Forall_cons. done.
      * rewrite Forall_app, Forall_cons. done.
      * intros _. rewrite (Hcnt Hin), bind_app, bind_cons, !length_app. simpl. lia.
    + apply eff_tau; unfold_state; try done.
      * rewrite !bind_app, !bind_cons. simpl. unfold task_pending at 1. simpl.
        solve_Permutation.
      * rewrite !bind_app, !bind_cons. simpl. done.
  - assert (in_level p) as Hin.
    { destruct (in_level_cases p) as [?|Hn]; [done|]. destruct (Hquiet Hn) as [_ Hi].
      rewrite Forall_app, Forall_cons in Hi. by destruct Hi as (_ & ? & _). }
    pose proof (Hcnt Hin) as Hcount.
    assert (length (l1 ++ ThreadPool.Running r :: l2) = length (l1 ++ ThreadPool.Idle :: l2)) as Hlen1
      by (by rewrite !length_app).
    assert (forall r', length (l1 ++ ThreadPool.Running r :: l2)
                       = length (l1 ++ ThreadPool.Running r' :: l2)) as Hlen2
      by (intros; by rewrite !length_app).
    unfold step_task in H. simpl in Hpcw.
    destruct r as [i ce loc|i ce rest loc|loc|]; unfold_state.
    + (* outer loop test *)
      destruct (i <? ce) eqn:Hlt.
      * apply Z.ltb_lt in Hlt.
        destruct (at_ cur i) as [u|] eqn:Hu; [|done].
        destruct (at_ (matrix_ g) u) as [ns|] eqn:Hns; [|done].
        simplify_eq. rewrite Hins. split.
        -- split; ctrl_easy.
           ++ by rewrite <- Hlen2.
           ++ rewrite Forall_app, Forall_cons. done.
           ++ rewrite Forall_app, Forall_cons. split_and!; try done. simpl. lia.
           ++ intros _. rewrite Hcount, !bind_app, !bind_cons, !length_app. done.
        -- apply eff_tau; unfold_state; try done.
           ++ rewrite !bind_app, !bind_cons. simpl.
              rewrite (targets_cons g cur i ce u Hlt Hu). unfold nbrs. rewrite Hns. simpl.
              done.
           ++ by rewrite !bind_app, !bind_cons.
      * apply Z.ltb_ge in Hlt. simplify_eq. rewrite Hins. split.
        -- split; ctrl_easy.
           ++ by rewrite <- Hlen2.
           ++ rewrite Forall_app, Forall_cons. done.
           ++ rewrite Forall_app, Forall_cons. done.
           ++ intros _. rewrite Hcount, !bind_app, !bind_cons, !length_app. done.
        -- apply eff_tau; unfold_state; try done.
           ++ rewrite !bind_app, !bind_cons. simpl. by rewrite targets_nil by lia.
           ++ by rewrite !bind_app, !bind_cons.
    + destruct rest as [|v rest].
      * (* end of an adjacency list *)
        simplify_eq. rewrite Hins. rewrite wrap64_small by lia. split.
        -- split; ctrl_easy.
           ++ by rewrite <- Hlen2.
           ++ rewrite Forall_app, Forall_cons. done.
           ++ rewrite Forall_app, Forall_cons. split_and!; try done. simpl. lia.
           ++ intros _. rewrite Hcount, !bind_app, !bind_cons, !length_app. done.
        -- apply eff_tau; unfold_state; try done.
           ++ by rewrite !bind_app, !bind_cons.
           ++ by rewrite !bind_app, !bind_cons.
      * (* compare-and-swap *)
        destruct (at_ vis v) as [[|]|] eqn:Hv; [| |done].
        -- simplify_eq. rewrite Hins. split.
           ++ split; ctrl_easy.
              ** by rewrite <- Hlen2.
              ** rewrite Forall_app, Forall_cons. done.
              ** rewrite Forall_app, Forall_cons. done.
              ** intros _. rewrite Hcount, !bind_app, !bind_cons, !length_app. done.
           ++ apply eff_seen; unfold_state; try done.
              ** rewrite !bind_app, !bind_cons. simpl. solve_Permutation.
              ** by rewrite !bind_app, !bind_cons.
        -- simplify_eq. rewrite Hins. split.
           ++ split; ctrl_easy.
              ** by rewrite <- Hlen2.
              ** rewrite Forall_app, Forall_cons. done.
              ** rewrite Forall_app, Forall_cons. done.
              ** intros _. rewrite Hcount, !bind_app, !bind_cons, !length_app. done.
           ++ apply eff_claim; unfold_state; try done.
              ** rewrite !bind_app, !bind_cons. simpl. solve_Permutation.
              ** rewrite !bind_app, !bind_cons. simpl. solve_Permutation.
    + (* merge *)
      destruct (negb (is_empty loc)) eqn:Hloc; simplify_eq; rewrite Hins.
      * split.
        -- split; ctrl_easy.
           ++ by rewrite <- Hlen2.
           ++ rewrite Forall_app, Forall_cons. done.
           ++ rewrite Forall_app, Forall_cons. done.
           ++ intros _. rewrite Hcount, !bind_app, !bind_cons, !length_app. done.
           ++ intros Hp. destruct p; simpl in Hin; try done; by destruct Hp.
        -- apply eff_tau; unfold_state; try done.
           ++ by rewrite !bind_app, !bind_cons.
           ++ rewrite !bind_app, !bind_cons. simpl. solve_Permutation.
      * apply negb_false_iff, is_empty_true in Hloc as ->. split.
        -- split; ctrl_easy.
           ++ by rewrite <- Hlen2.
           ++ rewrite Forall_app, Forall_cons. done.
           ++ rewrite Forall_app, Forall_cons. done.
           ++ intros _. rewrite Hcount, !bind_app, !bind_cons, !length_app. done.
        -- apply eff_tau; unfold_state; try done.
           ++ by rewrite !bind_app, !bind_cons.
           ++ by rewrite !bind_app, !bind_cons.
    + (* Done *)
      simplify_eq. rewrite Hins.
      rewrite !length_app in Hcount. simpl in Hcount.
      assert (0 <= driver_chunks p cur c) as Hdc.
      { destruct p; simpl; try lia. destruct (Hfor _ eq_refl) as [? ?].
        destruct (chunkStart <? size cur) eqn:Hlt; [|lia].
        apply Z.ltb_lt in Hlt.
        assert (0 <= (size cur - 1 - chunkStart) / c) by (apply Z.div_pos; lia). lia. }
      assert (wrap size_t_bits (WaitGroup.count_ wg0 - 1) = WaitGroup.count_ wg0 - 1) as Hw.
      { apply wrap_small. change (Z.pos size_t_bits) with 64. lia. }
      split.
      * split; ctrl_easy.
        -- rewrite Forall_app, Forall_cons. done.
        -- rewrite Forall_app, Forall_cons. done.
        -- intros _. rewrite Hw, Hcount, !bind_app, !bind_cons, !length_app. simpl. lia.
      * apply eff_tau; unfold_state; try done.
        -- by rewrite !bind_app, !bind_cons.
        -- by rewrite !bind_app, !bind_cons.
Qed.

Lemma effect_graph_inv (g : t) (startVertex : Z) (s s' : state) (e : event) :
  wf g -> graph_inv g startVertex s -> effect g s s' e -> graph_inv g startVertex s'.
Proof.
  intros Hwf [Hlen Hst Hre Hnd Hun Hcl Hpe [Hlnd Hlm]] He. unfold marked in *.
  destruct He as [e _ _ Hv Hc Hp Hu|k v Hx Hv Hc Hp Hu|k v Hx Hv Hc Hp Hu
                  |Hv Hc Hp Hu Hu' Hp'|Hv Hc Hp' Hp Hu].
  - split; unfold marked; rewrite ?Hv, ?Hc; try done.
    + by rewrite Hu.
    + intros v. rewrite Hu. apply Hun.
    + intros u v. rewrite Hu, Hp. apply Hcl.
    + intros v. rewrite Hp. apply Hpe.
  - assert (forall x, markedv (store (visited s) v true) x <-> markedv (visited s) x \/ x = v)
      as Hm by (intros x; by apply (markedv_store _ _ _ false)).
    unfold markedv in Hm.
    assert (v ∈ pending g s) as Hvp by (rewrite Hp; by left).
    assert (v ∉ unexpanded s) as Hvu.
    { intros Hin. apply Hun in Hin. congruence. }
    split; unfold marked; rewrite ?Hv, ?Hc.
    + by rewrite length_store.
    + apply Hm. by left.
    + intros x [Hx'| ->]%Hm; [by apply Hre|].
      destruct (Hpe v Hvp) as (u & Hu1 & Hu2). eapply reach_step; [|done]. by apply Hre.
    + rewrite Hu. apply NoDup_cons. done.
    + intros x. rewrite Hu. intros [->|Hin]%elem_of_cons; apply Hm; [by right|].
      left. by apply Hun.
    + intros u w [Hu1| ->]%Hm Hnu Huw.
      * rewrite Hu in Hnu. apply not_elem_of_cons in Hnu as [Hne Hnu].
        destruct (Hcl u w Hu1 Hnu Huw) as [Hw|Hw].
        -- left. apply Hm. by left.
        -- rewrite Hp in Hw. apply elem_of_cons in Hw as [->|Hw]; [|by right].
           left. apply Hm. by right.
      * exfalso. apply Hnu. rewrite Hu. by left.
    + intros x Hx'. destruct (Hpe x) as (u & Hu1 & Hu2).
      { rewrite Hp. by right. }
      exists u. split; [|done]. apply Hm. by left.
    + split; [done|]. intros u Hu'. apply Hm. left. by apply Hlm.
  - split; unfold marked; rewrite ?Hv, ?Hc; try done.
    + by rewrite Hu.
    + intros x. rewrite Hu. apply Hun.
    + intros u w Hu1 Hnu Huw. rewrite Hu in Hnu.
      destruct (Hcl u w Hu1 Hnu Huw) as [Hw|Hw]; [by left|].
      rewrite Hp in Hw. apply elem_of_cons in Hw as [->|Hw]; [by left|by right].
    + intros x Hx'. apply Hpe. rewrite Hp. by right.
  - split; unfold marked; rewrite ?Hv, ?Hc, ?Hu', ?Hp'; try done.
    + constructor.
    + intros v Hin. by apply elem_of_nil in Hin.
    + intros u w Hu1 _ Huw. destruct (decide (u ∈ currentLevel s)) as [Hin|Hin].
      * right. apply list_elem_of_bind. exists u. split; [|done]. by apply edge_nbrs.
      * rewrite <- Hu in Hin. destruct (Hcl u w Hu1 Hin Huw) as [Hw|Hw]; [by left|].
        rewrite Hp in Hw. by apply elem_of_nil in Hw.
    + intros x (u & Hxu & Hu1)%list_elem_of_bind. exists u. split; [by apply Hlm|].
      by apply edge_nbrs.
  - split; unfold marked; rewrite ?Hv, ?Hc, ?Hu, ?Hp'; try done.
    + intros u w Hu1 Hnu Huw. destruct (Hcl u w Hu1 Hnu Huw) as [Hw|Hw]; [by left|].
      rewrite Hp in Hw. by apply elem_of_nil in Hw.
    + intros x Hin. by apply elem_of_nil in Hin.
Qed.

Lemma init_inv (g : t) (TC startVertex : Z) :
  wf g -> 0 <= startVertex < vertexCount_ g ->
  inv g TC startVertex (parallelBFS g TC startVertex).
Proof.
  intros Hwf Hs. unfold parallelBFS. rewrite (proj2 (valid_start g startVertex) Hs).
  assert (Forall (fun w : ThreadPool.worker chunk_pc => w = ThreadPool.Idle)
            (replicate (Z.to_nat TC) ThreadPool.Idle)) as Hidle
    by (by apply Forall_replicate).
  assert (at_ (replicate (Z.to_nat (vertexCount_ g)) false) startVertex = Some false) as H0.
  { apply at_Some. split; [lia|]. apply lookup_replicate_2. lia. }
  assert (forall v, markedv (store (replicate (Z.to_nat (vertexCount_ g)) false) startVertex true) v
                    <-> v = startVertex) as Honly.
  { intros v. rewrite (markedv_store _ _ _ _ H0). split; [|by right].
    intros [Hv|Hv]; [|done].
    apply at_Some in Hv as [_ Hv]. by apply lookup_replicate in Hv as [? _]. }
  split.
  - split; ctrl_easy.
    + apply length_replicate.
    + apply Forall_replicate. done.
    + apply Forall_replicate. done.
  - split; unfold marked; unfold_state;
      rewrite ?(bind_idle worker_local _ eq_refl Hidle);
      rewrite ?(bind_idle (worker_pending g [startVertex]) _ eq_refl Hidle); simpl.
    + by rewrite length_store, length_replicate.
    + by apply Honly.
    + intros v ->%Honly. constructor.
    + apply NoDup_singleton.
    + intros v ->%list_elem_of_singleton. by apply Honly.
    + intros u v ->%Honly Hn. exfalso. apply Hn. by left.
    + intros v Hv. by apply elem_of_nil in Hv.
    + split; [apply NoDup_singleton|]. intros v ->%list_elem_of_singleton. by apply Honly.
Qed.

Lemma step_inv (g : t) (TC startVertex : Z) (s s' : state) (th : tid) (e : event) :
  wf g -> 1 <= TC <= UINT_MAX ->
  inv g TC startVertex s -> step g TC s th = Next e s' ->
  inv g TC startVertex s' /\ effect g s s' e.
Proof.
  intros Hwf HTC [Hc Hg] Hs.
  assert (ctrl_inv TC s' /\ effect g s s' e) as [Hc' He].
  { destruct th; [by eapply step_driver_inv|by eapply step_worker_inv]. }
  split; [|done]. split; [done|]. by eapply effect_graph_inv.
Qed.

Lemma run_inv (g : t) (TC startVertex : Z) (sched : list tid) :
  wf g -> 1 <= TC <= UINT_MAX ->
  forall (s s' : state) (es : list event),
    inv g TC startVertex s -> run g TC sched s = Some (es, s') ->
    inv g TC startVertex s'.
Proof.
  intros Hwf HTC. induction sched as [|th sched IH]; intros s s' es Hi Hr.
  - simpl in Hr. by simplify_eq.
  - apply run_cons in Hr as (e & s1 & es' & Hs & Hr & ->).
    eapply IH; [|done]. by eapply step_inv.
Qed.

(** Membership of the next claim attempt of a worker in [pending]. *)
Lemma pending_worker (g : t) (s : state) (k : nat) (i ce v : Z) (rest loc : list Z) :
  workers s !! k = Some (ThreadPool.Running (CInner i ce (v :: rest) loc)) ->
  v ∈ pending g s.
Proof.
  intros Hk. unfold pending. rewrite !elem_of_app. right. right.
  apply list_elem_of_bind. eexists. split; [|by eapply list_elem_of_lookup_2].
  simpl. by left.
Qed.

(** No transition of a reachable state has undefined behaviour. *)
Lemma step_no_fault (g : t) (TC startVertex : Z) (s : state) (th : tid) :
  wf g -> 1 <= TC <= UINT_MAX ->
  inv g TC startVertex s -> step g TC s th <> Fault.
Proof.
  intros Hwf HTC [Hc Hg] H. destruct th as [|k]; simpl in H.
  - unfold step_driver in H. destruct (pc s) eqn:Hpc; repeat case_match; try done.
    + assert (1 <= size (currentLevel s)) as HL by (by apply is_empty_false).
      pose proof (c_bound _ _ Hc).
      destruct (level_chunkSize_value (size (currentLevel s)) TC ltac:(lia) HTC) as [Hz Hzr].
      destruct (level_wg_count_value (size (currentLevel s)) _ ltac:(lia) (proj1 Hzr)) as [Hm _].
      congruence.
    + assert (1 <= size (currentLevel s)) as HL by (by apply is_empty_false).
      pose proof (c_bound _ _ Hc).
      destruct (level_chunkSize_value (size (currentLevel s)) TC ltac:(lia) HTC) as [Hz Hzr].
      congruence.
  - unfold step_worker in H.
    destruct (ThreadPool.threads_ (pool s) !! k) as [w|] eqn:Hk; [|done].
    destruct w as [|r|]; [repeat case_match; done| |done].
    pose proof (c_pcs _ _ Hc) as Hpcs. rewrite Forall_forall in Hpcs.
    specialize (Hpcs _ (list_elem_of_lookup_2 _ _ _ Hk)).
    unfold step_task in H. destruct r as [i ce loc|i ce rest loc|loc|]; simpl in Hpcs.
    + destruct (i <? ce) eqn:Hlt; [|done]. apply Z.ltb_lt in Hlt.
      destruct (at_slice_defined (currentLevel s) i ltac:(lia)) as (u & Hu & Hin).
      rewrite Hu in H.
      apply (proj2 (g_level _ _ _ Hg)) in Hin.
      destruct (adjacency_defined g (visited s) u Hwf (g_len _ _ _ Hg) Hin) as [ns Hns].
      by rewrite Hns in H.
    + destruct rest as [|v rest]; [done|].
      pose proof (pending_worker g s k _ _ _ _ _ Hk) as Hv.
      apply (g_pending _ _ _ Hg) in Hv as (u & Hu & Huv).
      apply (edge_range g u v Hwf) in Huv.
      destruct (at_is_Some (visited s) v) as [b Hb].
      { rewrite (g_len _ _ _ Hg). lia. }
      rewrite Hb in H. by destruct b.
    + by destruct (negb (is_empty loc)).
    + done.
Qed.

(** At the return, the marked vertices are the reachable ones. *)
Lemma returned_marks_reachable (g : t) (TC startVertex : Z) (s : state) :
  inv g TC startVertex s -> returned s ->
  forall v, marked s v <-> reachable g startVertex v.
Proof.
  intros [Hc Hg] Hret v. unfold returned in Hret.
  destruct (c_quiet _ _ Hc) as [Hits Hidle]; [rewrite Hret; simpl; tauto|].
  pose proof (c_next _ _ Hc (or_intror Hret)) as Hnxt.
  assert (unexpanded s = []) as Hu.
  { unfold unexpanded, fresh. rewrite Hnxt, Hret. simpl.
    by rewrite (bind_idle worker_local _ eq_refl Hidle). }
  assert (pending g s = []) as Hp.
  { unfold pending. rewrite Hits, Hret. simpl.
    by rewrite (bind_idle (worker_pending g _) _ eq_refl Hidle). }
  split; [apply Hg|].
  apply reachable_closed; [apply Hg|]. intros a b Ha Hab.
  destruct (g_closed _ _ _ Hg a b Ha) as [Hb|Hb]; [|done|done|].
  - rewrite Hu. apply not_elem_of_nil.
  - rewrite Hp in Hb. by apply elem_of_nil in Hb.
Qed.

End InvariantFacts.

(** ** The parallel traversal: termination *)

Module TerminationFacts.
Import UnboundedBlockingQueue Graph GraphFacts SliceFacts ClaimFacts ChunkFacts InvariantFacts.

Lemma zsum_cons (x : Z) (l : list Z) : zsum (x :: l) = x + zsum l.
Proof. done. Qed.

Lemma zsum_app (l1 l2 : list Z) : zsum (l1 ++ l2) = zsum l1 + zsum l2.
Proof. induction l1 as [|x l1 IH]; simpl; [done|]. rewrite IH. lia. Qed.

Lemma zsum_nonneg (l : list Z) : Forall (fun x => 0 <= x) l -> 0 <= zsum l.
Proof. induction 1; simpl; lia. Qed.

Lemma zsum_idle (g : t) (l : list Z) (ws : list (ThreadPool.worker chunk_pc)) :
  Forall (fun w => w = ThreadPool.Idle) ws -> zsum (worker_work g l <$> ws) = 0.
Proof. induction 1 as [|w ws -> _ IH]; [done|]. by rewrite fmap_cons, zsum_cons, IH. Qed.

Lemma size_app (l1 l2 : list Z) : size (l1 ++ l2) = size l1 + size l2.
Proof. unfold size. rewrite length_app. lia. Qed.

Lemma size_nonneg (l : list Z) : 0 <= size l.
Proof. unfold size. lia. Qed.

Lemma driver_chunks_nonneg (p : driver_pc) (l : list Z) (c : Z) :
  1 <= c -> 0 <= driver_chunks p l c.
Proof.
  intros Hc. destruct p; simpl; try lia.
  destruct (chunkStart <? size l) eqn:Hlt; [|lia]. apply Z.ltb_lt in Hlt.
  assert (0 <= (size l - 1 - chunkStart) / c) by (apply Z.div_pos; lia). lia.
Qed.

Ltac unfold_work :=
  unfold level_work, frontier_budget, unexpanded, fresh,
    items, workers, set_worker, set_visited, set_nextLevel, set_wg, set_pc, set_pool,
    ThreadPool.Push in *; csimpl in *.

Lemma task_work_pair (g : t) (l : list Z) (cs ce : Z) :
  task_work g l (cs, ce) = 2 * (ce - cs) + size (targets g l cs ce) + 4.
Proof. done. Qed.

Lemma step_driver_work (g : t) (TC : Z) (s s' : state) (e : event) :
  1 <= TC <= UINT_MAX -> ctrl_inv TC s ->
  step_driver TC s = Next e s' ->
  (frontier_budget s' < frontier_budget s)%nat \/ level_work g s' < level_work g s.
Proof.
  intros HTC [Hq Hth Hne Hb Hts Hpcs Hwg Hcnt Hfor Hquiet Hnext] H.
  destruct s as [vis cur nxt c wg0 p [[qst its] ws]].
  step_cases H; simplify_eq; unfold_state; unfold_work; subst.
  - right. lia.
  - left. apply is_empty_false in H1. 
    destruct (Hquiet ltac:(tauto)) as [-> Hidle].
    rewrite (Hnext ltac:(tauto)) in *.
    rewrite (bind_idle worker_local ws eq_refl Hidle). simpl. unfold size in H1. lia.
  - right. apply Z.ltb_lt in H1. destruct (Hfor _ eq_refl) as [Hcs Hc].
    rewrite (wrap64_small (chunkStart + c)) in * by lia. unfold chunk_end.
    rewrite (wrap64_small (chunkStart + c)) in * by lia.
    rewrite fmap_app, zsum_app. csimpl. rewrite task_work_pair.
    rewrite (targets_split g cur chunkStart (Z.min (chunkStart + c) (size cur)) (size cur))
      by lia.
    rewrite (targets_after_chunk g cur chunkStart c) by lia. rewrite size_app.
    assert ((chunkStart <? size cur) = true) as -> by (apply Z.ltb_lt; lia).
    rewrite <- (chunks_step (size cur) c chunkStart) by lia.
    destruct (chunkStart + c <? size cur) eqn:Hlt;
      [apply Z.ltb_lt in Hlt|apply Z.ltb_ge in Hlt]; lia.
  - right. rewrite H1. apply Z.ltb_ge in H1. rewrite targets_nil by lia.
    change (size []) with 0. lia.
  - right. lia.
  - right. lia.
  - right. lia.
  - right. destruct (Hquiet ltac:(tauto)) as [-> Hidle].
    rewrite !(zsum_idle _ _ _ Hidle). simpl. lia.
Qed.

Lemma step_worker_work (g : t) (TC : Z) (s s' : state) (k : nat) (e : event) :
  ctrl_inv TC s ->
  step_worker g s k = Next e s' ->
  level_work g s' < level_work g s.
Proof.
  intros [Hq Hth Hne Hb Hts Hpcs Hwg Hcnt Hfor Hquiet Hnext] H.
  destruct s as [vis cur nxt c wg0 p [[qst its] ws]].
  unfold step_worker in H. unfold_state. subst qst.
  destruct (ws !! k) as [w|] eqn:Hk; [|done].
  destruct (workers_replace ws k w Hk) as (l1 & l2 & -> & Hins).
  rewrite Forall_app, Forall_cons in Hpcs. destruct Hpcs as (Hpc1 & Hpcw & Hpc2).
  destruct w as [|r|]; [| |done].
  - destruct its as [|[cs ce] its']; [done|]. simpl in H. simplify_eq. rewrite Hins.
    unfold_work. rewrite !fmap_app, !fmap_cons, !zsum_app, !zsum_cons. simpl.
    rewrite task_work_pair. lia.
  - unfold step_task in H. simpl in Hpcw.
    destruct r as [i ce loc|i ce rest loc|loc|]; unfold_state.
    + destruct (i <? ce) eqn:Hlt.
      * apply Z.ltb_lt in Hlt.
        destruct (at_ cur i) as [u|] eqn:Hu; [|done].
        destruct (at_ (matrix_ g) u) as [ns|] eqn:Hns; [|done].
        simplify_eq. rewrite Hins.
        unfold_work. rewrite !fmap_app, !fmap_cons, !zsum_app, !zsum_cons. simpl.
        rewrite (targets_cons g cur i ce u Hlt Hu), size_app. unfold nbrs. rewrite Hns. simpl.
        lia.
      * apply Z.ltb_ge in Hlt. simplify_eq. rewrite Hins.
        unfold_work. rewrite !fmap_app, !fmap_cons, !zsum_app, !zsum_cons. simpl.
        pose proof (size_nonneg (targets g cur i ce)). lia.
    + destruct rest as [|v rest].
      * simplify_eq. rewrite Hins. rewrite wrap64_small by lia.
        unfold_work. rewrite !fmap_app, !fmap_cons, !zsum_app, !zsum_cons. simpl.
        change (size []) with 0. lia.
      * destruct (at_ vis v) as [[|]|] eqn:Hv; [| |done]; simplify_eq; rewrite Hins;
          unfold_work; rewrite !fmap_app, !fmap_cons, !zsum_app, !zsum_cons; simpl;
          change (size (v :: rest)) with (size ([v] ++ rest)); rewrite size_app;
          change (size [v]) with 1; lia.
    + destruct (negb (is_empty loc)) eqn:Hloc; simplify_eq; rewrite Hins;
        unfold_work; rewrite !fmap_app, !fmap_cons, !zsum_app, !zsum_cons; simpl; lia.
    + simplify_eq. rewrite Hins.
      unfold_work. rewrite !fmap_app, !fmap_cons, !zsum_app, !zsum_cons. simpl. lia.
Qed.

Lemma effect_budget (g : t) (s s' : state) (e : event) :
  effect g s s' e -> (frontier_budget s' <= frontier_budget s)%nat.
Proof.
  unfold frontier_budget.
  intros [e' _ _ Hv Hc Hp Hu|k v Hx Hv Hc Hp Hu|k v Hx Hv Hc Hp Hu
          |Hv Hc Hp Hu Hu' Hp'|Hv Hc Hp' Hp Hu]; rewrite ?Hv, ?Hu; try done.
  - pose proof (BfsFacts.unmarked_store _ _ Hx). simpl. lia.
  - rewrite Hu'. simpl. lia.
Qed.

Lemma level_work_nonneg (g : t) (TC : Z) (s : state) :
  ctrl_inv TC s -> 0 <= level_work g s.
Proof.
  intros [Hq Hth Hne Hb Hts Hpcs Hwg Hcnt Hfor Hquiet Hnext]. unfold level_work.
  assert (0 <= driver_work g (pc s) (currentLevel s) (chunkSize s)) as Hd.
  { destruct (pc s) eqn:Hp; simpl; try lia.
    destruct (Hfor _ eq_refl) as [Hcs Hc].
    pose proof (driver_chunks_nonneg (DFor chunkStart) (currentLevel s) (chunkSize s) ltac:(lia)) as Hdc.
    simpl in Hdc. pose proof (size_nonneg (targets g (currentLevel s) chunkStart (size (currentLevel s)))).
    lia. }
  assert (0 <= zsum (task_work g (currentLevel s) <$> items s)) as Ht.
  { apply zsum_nonneg, Forall_fmap. eapply Forall_impl; [exact Hts|].
    intros [cs ce] [H1 H2]. simpl in *. unfold task_work. simpl.
    pose proof (size_nonneg (targets g (currentLevel s) cs ce)). lia. }
  assert (0 <= zsum (worker_work g (currentLevel s) <$> workers s)) as Hw.
  { apply zsum_nonneg, Forall_fmap. eapply Forall_impl; [exact Hpcs|].
    intros [|[i ce loc|i ce rest loc|loc|]|]; simpl; try lia.
    - pose proof (size_nonneg (targets g (currentLevel s) i ce)). lia.
    - pose proof (size_nonneg (targets g (currentLevel s) (i + 1) ce)).
      pose proof (size_nonneg rest). lia. }
  lia.
Qed.

Lemma busy_worker (ws : list (ThreadPool.worker chunk_pc)) :
  length (ws ≫= worker_busy) <> 0%nat ->
  exists k r, ws !! k = Some (ThreadPool.Running r).
Proof.
  induction ws as [|w ws IH]; [done|]. rewrite bind_cons, length_app.
  destruct w as [|r|]; simpl.
  - intros Hl. destruct (IH Hl) as (k & r & Hk). by exists (S k), r.
  - intros _. by exists O, r.
  - intros Hl. destruct (IH Hl) as (k & r & Hk). by exists (S k), r.
Qed.

Lemma step_task_moves (g : t) (s : state) (k : nat) (r : chunk_pc) :
  step_task g s k r <> Blocked.
Proof. unfold step_task. repeat case_match; done. Qed.

(** A state that is not at the return has a thread that can move. *)
Lemma progress (g : t) (TC startVertex : Z) (s : state) :
  wf g -> 1 <= TC <= UINT_MAX -> inv g TC startVertex s -> ~ returned s ->
  exists th e s', step g TC s th = Next e s'.
Proof.
  intros Hwf HTC Hinv Hnr. pose proof Hinv as [Hc Hg].
  destruct (step g TC s Driver) as [| |e s'] eqn:Hd.
  - simpl in Hd. unfold step_driver in Hd.
    destruct (pc s) eqn:Hpc; repeat case_match; try done.
    unfold WaitGroup.Wait_pred in *.
    assert (WaitGroup.count_ (wg s) <> 0) as Hcount by (by apply Z.eqb_neq).
    rewrite (c_count _ _ Hc) in Hcount by (by rewrite Hpc).
    unfold outstanding in Hcount. rewrite Hpc in Hcount. simpl in Hcount.
    destruct (decide (length (workers s ≫= worker_busy) = 0%nat)) as [Hidle|Hbusy].
    + rewrite Hidle in Hcount. apply all_idle in Hidle; [|apply Hc].
      destruct (items s) as [|[cs ce] its] eqn:Hits; [simpl in Hcount; lia|].
      destruct (workers s) as [|w ws] eqn:Hws.
      { pose proof (c_threads _ _ Hc) as Hl. rewrite Hws in Hl. simpl in Hl. lia. }
      apply Forall_cons in Hidle as [-> _].
      exists (Worker 0). simpl. unfold step_worker.
      unfold workers in Hws. unfold items in Hits. rewrite Hws. simpl.
      destruct (ThreadPool.tasks_ (pool s)) as [st its'] eqn:Hq.
      pose proof (c_queue _ _ Hc) as Hst. rewrite Hq in Hst. simpl in *. subst.
      simpl. eauto.
    + destruct (busy_worker _ Hbusy) as (k & r & Hk).
      exists (Worker k).
      destruct (step g TC s (Worker k)) as [| |e s'] eqn:Hw; [| |eauto].
      * simpl in Hw. unfold step_worker in Hw. unfold workers in Hk. rewrite Hk in Hw.
        by apply step_task_moves in Hw.
      * by apply (step_no_fault g TC startVertex s (Worker k)) in Hw.
  - by apply (step_no_fault g TC startVertex s Driver) in Hd.
  - eauto.
Qed.

Lemma step_decreases (g : t) (TC startVertex : Z) (s s' : state) (th : tid) (e : event) :
  wf g -> 1 <= TC <= UINT_MAX -> inv g TC startVertex s ->
  step g TC s th = Next e s' ->
  (frontier_budget s' < frontier_budget s)%nat
  \/ (frontier_budget s' = frontier_budget s
      /\ (Z.to_nat (level_work g s') < Z.to_nat (level_work g s))%nat).
Proof.
  intros Hwf HTC Hinv Hs.
  destruct (step_inv g TC startVertex s s' th e Hwf HTC Hinv Hs) as [[Hc' _] He].
  apply effect_budget in He. pose proof (level_work_nonneg g TC s' Hc') as Hnn.
  destruct Hinv as [Hc _].
  assert ((frontier_budget s' < frontier_budget s)%nat
          \/ level_work g s' < level_work g s) as [?|?]; [|lia|lia].
  destruct th as [|k]; simpl in Hs.
  - by eapply step_driver_work.
  - right. by eapply step_worker_work.
Qed.

Lemma lex_induction (P : nat -> nat -> Prop) :
  (forall a b, (forall a' b', (a' < a \/ (a' = a /\ b' < b))%nat -> P a' b') -> P a b) ->
  forall a b, P a b.
Proof.
  intros H a. induction (lt_wf a) as [a _ IHa].
  intros b. induction (lt_wf b) as [b _ IHb].
  apply H. intros a' b' [Ha|[-> Hb]]; [by apply IHa|by apply IHb].
Qed.

(** Every reachable state can be driven to the return, whatever the
    schedule was so far: the traversal terminates and cannot deadlock. *)
Lemma completes (g : t) (TC startVertex : Z) (s : state) :
  wf g -> 1 <= TC <= UINT_MAX -> inv g TC startVertex s ->
  exists sched es s', run g TC sched s = Some (es, s') /\ returned s'.
Proof.
  intros Hwf HTC.
  remember (frontier_budget s) as a eqn:Ha.
  remember (Z.to_nat (level_work g s)) as b eqn:Hb.
  revert s Ha Hb. pattern a, b. apply lex_induction. clear a b.
  intros a b IH s -> -> Hinv.
  assert (returned s \/ ~ returned s) as [Hr|Hr].
  { unfold returned. destruct (pc s); (by left) || (by right). }
  - by exists [], [], s.
  - destruct (progress g TC startVertex s Hwf HTC Hinv Hr) as (th & e & s1 & Hs).
    destruct (step_inv g TC startVertex s s1 th e Hwf HTC Hinv Hs) as [Hinv1 _].
    pose proof (step_decreases g TC startVertex s s1 th e Hwf HTC Hinv Hs) as Hdec.
    destruct (IH _ _ Hdec s1 eq_refl eq_refl Hinv1) as (sched & es & s' & Hrun & Hret).
    exists (th :: sched), (e :: es), s'. split; [|done].
    simpl. by rewrite Hs, Hrun.
Qed.

End TerminationFacts.

(** ** The parallel traversal against the sequential one *)

Module ParallelBfsFacts.
Import UnboundedBlockingQueue Graph GraphFacts SliceFacts ClaimFacts ChunkFacts InvariantFacts
  TerminationFacts.

Lemma flags_eq (v1 v2 : list bool) :
  length v1 = length v2 -> (forall v, markedv v1 v <-> markedv v2 v) -> v1 = v2.
Proof.
  intros Hl Hm. apply list_eq. intros i.
  assert (forall (l : list bool), at_ l (Z.of_nat i) = l !! i) as Hat.
  { intros l. unfold at_. assert ((Z.of_nat i <? 0) = false) as -> by (apply Z.ltb_ge; lia).
    by rewrite Nat2Z.id. }
  specialize (Hm (Z.of_nat i)). unfold markedv in Hm. rewrite !Hat in Hm.
  destruct (v1 !! i) as [b1|] eqn:H1, (v2 !! i) as [b2|] eqn:H2.
  - destruct b1, b2; try done; destruct Hm as [Hm1 Hm2];
      [by specialize (Hm1 eq_refl)|by specialize (Hm2 eq_refl)].
  - apply lookup_lt_Some in H1. apply lookup_ge_None in H2. lia.
  - apply lookup_lt_Some in H2. apply lookup_ge_None in H1. lia.
  - done.
Qed.

(** With [THREAD_COUNT = 0] and a valid start vertex the calling thread
    divides by zero at the first chunk size and there is no pool thread:
    the only execution is the empty one. *)
Lemma without_worker_stuck (g : t) (startVertex : Z) (sched : list tid)
    (es : list event) (s : state) :
  0 <= startVertex < vertexCount_ g ->
  run g 0 sched (parallelBFS g 0 startVertex) = Some (es, s) ->
  step g 0 (parallelBFS g 0 startVertex) Driver = Fault
  /\ sched = [] /\ s = parallelBFS g 0 startVertex /\ ~ returned s.
Proof.
  intros Hs Hr.
  assert (parallelBFS g 0 startVertex
          = mkState (store (replicate (Z.to_nat (vertexCount_ g)) false) startVertex true)
                    [startVertex] [] 0 (WaitGroup.make 0) DWhile (ThreadPool.make 0)) as Hinit.
  { unfold parallelBFS. by rewrite (proj2 (valid_start g startVertex) Hs). }
  assert (step g 0 (parallelBFS g 0 startVertex) Driver = Fault) as Hf by (by rewrite Hinit).
  split; [done|]. destruct sched as [|th sched].
  - simpl in Hr. simplify_eq. split; [done|]. split; [done|]. by rewrite Hinit.
  - apply run_cons in Hr as (e & s1 & es' & Hstep & _). destruct th as [|k].
    + by rewrite Hf in Hstep.
    + rewrite Hinit in Hstep. done.
Qed.

(** C1, as stated, fails: nothing keeps [THREAD_COUNT] from being 0 (it is
    [hardware_concurrency()] when [TP_SIZE] gives no positive number), and
    then, on the graph of the scenarios from vertex 0, [bfs] marks the
    vertices 0 to 4 while [parallelBFS] has undefined behaviour at its
    first transition, never returns and never marks vertex 1. *)
Lemma parallelBFS_without_worker_never_returns :
  bfs scenario_graph 0 = Some [true; true; true; true; true; false]
  /\ THREAD_COUNT None (fun _ => 0) 0 = 0
  /\ step scenario_graph 0 (parallelBFS scenario_graph 0 0) Driver = Fault
  /\ forall sched es s,
       run scenario_graph 0 sched (parallelBFS scenario_graph 0 0) = Some (es, s) ->
       ~ returned s /\ ~ marked s 1.
Proof.
  split; [by vm_compute|]. split; [done|]. split; [by vm_compute|].
  intros sched es s Hr.
  destruct (without_worker_stuck scenario_graph 0 sched es s ltac:(simpl; lia) Hr)
    as (_ & _ & -> & Hret).
  split; [done|]. by vm_compute.
Qed.

(** C1 (amended): for a well-formed graph, a valid start vertex and at
    least one worker, [bfs] returns some flags; [parallelBFS] has an execution that
    reaches its return; no execution has undefined behaviour or gets
    stuck before the return; and at the return of any execution, under
    any schedule, the flags are those of [bfs]: the same vertices are
    marked, namely the vertices reachable from the start vertex. *)
Theorem parallelBFS_marks_what_bfs_marks (g : t) (TC startVertex : Z) :
  wf g -> 0 <= startVertex < vertexCount_ g -> 1 <= TC <= UINT_MAX ->
  exists vis,
    bfs g startVertex = Some vis
    /\ (exists sched es s,
          run g TC sched (parallelBFS g TC startVertex) = Some (es, s) /\ returned s)
    /\ forall sched es s,
         run g TC sched (parallelBFS g TC startVertex) = Some (es, s) ->
         (forall th, step g TC s th <> Fault)
         /\ (exists sched' es' s', run g TC sched' s = Some (es', s') /\ returned s')
         /\ (forall v, marked s v -> markedv vis v)
         /\ (returned s ->
             (forall v, marked s v <-> markedv vis v)
             /\ (forall v, marked s v <-> reachable g startVertex v)
             /\ visited s = vis).
Proof.
  intros Hwf Hs HTC.
  destruct (BfsFacts.bfs_reachable g startVertex Hwf Hs) as (vis & Hbfs & Hlen & Hvis).
  pose proof (init_inv g TC startVertex Hwf Hs) as Hinit.
  exists vis. split; [done|]. split; [by eapply completes|].
  intros sched es s Hrun.
  pose proof (run_inv g TC startVertex sched Hwf HTC _ _ _ Hinit Hrun) as Hinv.
  split; [intros th; by eapply step_no_fault|].
  split; [by eapply completes|].
  split; [intros v Hv; apply Hvis; by apply Hinv|].
  intros Hret.
  pose proof (returned_marks_reachable g TC startVertex s Hinv Hret) as Hm.
  assert (forall v, marked s v <-> markedv vis v) as Heq.
  { intros v. by rewrite Hm, Hvis. }
  split; [done|]. split; [done|].
  apply flags_eq; [|done]. destruct Hinv as [_ Hg]. rewrite (g_len _ _ _ Hg). done.
Qed.

Lemma scenario_graph_wf : wf scenario_graph.
Proof. unfold scenario_graph. repeat apply wf_addEdge. by apply wf_make. Qed.

Lemma parallelBFS_marks_what_bfs_marks_witness :
  exists vis,
    bfs scenario_graph 0 = Some vis
    /\ (exists sched es s,
          run scenario_graph 3 sched (parallelBFS scenario_graph 3 0) = Some (es, s)
          /\ returned s)
    /\ forall sched es s,
         run scenario_graph 3 sched (parallelBFS scenario_graph 3 0) = Some (es, s) ->
         returned s -> visited s = vis.
Proof.
  destruct (parallelBFS_marks_what_bfs_marks scenario_graph 3 0) as (vis & Hb & Hex & Hall).
  - exact scenario_graph_wf.
  - simpl. lia.
  - unfold UINT_MAX. lia.
  - exists vis. split; [exact Hb|]. split; [exact Hex|].
    intros sched es s Hrun Hret. by apply (Hall sched es s Hrun).
Defined.

(** The scenarios of the specification, run under the eager schedule. *)
Example scenario_from_0 :
  bfs scenario_graph 0 = Some [true; true; true; true; true; false]
  /\ (exec scenario_graph 3 (scenario_schedule 3 0) (parallelBFS scenario_graph 3 0)).2.(visited)
     = [true; true; true; true; true; false]
  /\ (exec scenario_graph 3 (scenario_schedule 3 0) (parallelBFS scenario_graph 3 0)).2.(pc)
     = DReturn.
Proof. vm_compute. done. Qed.

Example scenario_from_5 :
  bfs scenario_graph 5 = Some [false; false; false; false; false; true]
  /\ (exec scenario_graph 3 (scenario_schedule 3 5) (parallelBFS scenario_graph 3 5)).2.(visited)
     = [false; false; false; false; false; true]
  /\ (exec scenario_graph 3 (scenario_schedule 3 5) (parallelBFS scenario_graph 3 5)).2.(pc)
     = DReturn.
Proof. vm_compute. done. Qed.

Example scenario_single_worker :
  (exec scenario_graph 1 (scenario_schedule 1 0) (parallelBFS scenario_graph 1 0)).2.(visited)
  = (exec scenario_graph 3 (scenario_schedule 3 0) (parallelBFS scenario_graph 3 0)).2.(visited).
Proof. vm_compute. done. Qed.

(** Without a worker the chunk size is a division by zero. *)
Example no_worker_faults :
  step scenario_graph 0 (parallelBFS scenario_graph 0 0) Driver = Fault.
Proof. vm_compute. done. Qed.


End ParallelBfsFacts.

(** ** Building a graph: [Graph::Graph], [Graph::addEdge] *)

Module GraphBuildFacts.
Import Graph GraphFacts.

Lemma addEdge_reject (src dest : Z) (g : t) :
  ~ (0 <= src < vertexCount_ g /\ 0 <= dest < vertexCount_ g) -> addEdge src dest g = g.
Proof.
  intros Hr. unfold addEdge.
  destruct ((src <? 0) || (dest <? 0) || (src >=? vertexCount_ g) || (dest >=? vertexCount_ g)) eqn:Hc;
    [done|].
  exfalso. apply Hr. rewrite !orb_false_iff, !Z.ltb_ge, !Z.geb_leb, !Z.leb_gt in Hc. lia.
Qed.

Lemma addEdge_accept (src dest : Z) (g : t) :
  0 <= src < vertexCount_ g -> 0 <= dest < vertexCount_ g ->
  addEdge src dest g
  = {| vertexCount_ := vertexCount_ g;
       matrix_ := alter (fun vec => if decide (dest ∈ vec) then vec else vec ++ [dest])
                        (Z.to_nat src) (matrix_ g) |}.
Proof.
  intros Hs Hd. unfold addEdge.
  destruct ((src <? 0) || (dest <? 0) || (src >=? vertexCount_ g) || (dest >=? vertexCount_ g)) eqn:Hc;
    [|done].
  rewrite !orb_true_iff, !Z.ltb_lt, !Z.geb_leb, !Z.leb_le in Hc. lia.
Qed.

Lemma in_range_dec (src dest n : Z) :
  (0 <= src < n /\ 0 <= dest < n) \/ ~ (0 <= src < n /\ 0 <= dest < n).
Proof. lia. Qed.

Lemma addEdge_vertexCount (src dest : Z) (g : t) :
  vertexCount_ (addEdge src dest g) = vertexCount_ g.
Proof.
  destruct (in_range_dec src dest (vertexCount_ g)) as [[Hs Hd]|Hr].
  - by rewrite addEdge_accept.
  - by rewrite addEdge_reject.
Qed.

(** The row of [src] after an accepted [addEdge]. *)
Lemma addEdge_row (src dest : Z) (g : t) (old : list Z) :
  0 <= src < vertexCount_ g -> 0 <= dest < vertexCount_ g ->
  at_ (matrix_ g) src = Some old ->
  at_ (matrix_ (addEdge src dest g)) src
  = Some (if decide (dest ∈ old) then old else old ++ [dest]).
Proof.
  intros Hs Hd [_ Hold]%at_Some. rewrite addEdge_accept by done. simpl.
  apply at_Some. split; [lia|]. by rewrite list_lookup_alter_eq, Hold.
Qed.

Lemma addEdge_other_row (src dest u : Z) (g : t) :
  u <> src -> at_ (matrix_ (addEdge src dest g)) u = at_ (matrix_ g) u.
Proof.
  intros Hne. destruct (in_range_dec src dest (vertexCount_ g)) as [[Hs Hd]|Hr].
  - rewrite addEdge_accept by done. simpl. unfold at_.
    destruct (u <? 0) eqn:Hu; [done|]. apply Z.ltb_ge in Hu.
    apply list_lookup_alter_ne. lia.
  - by rewrite addEdge_reject.
Qed.

Lemma addEdge_edge_iff (src dest u v : Z) (g : t) :
  wf g ->
  edge (addEdge src dest g) u v
  <-> edge g u v
      \/ (u = src /\ v = dest /\ 0 <= src < vertexCount_ g /\ 0 <= dest < vertexCount_ g).
Proof.
  intros (Hn & Hlen & Hadj).
  destruct (in_range_dec src dest (vertexCount_ g)) as [[Hs Hd]|Hr].
  - destruct (decide (u = src)) as [->|Hne].
    + destruct (at_is_Some (matrix_ g) src) as [old Hold]; [lia|].
      unfold edge. rewrite (addEdge_row src dest g old Hs Hd Hold), Hold. split.
      * intros (ns & [= <-] & Hv). destruct (decide (dest ∈ old)); [left; eauto|].
        apply elem_of_app in Hv as [Hv|Hv%list_elem_of_singleton]; [left; eauto|right; done].
      * intros [(ns & [= <-] & Hv)|(_ & -> & _)]; eexists; (split; [done|]).
        -- destruct (decide (dest ∈ old)); [done|]. apply elem_of_app. by left.
        -- destruct (decide (dest ∈ old)); [done|]. apply elem_of_app. right. by left.
    + unfold edge. rewrite (addEdge_other_row src dest u g Hne). split; [by left|].
      intros [?|(? & _)]; done.
  - rewrite addEdge_reject by done. split; [by left|]. intros [?|(_ & _ & ? & ?)]; [done|].
    exfalso. by apply Hr.
Qed.

(** X1: [addEdge] keeps a graph well formed; the edges after it are the
    old ones and, when both ends are in range, the new one; out of range
    nothing is added. *)
Theorem addEdge_edges (src dest : Z) (g : t) :
  wf g ->
  wf (addEdge src dest g)
  /\ forall u v,
       edge (addEdge src dest g) u v
       <-> edge g u v
           \/ (u = src /\ v = dest
               /\ 0 <= src < vertexCount_ g /\ 0 <= dest < vertexCount_ g).
Proof.
  intros Hwf. split.
  - by apply wf_addEdge.
  - intros u v. by apply addEdge_edge_iff.
Qed.

Lemma addEdge_edges_witness :
  edge (addEdge 0 1 (make 3)) 0 1 /\ ~ edge (addEdge 0 7 (make 3)) 0 7.
Proof.
  split.
  - apply (proj2 (addEdge_edges 0 1 (make 3) (wf_make 3 ltac:(unfold INT_MAX; lia)))).
    right. simpl. lia.
  - intros He.
    apply (proj2 (addEdge_edges 0 7 (make 3) (wf_make 3 ltac:(unfold INT_MAX; lia)))) in He.
    destruct He as [(ns & Hns & Hin)|(_ & _ & _ & Hd)].
    + vm_compute in Hns. injection Hns as <-. by apply elem_of_nil in Hin.
    + simpl in Hd. lia.
Defined.

Lemma simple_make (vertices : Z) : simple (make vertices).
Proof.
  intros u vec Hu. simpl in Hu. apply lookup_replicate in Hu as [-> _]. constructor.
Qed.

Lemma simple_addEdge (src dest : Z) (g : t) : simple g -> simple (addEdge src dest g).
Proof.
  intros Hg. destruct (in_range_dec src dest (vertexCount_ g)) as [[Hs Hd]|Hr].
  - rewrite addEdge_accept by done. intros u vec. simpl.
    destruct (decide (Z.to_nat src = u)) as [<-|Hne].
    + rewrite list_lookup_alter_eq.
      destruct (matrix_ g !! Z.to_nat src) as [old|] eqn:Hold; [|done].
      simpl. intros [= <-]. specialize (Hg _ _ Hold).
      destruct (decide (dest ∈ old)); [done|].
      apply NoDup_app. split_and!; [done| |apply NoDup_singleton].
      intros x Hx ->%list_elem_of_singleton. done.
    + rewrite list_lookup_alter_ne by done. apply Hg.
  - by rewrite addEdge_reject.
Qed.

Lemma simple_build (vertices : Z) (edges : list (Z * Z)) : simple (build vertices edges).
Proof.
  unfold build. generalize (simple_make vertices). generalize (make vertices).
  induction edges as [|[a b] edges IH]; intros g Hg; [done|].
  simpl. apply IH. by apply simple_addEdge.
Qed.

(** X4: no adjacency list of a graph built by the constructor and
    [addEdge] holds a vertex twice. *)
Theorem build_no_duplicate_neighbour (vertices u : Z) (edges : list (Z * Z)) (vec : list Z) :
  at_ (matrix_ (build vertices edges)) u = Some vec -> NoDup vec.
Proof. intros [_ Hu]%at_Some. by eapply simple_build. Qed.

Lemma build_no_duplicate_neighbour_witness :
  at_ (matrix_ (build 3 [(0, 1); (0, 2); (0, 1); (0, 2); (0, 1)])) 0 = Some [1; 2]
  /\ NoDup [1; 2].
Proof.
  assert (at_ (matrix_ (build 3 [(0, 1); (0, 2); (0, 1); (0, 2); (0, 1)])) 0 = Some [1; 2])
    as Hrow by (vm_compute; reflexivity).
  split; [exact Hrow|].
  exact (build_no_duplicate_neighbour 3 0 [(0, 1); (0, 2); (0, 1); (0, 2); (0, 1)] [1; 2] Hrow).
Defined.

Lemma alter_fixed {A : Type} (f : A -> A) (l : list A) (i : nat) :
  (forall x, l !! i = Some x -> f x = x) -> alter f i l = l.
Proof.
  intros Hf. apply list_eq. intros j. destruct (decide (i = j)) as [<-|Hne].
  - rewrite list_lookup_alter_eq. destruct (l !! i) as [x|] eqn:Hx; [|done].
    simpl. by rewrite Hf.
  - by apply list_lookup_alter_ne.
Qed.

Lemma addEdge_present (src dest : Z) (g : t) : edge g src dest -> addEdge src dest g = g.
Proof.
  intros (ns & [H0 Hns]%at_Some & Hin).
  destruct (in_range_dec src dest (vertexCount_ g)) as [[Hs Hd]|Hr].
  - rewrite addEdge_accept by done. destruct g as [n m]. simpl in *. f_equal.
    apply alter_fixed. intros x Hx. rewrite Hns in Hx. injection Hx as <-.
    by destruct (decide (dest ∈ ns)).
  - by apply addEdge_reject.
Qed.

(** X3: adding an edge a second time changes nothing, and [addEdge] never
    changes the number of vertices or of rows. *)
Theorem addEdge_idempotent (src dest : Z) (g : t) :
  addEdge src dest (addEdge src dest g) = addEdge src dest g
  /\ vertexCount_ (addEdge src dest g) = vertexCount_ g
  /\ length (matrix_ (addEdge src dest g)) = length (matrix_ g).
Proof.
  split; [|split; [apply addEdge_vertexCount|]].
  - destruct (in_range_dec src dest (vertexCount_ g)) as [[Hs Hd]|Hr].
    + destruct (matrix_ g !! Z.to_nat src) as [old|] eqn:Hold.
      * apply addEdge_present. exists (if decide (dest ∈ old) then old else old ++ [dest]).
        split; [apply addEdge_row; try done; apply at_Some; split; [lia|done]|].
        destruct (decide (dest ∈ old)); [done|]. apply elem_of_app. right. by left.
      * rewrite (addEdge_accept src dest g) by done.
        assert (alter (fun vec => if decide (dest ∈ vec) then vec else vec ++ [dest])
                  (Z.to_nat src) (matrix_ g) = matrix_ g) as Hsame.
        { apply alter_fixed. intros x Hx. congruence. }
        rewrite Hsame. rewrite addEdge_accept by done. simpl. by rewrite Hsame.
    + by rewrite !(addEdge_reject src dest g Hr).
  - destruct (in_range_dec src dest (vertexCount_ g)) as [[Hs Hd]|Hr].
    + rewrite addEdge_accept by done. simpl. apply length_alter.
    + by rewrite addEdge_reject.
Qed.

(** X2: a new edge goes to the end of the adjacency list of its source;
    the neighbours already there keep their order and the other lists are
    untouched. *)
Theorem addEdge_appends (src dest : Z) (g : t) :
  wf g -> 0 <= src < vertexCount_ g -> 0 <= dest < vertexCount_ g ->
  ~ edge g src dest ->
  nbrs (addEdge src dest g) src = nbrs g src ++ [dest]
  /\ forall u, u <> src -> nbrs (addEdge src dest g) u = nbrs g u.
Proof.
  intros (Hn & Hlen & _) Hs Hd Hne. split.
  - destruct (at_is_Some (matrix_ g) src) as [old Hold]; [lia|].
    unfold nbrs. rewrite (addEdge_row src dest g old Hs Hd Hold), Hold. simpl.
    destruct (decide (dest ∈ old)) as [Hin|]; [|done].
    exfalso. apply Hne. by exists old.
  - intros u Hu. unfold nbrs. by rewrite addEdge_other_row.
Qed.

Lemma addEdge_appends_witness :
  nbrs (addEdge 0 1 (addEdge 0 2 (make 3))) 0 = nbrs (addEdge 0 2 (make 3)) 0 ++ [1].
Proof.
  apply (addEdge_appends 0 1 (addEdge 0 2 (make 3))).
  - apply wf_addEdge. by apply wf_make.
  - simpl. lia.
  - simpl. lia.
  - intros (ns & Hns & Hin). vm_compute in Hns. injection Hns as <-.
    apply list_elem_of_singleton in Hin. discriminate.
Defined.

Lemma foldl_addEdge_edges (edges : list (Z * Z)) : forall (g : t) (u v : Z),
  wf g ->
  edge (foldl (fun g e => addEdge (fst e) (snd e) g) g edges) u v
  <-> edge g u v
      \/ ((u, v) ∈ edges /\ 0 <= u < vertexCount_ g /\ 0 <= v < vertexCount_ g).
Proof.
  induction edges as [|[a b] edges IH]; intros g u v Hwf; simpl.
  - split; [by left|]. intros [?|[Hin _]]; [done|]. by apply elem_of_nil in Hin.
  - rewrite IH by (by apply wf_addEdge). rewrite addEdge_vertexCount.
    rewrite (addEdge_edge_iff a b u v g Hwf), elem_of_cons. split.
    + intros [[?|(-> & -> & ? & ?)]|(? & ? & ?)]; [by left|right|right]; split_and!; auto; lia.
    + intros [?|([[= -> ->]|?] & ? & ?)]; [by left; left|left; right; done|right; done].
Qed.

(** X5: the edges of a graph built from a list of [addEdge] calls are the
    listed pairs whose two ends are in range. *)
Theorem build_edges (vertices u v : Z) (edges : list (Z * Z)) :
  0 <= vertices <= INT_MAX ->
  edge (build vertices edges) u v
  <-> (u, v) ∈ edges /\ 0 <= u < vertices /\ 0 <= v < vertices.
Proof.
  intros Hn. unfold build. rewrite foldl_addEdge_edges by (by apply wf_make). simpl.
  split; [|by right]. intros [(ns & Hns & Hin)|?]; [|done].
  apply at_Some in Hns as [_ Hns]. simpl in Hns.
  apply lookup_replicate in Hns as [-> _]. by apply elem_of_nil in Hin.
Qed.

Lemma build_edges_witness :
  edge (build 3 [(0, 1); (5, 1); (1, 2)]) 1 2 /\ ~ edge (build 3 [(0, 1); (5, 1); (1, 2)]) 5 1.
Proof.
  split.
  - apply (build_edges 3 1 2 [(0, 1); (5, 1); (1, 2)]); [unfold INT_MAX; lia|].
    split; [|lia]. apply elem_of_cons. right. apply elem_of_cons. right. by left.
  - intros He. apply (build_edges 3 5 1 [(0, 1); (5, 1); (1, 2)]) in He; [lia|].
    unfold INT_MAX. lia.
Defined.

End GraphBuildFacts.

(** ** [Graph::bfs] and reachability *)

Module BfsExtraFacts.
Import Graph GraphFacts BfsFacts ParallelBfsFacts.

Lemma bfs_while_enough (g : t) (startVertex : Z) : wf g ->
  forall (fuel : nat) (vis : list bool) (q : list Z),
    bfs_inv g startVertex vis q ->
    (unmarked vis + length q <= fuel)%nat ->
    exists vis', bfs_while fuel g vis q = Some vis' /\ bfs_inv g startVertex vis' [].
Proof.
  intros Hwf. induction fuel as [|fuel IH]; intros vis q Hinv Hfuel.
  - destruct q as [|u q]; [by exists vis|]. simpl in Hfuel. lia.
  - destruct q as [|u q]; [by exists vis|].
    destruct (bfs_inv_step g startVertex vis u q Hwf Hinv)
      as (ns & vis' & q' & Hns & Hf & Hinv' & Hc).
    simpl. rewrite Hns, Hf. apply IH; [done|]. simpl in Hfuel. lia.
Qed.

(** X6: [bfs] leaves its loop within [vertexCount_] iterations (a fuel of
    [vertexCount_], one unit per iteration, is enough, and any larger
    fuel gives the same result) and marks exactly the vertices reachable
    from the start vertex. *)
Theorem bfs_marks_the_reachable (g : t) (startVertex : Z) :
  wf g -> 0 <= startVertex < vertexCount_ g ->
  exists vis,
    bfs g startVertex = Some vis
    /\ length vis = Z.to_nat (vertexCount_ g)
    /\ (forall v, markedv vis v <-> reachable g startVertex v)
    /\ markedv vis startVertex
    /\ forall fuel, (Z.to_nat (vertexCount_ g) <= fuel)%nat ->
         bfs_while fuel g
           (store (replicate (Z.to_nat (vertexCount_ g)) false) startVertex true)
           [startVertex] = Some vis.
Proof.
  intros Hwf Hs.
  destruct (bfs_reachable g startVertex Hwf Hs) as (vis & Hb & Hlen & Hvis).
  exists vis. split_and!; try done.
  - apply Hvis. constructor.
  - intros fuel Hfuel.
    destruct (bfs_while_enough g startVertex Hwf fuel
                (store (replicate (Z.to_nat (vertexCount_ g)) false) startVertex true)
                [startVertex]) as (vis' & Hb' & [Hlen' Hst' Hre' _ Hcl']).
    + by apply bfs_inv_init.
    + assert (at_ (replicate (Z.to_nat (vertexCount_ g)) false) startVertex = Some false) as H0.
      { apply at_Some. split; [lia|]. apply lookup_replicate_2. lia. }
      pose proof (unmarked_store _ _ H0) as Hu. rewrite unmarked_replicate in Hu.
      simpl. lia.
    + rewrite Hb'. f_equal. apply flags_eq; [congruence|]. intros v. rewrite Hvis.
      split; [apply Hre'|]. apply reachable_closed; [done|].
      intros a b Ha Hab. apply (Hcl' a b Ha); [|done]. apply not_elem_of_nil.
Qed.

Lemma bfs_marks_the_reachable_witness :
  exists vis,
    bfs scenario_graph 0 = Some vis /\ markedv vis 0
    /\ bfs_while 6 scenario_graph [true; false; false; false; false; false] [0] = Some vis.
Proof.
  destruct (bfs_marks_the_reachable scenario_graph 0) as (vis & H1 & _ & _ & H2 & H3).
  - exact scenario_graph_wf.
  - simpl. lia.
  - exists vis. split; [exact H1|]. split; [exact H2|]. apply (H3 6%nat). simpl. lia.
Defined.

End BfsExtraFacts.

(** ** Executions of [Graph::parallelBFS] *)

Module TraversalFacts.
Import UnboundedBlockingQueue Graph GraphFacts SliceFacts ClaimFacts ChunkFacts InvariantFacts
  TerminationFacts ParallelBfsFacts.

Lemma run_marks (g : t) (TC : Z) (sched : list tid) : forall (s s' : state) (es : list event),
  run g TC sched s = Some (es, s') ->
  forall v, marked s' v <-> marked s v \/ v ∈ claims es.
Proof.
  induction sched as [|th sched IH]; intros s s' es Hr v.
  - simpl in Hr. simplify_eq. simpl. rewrite elem_of_nil. tauto.
  - apply run_cons in Hr as (e & s1 & es' & Hs & Hr & ->).
    rewrite (IH _ _ _ Hr), claims_cons, elem_of_app.
    destruct (step_flags _ _ _ _ _ _ Hs) as [[Hv He]|(k & x & -> & Hx & Hv)].
    + rewrite He, elem_of_nil. unfold marked. rewrite Hv. tauto.
    + unfold marked. rewrite Hv. change (at_ ?l v = Some true) with (markedv l v).
      rewrite (markedv_store _ _ _ _ Hx). simpl. rewrite list_elem_of_singleton. tauto.
Qed.

Lemma init_marks (g : t) (TC startVertex : Z) :
  0 <= startVertex < vertexCount_ g ->
  forall v, marked (parallelBFS g TC startVertex) v <-> v = startVertex.
Proof.
  intros Hs v. unfold parallelBFS, marked. rewrite (proj2 (valid_start g startVertex) Hs). simpl.
  assert (at_ (replicate (Z.to_nat (vertexCount_ g)) false) startVertex = Some false) as H0.
  { apply at_Some. split; [lia|]. apply lookup_replicate_2. lia. }
  change (at_ ?l v = Some true) with (markedv l v).
  rewrite (markedv_store _ _ _ _ H0). split; [|by right].
  intros [Hv|Hv]; [|done].
  apply at_Some in Hv as [_ Hv]. by apply lookup_replicate in Hv as [? _].
Qed.

(** X7: at the return, the vertices claimed by a compare-and-swap are
    exactly the reachable vertices other than the start vertex, each
    claimed once. *)
Theorem claims_are_the_reachable (g : t) (TC startVertex : Z) (sched : list tid)
    (es : list event) (s : state) :
  wf g -> 0 <= startVertex < vertexCount_ g -> 1 <= TC <= UINT_MAX ->
  run g TC sched (parallelBFS g TC startVertex) = Some (es, s) -> returned s ->
  NoDup (claims es)
  /\ forall v, v ∈ claims es <-> reachable g startVertex v /\ v <> startVertex.
Proof.
  intros Hwf Hs HTC Hrun Hret.
  pose proof (run_inv g TC startVertex sched Hwf HTC _ _ _ (init_inv g TC startVertex Hwf Hs) Hrun)
    as Hinv.
  pose proof (returned_marks_reachable g TC startVertex s Hinv Hret) as Hm.
  destruct (run_claims g TC sched _ _ _ Hrun) as [Hnd Hcl].
  split; [done|]. intros v. rewrite <- Hm, (run_marks g TC sched _ _ _ Hrun v).
  rewrite (init_marks g TC startVertex Hs). split.
  - intros Hin. split; [by right|]. intros ->. destruct (Hcl _ Hin) as [Hn _].
    apply Hn. by apply init_marks.
  - intros [[?|?] ?]; done.
Qed.

Lemma claims_are_the_reachable_witness :
  NoDup (claims (exec scenario_graph 3 (scenario_schedule 3 0) (parallelBFS scenario_graph 3 0)).1)
  /\ forall v, v ∈ claims (exec scenario_graph 3 (scenario_schedule 3 0) (parallelBFS scenario_graph 3 0)).1 <-> reachable scenario_graph 0 v /\ v <> 0.
Proof.
  apply (claims_are_the_reachable scenario_graph 3 0 (scenario_schedule 3 0)
           (exec scenario_graph 3 (scenario_schedule 3 0) (parallelBFS scenario_graph 3 0)).1 (exec scenario_graph 3 (scenario_schedule 3 0) (parallelBFS scenario_graph 3 0)).2).
  - exact scenario_graph_wf.
  - simpl. lia.
  - unfold UINT_MAX. lia.
  - vm_compute. reflexivity.
  - vm_compute. reflexivity.
Defined.

Lemma step_return_empty (g : t) (TC : Z) (s s' : state) (th : tid) (e : event) :
  (pc s = DReturn -> currentLevel s = []) ->
  step g TC s th = Next e s' -> pc s' = DReturn -> currentLevel s' = [].
Proof.
  intros Hinv H. step_cases H; auto; try done.
  intros _. by destruct (currentLevel s).
Qed.

Lemma run_return_empty (g : t) (TC : Z) (sched : list tid) :
  forall (s s' : state) (es : list event),
    (pc s = DReturn -> currentLevel s = []) ->
    run g TC sched s = Some (es, s') -> pc s' = DReturn -> currentLevel s' = [].
Proof.
  induction sched as [|th sched IH]; intros s s' es Hi Hr.
  - simpl in Hr. by simplify_eq.
  - apply run_cons in Hr as (e & s1 & es' & Hs & Hr & ->).
    eapply IH; [|done]. by eapply step_return_empty.
Qed.

Lemma all_idle_replicate (ws : list (ThreadPool.worker chunk_pc)) :
  Forall (fun w => w = ThreadPool.Idle) ws -> ws = replicate (length ws) ThreadPool.Idle.
Proof. induction 1 as [|w ws -> _ IH]; [done|]. simpl. by rewrite <- IH. Qed.

(** X11: outside a level (at the head of the [while] loop, after [Wait],
    at the return) no chunk task is queued or running; at the return the
    pool is as the constructor left it and both frontiers are empty. *)
Theorem no_task_outlives_its_level (g : t) (TC startVertex : Z) (sched : list tid)
    (es : list event) (s : state) :
  wf g -> 0 <= startVertex < vertexCount_ g -> 1 <= TC <= UINT_MAX ->
  run g TC sched (parallelBFS g TC startVertex) = Some (es, s) ->
  (~ in_level (pc s) ->
   items s = [] /\ Forall (fun w => w = ThreadPool.Idle) (workers s))
  /\ (returned s ->
      pool s = ThreadPool.make TC /\ currentLevel s = [] /\ nextLevel s = []).
Proof.
  intros Hwf Hs HTC Hrun.
  pose proof (run_inv g TC startVertex sched Hwf HTC _ _ _ (init_inv g TC startVertex Hwf Hs) Hrun)
    as [Hc Hg].
  split; [apply Hc|]. intros Hret. unfold returned in Hret.
  destruct (c_quiet _ _ Hc) as [Hits Hidle]; [rewrite Hret; simpl; tauto|].
  split_and!.
  - pose proof (c_queue _ _ Hc) as Hq. pose proof (c_threads _ _ Hc) as Hth.
    unfold items, workers in *. destruct (pool s) as [[st its] ws]. simpl in *. subst.
    unfold ThreadPool.make, UnboundedBlockingQueue.make. f_equal.
    rewrite <- Hth. by apply all_idle_replicate.
  - eapply (run_return_empty g TC sched); [|done|done].
    unfold parallelBFS. rewrite (proj2 (valid_start g startVertex) Hs). done.
  - apply Hc. by right.
Qed.

Lemma no_task_outlives_its_level_witness :
  items (exec scenario_graph 3 (take 13 (scenario_schedule 3 0)) (parallelBFS scenario_graph 3 0)).2 = []
  /\ pool (exec scenario_graph 3 (scenario_schedule 3 0) (parallelBFS scenario_graph 3 0)).2 = ThreadPool.make 3.
Proof.
  split.
  - apply (no_task_outlives_its_level scenario_graph 3 0 (take 13 (scenario_schedule 3 0))
             (exec scenario_graph 3 (take 13 (scenario_schedule 3 0)) (parallelBFS scenario_graph 3 0)).1 (exec scenario_graph 3 (take 13 (scenario_schedule 3 0)) (parallelBFS scenario_graph 3 0)).2).
    + exact scenario_graph_wf.
    + simpl. lia.
    + unfold UINT_MAX. lia.
    + vm_compute. reflexivity.
    + vm_compute. tauto.
  - apply (no_task_outlives_its_level scenario_graph 3 0 (scenario_schedule 3 0)
             (exec scenario_graph 3 (scenario_schedule 3 0) (parallelBFS scenario_graph 3 0)).1 (exec scenario_graph 3 (scenario_schedule 3 0) (parallelBFS scenario_graph 3 0)).2).
    + exact scenario_graph_wf.
    + simpl. lia.
    + unfold UINT_MAX. lia.
    + vm_compute. reflexivity.
    + vm_compute. reflexivity.
Defined.

Lemma busy_length (ws : list (ThreadPool.worker chunk_pc)) (k : nat) (r : chunk_pc) :
  ws !! k = Some (ThreadPool.Running r) -> (1 <= length (ws ≫= worker_busy))%nat.
Proof.
  intros Hk. destruct (workers_replace ws k _ Hk) as (l1 & l2 & -> & _).
  rewrite bind_app, bind_cons, !length_app. simpl. lia.
Qed.

(** X12: during a traversal the queue of the pool stays RUNNING, no worker
    thread leaves its loop, the counter of the level's WaitGroup is the
    number of chunk tasks that have not called [Done], and a task that is
    about to call [Done] finds the counter at 1 or more: the counter never
    wraps. *)
Theorem WaitGroup_counts_outstanding_tasks (g : t) (TC startVertex : Z) (sched : list tid)
    (es : list event) (s : state) :
  wf g -> 0 <= startVertex < vertexCount_ g -> 1 <= TC <= UINT_MAX ->
  run g TC sched (parallelBFS g TC startVertex) = Some (es, s) ->
  fst (ThreadPool.tasks_ (pool s)) = RUNNING
  /\ Forall (fun w => w <> ThreadPool.Exited) (workers s)
  /\ (in_level (pc s) -> WaitGroup.count_ (wg s) = outstanding s)
  /\ forall k r, workers s !! k = Some (ThreadPool.Running r) ->
       in_level (pc s)
       /\ 1 <= WaitGroup.count_ (wg s)
       /\ WaitGroup.count_ (fst (WaitGroup.Done size_t_bits (wg s)))
          = WaitGroup.count_ (wg s) - 1.
Proof.
  intros Hwf Hs HTC Hrun.
  pose proof (run_inv g TC startVertex sched Hwf HTC _ _ _ (init_inv g TC startVertex Hwf Hs) Hrun)
    as [Hc Hg].
  split; [apply Hc|]. split; [apply Hc|]. split; [apply Hc|].
  intros k r Hk.
  assert (in_level (pc s)) as Hin.
  { destruct (in_level_cases (pc s)) as [?|Hn]; [done|].
    destruct (c_quiet _ _ Hc Hn) as [_ Hidle]. rewrite Forall_forall in Hidle.
    by specialize (Hidle _ (list_elem_of_lookup_2 _ _ _ Hk)). }
  pose proof (c_count _ _ Hc Hin) as Hcount. pose proof (c_wg _ _ Hc) as Hr.
  pose proof (busy_length _ _ _ Hk) as Hb.
  assert (0 <= driver_chunks (pc s) (currentLevel s) (chunkSize s)) as Hdc.
  { destruct (pc s) eqn:Hp; simpl; try lia.
    apply (driver_chunks_nonneg (DFor chunkStart)).
    by destruct (c_for _ _ Hc _ Hp) as [_ [? _]]. }
  unfold outstanding in Hcount.
  assert (1 <= WaitGroup.count_ (wg s)) as H1 by lia.
  split; [done|]. split; [done|]. simpl. apply wrap_small.
  change (Z.pos size_t_bits) with 64. lia.
Qed.

Lemma WaitGroup_counts_outstanding_tasks_witness :
  WaitGroup.count_ (wg (exec scenario_graph 3 (take 16 (scenario_schedule 3 0)) (parallelBFS scenario_graph 3 0)).2) = outstanding (exec scenario_graph 3 (take 16 (scenario_schedule 3 0)) (parallelBFS scenario_graph 3 0)).2
  /\ 1 <= WaitGroup.count_ (wg (exec scenario_graph 3 (take 16 (scenario_schedule 3 0)) (parallelBFS scenario_graph 3 0)).2).
Proof.
  destruct (WaitGroup_counts_outstanding_tasks scenario_graph 3 0
              (take 16 (scenario_schedule 3 0)) (exec scenario_graph 3 (take 16 (scenario_schedule 3 0)) (parallelBFS scenario_graph 3 0)).1 (exec scenario_graph 3 (take 16 (scenario_schedule 3 0)) (parallelBFS scenario_graph 3 0)).2)
    as (_ & _ & Hcount & Hdone).
  - exact scenario_graph_wf.
  - simpl. lia.
  - unfold UINT_MAX. lia.
  - vm_compute. reflexivity.
  - split.
    + apply Hcount. vm_compute. exact I.
    + apply (Hdone 2%nat (COuter 0 1 [])). vm_compute. reflexivity.
Defined.

Lemma step_waiters (g : t) (TC : Z) (s s' : state) (th : tid) (e : event) :
  WaitGroup.waiters_ (wg s) = match pc s with DWaiting => 1 | _ => 0 end ->
  step g TC s th = Next e s' ->
  WaitGroup.waiters_ (wg s') = match pc s' with DWaiting => 1 | _ => 0 end.
Proof.
  intros Hinv H. step_cases H; try done; try (by destruct (pc s)).
  all: try (rewrite Hinv; done).
Qed.

Lemma run_waiters (g : t) (TC : Z) (sched : list tid) :
  forall (s s' : state) (es : list event),
    WaitGroup.waiters_ (wg s) = match pc s with DWaiting => 1 | _ => 0 end ->
    run g TC sched s = Some (es, s') ->
    WaitGroup.waiters_ (wg s') = match pc s' with DWaiting => 1 | _ => 0 end.
Proof.
  induction sched as [|th sched IH]; intros s s' es Hi Hr.
  - simpl in Hr. by simplify_eq.
  - apply run_cons in Hr as (e & s1 & es' & Hs & Hr & ->).
    eapply IH; [|done]. by eapply step_waiters.
Qed.

(** X13: in every execution the WaitGroup's [waiters_] is 1 while the
    calling thread is blocked in [Wait] and 0 otherwise, so the [Done]
    that brings the counter to 0 while the caller is blocked calls
    [notify_all], and no other [Done] does. *)
Theorem Done_wakes_the_waiting_caller (g : t) (TC startVertex : Z) (sched : list tid)
    (es : list event) (s : state) :
  run g TC sched (parallelBFS g TC startVertex) = Some (es, s) ->
  WaitGroup.waiters_ (wg s) = match pc s with DWaiting => 1 | _ => 0 end
  /\ (pc s = DWaiting ->
      snd (WaitGroup.Done size_t_bits (wg s))
      = WaitGroup.Wait_pred (fst (WaitGroup.Done size_t_bits (wg s))))
  /\ (pc s <> DWaiting -> snd (WaitGroup.Done size_t_bits (wg s)) = false).
Proof.
  intros Hrun.
  assert (WaitGroup.waiters_ (wg s) = match pc s with DWaiting => 1 | _ => 0 end) as Hw.
  { eapply run_waiters; [|done]. unfold parallelBFS. by case_match. }
  split; [done|]. unfold WaitGroup.Done, WaitGroup.Wait_pred. simpl. rewrite Hw. split.
  - intros ->. simpl. by rewrite andb_true_r.
  - intros Hp. destruct (pc s); try done; simpl; by rewrite andb_false_r.
Qed.

Lemma Done_wakes_the_waiting_caller_witness :
  WaitGroup.waiters_ (wg (exec scenario_graph 3 [Driver; Driver; Driver; Driver] (parallelBFS scenario_graph 3 0)).2) = 1
  /\ snd (WaitGroup.Done size_t_bits
            (wg (exec scenario_graph 3 [Driver; Driver; Driver; Driver] (parallelBFS scenario_graph 3 0)).2)) = true.
Proof.
  destruct (Done_wakes_the_waiting_caller scenario_graph 3 0 [Driver; Driver; Driver; Driver]
              (exec scenario_graph 3 [Driver; Driver; Driver; Driver] (parallelBFS scenario_graph 3 0)).1
              (exec scenario_graph 3 [Driver; Driver; Driver; Driver] (parallelBFS scenario_graph 3 0)).2)
    as (Hw & Hn & _).
  - vm_compute. reflexivity.
  - split.
    + rewrite Hw. vm_compute. reflexivity.
    + rewrite Hn; vm_compute; reflexivity.
Defined.

Lemma inv_terminating (g : t) (TC startVertex : Z) (s : state) :
  wf g -> 1 <= TC <= UINT_MAX -> inv g TC startVertex s -> terminating g TC s.
Proof.
  intros Hwf HTC.
  remember (frontier_budget s) as a eqn:Ha.
  remember (Z.to_nat (level_work g s)) as b eqn:Hb.
  revert s Ha Hb. pattern a, b. apply lex_induction. clear a b.
  intros a b IH s -> -> Hinv. constructor. intros th e s1 Hs.
  destruct (step_inv g TC startVertex s s1 th e Hwf HTC Hinv Hs) as [Hinv1 _].
  pose proof (step_decreases g TC startVertex s s1 th e Hwf HTC Hinv Hs) as Hdec.
  by apply (IH _ _ Hdec s1).
Qed.

(** X14: no schedule makes [parallelBFS] run forever: from the initial
    state every sequence of transitions is finite. *)
Theorem parallelBFS_terminates (g : t) (TC startVertex : Z) :
  wf g -> 0 <= startVertex < vertexCount_ g -> 1 <= TC <= UINT_MAX ->
  terminating g TC (parallelBFS g TC startVertex).
Proof.
  intros Hwf Hs HTC. eapply inv_terminating; [done|done|]. by apply init_inv.
Qed.

Lemma parallelBFS_terminates_witness : terminating scenario_graph 3 (parallelBFS scenario_graph 3 0).
Proof.
  apply (parallelBFS_terminates scenario_graph 3 0).
  - exact scenario_graph_wf.
  - simpl. lia.
  - unfold UINT_MAX. lia.
Defined.

(** X15: the flags at the return do not depend on the number of workers
    nor on the schedule. *)
Theorem result_independent_of_workers (g : t) (TC1 TC2 startVertex : Z)
    (sched1 sched2 : list tid) (es1 es2 : list event) (s1 s2 : state) :
  wf g -> 0 <= startVertex < vertexCount_ g ->
  1 <= TC1 <= UINT_MAX -> 1 <= TC2 <= UINT_MAX ->
  run g TC1 sched1 (parallelBFS g TC1 startVertex) = Some (es1, s1) -> returned s1 ->
  run g TC2 sched2 (parallelBFS g TC2 startVertex) = Some (es2, s2) -> returned s2 ->
  visited s1 = visited s2.
Proof.
  intros Hwf Hs HTC1 HTC2 Hr1 Hret1 Hr2 Hret2.
  pose proof (run_inv g TC1 startVertex sched1 Hwf HTC1 _ _ _ (init_inv g TC1 startVertex Hwf Hs) Hr1)
    as Hinv1.
  pose proof (run_inv g TC2 startVertex sched2 Hwf HTC2 _ _ _ (init_inv g TC2 startVertex Hwf Hs) Hr2)
    as Hinv2.
  apply flags_eq.
  - destruct Hinv1 as [_ Hg1], Hinv2 as [_ Hg2].
    by rewrite (g_len _ _ _ Hg1), (g_len _ _ _ Hg2).
  - intros v.
    pose proof (returned_marks_reachable g TC1 startVertex s1 Hinv1 Hret1 v) as H1.
    pose proof (returned_marks_reachable g TC2 startVertex s2 Hinv2 Hret2 v) as H2.
    unfold marked in *. unfold markedv. by rewrite H1, H2.
Qed.

Lemma result_independent_of_workers_witness :
  visited (exec scenario_graph 1 (scenario_schedule 1 0) (parallelBFS scenario_graph 1 0)).2 = visited (exec scenario_graph 3 (scenario_schedule 3 0) (parallelBFS scenario_graph 3 0)).2.
Proof.
  apply (result_independent_of_workers scenario_graph 1 3 0
           (scenario_schedule 1 0) (scenario_schedule 3 0) (exec scenario_graph 1 (scenario_schedule 1 0) (parallelBFS scenario_graph 1 0)).1 (exec scenario_graph 3 (scenario_schedule 3 0) (parallelBFS scenario_graph 3 0)).1).
  - exact scenario_graph_wf.
  - simpl. lia.
  - unfold UINT_MAX. lia.
  - unfold UINT_MAX. lia.
  - vm_compute. reflexivity.
  - vm_compute. reflexivity.
  - vm_compute. reflexivity.
  - vm_compute. reflexivity.
Defined.



End TraversalFacts.

(** ** Frontiers and distances *)

Module LevelFacts.
Import UnboundedBlockingQueue Graph GraphFacts SliceFacts ClaimFacts ChunkFacts InvariantFacts
  ParallelBfsFacts.

Lemma path_reachable (g : t) (s : Z) (k : nat) (v : Z) : path g s k v -> reachable g s v.
Proof. induction 1; [constructor|by eapply reach_step]. Qed.

Lemma reachable_path (g : t) (s v : Z) : reachable g s v -> exists k, path g s k v.
Proof.
  induction 1 as [|u v _ [k Hk] He]; [exists O; constructor|].
  exists (S k). by eapply path_step.
Qed.

(** With nothing pending, what lies one edge beyond the expanded vertices
    is marked. *)
Lemma level_inv_frontier_marked (g : t) (startVertex : Z) (e : nat) (s : state) (v : Z) :
  graph_inv g startVertex s -> level_inv g startVertex e s ->
  pending g s = [] -> path g startVertex e v -> marked s v.
Proof.
  intros Hg [Hun Hold Hnear Hpe] Hp Hpath. inversion Hpath as [|d u v' Hu He]; subst.
  - apply Hg.
  - assert (marked s u) as Hmu by (apply (Hnear d u); [lia|done]).
    assert (u ∉ unexpanded s) as Hnu.
    { intros Hin. destruct (Hun u Hin) as [_ Hmin]. apply (Hmin d); [lia|done]. }
    destruct (g_closed _ _ _ Hg u v Hmu Hnu He) as [?|Hin]; [done|].
    rewrite Hp in Hin. by apply elem_of_nil in Hin.
Qed.

Lemma level_inv_exact (g : t) (startVertex : Z) (e : nat) (s : state) (v : Z) :
  graph_inv g startVertex s -> level_inv g startVertex e s ->
  pending g s = [] -> dist g startVertex e v -> v ∈ unexpanded s.
Proof.
  intros Hg Hl Hp [Hpath Hmin].
  pose proof (level_inv_frontier_marked g startVertex e s v Hg Hl Hp Hpath) as Hm.
  destruct (decide (v ∈ unexpanded s)) as [?|Hn]; [done|].
  destruct (l_old _ _ _ _ Hl v Hm Hn) as (k & Hk & Hkp). by destruct (Hmin k Hk).
Qed.

Lemma effect_level_inv (g : t) (startVertex : Z) (e : nat) (s s' : state) (ev : event) :
  graph_inv g startVertex s -> level_inv g startVertex e s -> effect g s s' ev ->
  exists e', level_inv g startVertex e' s'.
Proof.
  intros Hg Hl He. pose proof Hl as [Hun Hold Hnear Hpe]. unfold marked in *.
  destruct He as [e0 _ _ Hv Hc Hp Hu|k v Hx Hv Hc Hp Hu|k v Hx Hv Hc Hp Hu
                  |Hv Hc Hp Hu Hu' Hp'|Hv Hc Hp' Hp Hu].
  - exists e. split; unfold marked; rewrite ?Hv.
    + intros v. rewrite Hu. apply Hun.
    + intros v. rewrite Hu. apply Hold.
    + done.
    + intros v. rewrite Hp. apply Hpe.
  - assert (forall x, markedv (store (visited s) v true) x <-> markedv (visited s) x \/ x = v)
      as Hm by (intros x; by apply (markedv_store _ _ _ false)).
    unfold markedv in Hm.
    assert (v ∈ pending g s) as Hvp by (rewrite Hp; by left).
    exists e. split; unfold marked; rewrite ?Hv.
    + intros x. rewrite Hu. intros [->|Hin]%elem_of_cons; [|by apply Hun].
      destruct (Hpe v Hvp) as (d & u & -> & [Hpu _] & Huv). split.
      * by eapply path_step.
      * intros j Hj Hpj. specialize (Hnear j v Hj Hpj). congruence.
    + intros x Hmx Hnx. rewrite Hu in Hnx. apply not_elem_of_cons in Hnx as [Hne Hnx].
      apply Hm in Hmx as [Hmx|?]; [|done]. by apply Hold.
    + intros j x Hj Hpj. apply Hm. left. by eapply Hnear.
    + intros x Hin. apply Hpe. rewrite Hp. by right.
  - exists e. split; unfold marked; rewrite ?Hv.
    + intros x. rewrite Hu. apply Hun.
    + intros x. rewrite Hu. apply Hold.
    + done.
    + intros x Hin. apply Hpe. rewrite Hp. by right.
  - exists (S e). split; unfold marked; rewrite ?Hv, ?Hu', ?Hp'.
    + intros v Hin. by apply elem_of_nil in Hin.
    + intros v Hm _. destruct (decide (v ∈ unexpanded s)) as [Hin|Hn].
      * exists e. split; [lia|]. by apply Hun.
      * destruct (Hold v Hm Hn) as (k & Hk & Hkp). exists k. split; [lia|done].
    + intros k v Hk Hkp. destruct (decide (k = e)) as [->|Hne].
      * by apply (level_inv_frontier_marked g startVertex e s v Hg Hl Hp).
      * apply (Hnear k v); [lia|done].
    + intros v (u & Hvu & Hu1)%list_elem_of_bind. exists e, u. split; [done|].
      split; [apply Hun; by rewrite Hu|by apply edge_nbrs].
  - exists e. split; unfold marked; rewrite ?Hv, ?Hu, ?Hp'; try done.
    intros v Hin. by apply elem_of_nil in Hin.
Qed.

Lemma init_level_inv (g : t) (TC startVertex : Z) :
  wf g -> 0 <= startVertex < vertexCount_ g ->
  level_inv g startVertex O (parallelBFS g TC startVertex).
Proof.
  intros Hwf Hs. destruct (init_inv g TC startVertex Hwf Hs) as [Hc Hg].
  assert (unexpanded (parallelBFS g TC startVertex) = [startVertex]) as Hu.
  { unfold unexpanded, fresh. rewrite (c_next _ _ Hc).
    - destruct (c_quiet _ _ Hc) as [_ Hidle].
      + unfold parallelBFS. rewrite (proj2 (valid_start g startVertex) Hs). simpl. tauto.
      + rewrite (bind_idle worker_local _ eq_refl Hidle).
        unfold parallelBFS. by rewrite (proj2 (valid_start g startVertex) Hs).
    - left. unfold parallelBFS. by rewrite (proj2 (valid_start g startVertex) Hs). }
  assert (pending g (parallelBFS g TC startVertex) = []) as Hp.
  { unfold pending. destruct (c_quiet _ _ Hc) as [Hits Hidle].
    - unfold parallelBFS. rewrite (proj2 (valid_start g startVertex) Hs). simpl. tauto.
    - rewrite Hits, (bind_idle (worker_pending g _) _ eq_refl Hidle).
      unfold parallelBFS. by rewrite (proj2 (valid_start g startVertex) Hs). }
  split.
  - rewrite Hu. intros v ->%list_elem_of_singleton. split; [constructor|lia].
  - rewrite Hu. intros v Hm Hn. exfalso. apply Hn, list_elem_of_singleton.
    unfold parallelBFS, marked in Hm. rewrite (proj2 (valid_start g startVertex) Hs) in Hm.
    simpl in Hm.
    assert (at_ (replicate (Z.to_nat (vertexCount_ g)) false) startVertex = Some false) as H0.
    { apply at_Some. split; [lia|]. apply lookup_replicate_2. lia. }
    apply (markedv_store _ _ _ _ H0) in Hm as [Hm|?]; [|done].
    apply at_Some in Hm as [_ Hm]. by apply lookup_replicate in Hm as [? _].
  - lia.
  - rewrite Hp. intros v Hin. by apply elem_of_nil in Hin.
Qed.

Lemma run_level_inv (g : t) (TC startVertex : Z) (sched : list tid) :
  wf g -> 1 <= TC <= UINT_MAX ->
  forall (s s' : state) (es : list event) (e : nat),
    inv g TC startVertex s -> level_inv g startVertex e s ->
    run g TC sched s = Some (es, s') ->
    exists e', level_inv g startVertex e' s'.
Proof.
  intros Hwf HTC. induction sched as [|th sched IH]; intros s s' es e Hi Hl Hr.
  - simpl in Hr. simplify_eq. by exists e.
  - apply run_cons in Hr as (ev & s1 & es' & Hs & Hr & ->).
    destruct (step_inv g TC startVertex s s1 th ev Hwf HTC Hi Hs) as [Hi1 Heff].
    destruct (effect_level_inv g startVertex e s s1 ev (proj2 Hi) Hl Heff) as [e1 Hl1].
    by eapply IH.
Qed.

(** X8: the traversal is level-synchronous.  In every execution there is a
    distance [e] such that every vertex nearer than [e] to the start
    vertex is marked, every marked vertex is nearer than [e] or at
    distance [e], the vertices claimed for the next frontier are at
    distance [e], and at the head of the [while] loop the frontier
    [currentLevel] consists of exactly the vertices at distance [e]. *)
Theorem frontiers_are_distance_classes (g : t) (TC startVertex : Z) (sched : list tid)
    (es : list event) (s : state) :
  wf g -> 0 <= startVertex < vertexCount_ g -> 1 <= TC <= UINT_MAX ->
  run g TC sched (parallelBFS g TC startVertex) = Some (es, s) ->
  exists e : nat,
    (forall k v, (k < e)%nat -> path g startVertex k v -> marked s v)
    /\ (forall v, marked s v ->
          (exists k, (k < e)%nat /\ path g startVertex k v) \/ dist g startVertex e v)
    /\ (forall v, v ∈ nextLevel s ++ (workers s ≫= worker_local) -> dist g startVertex e v)
    /\ (pc s = DWhile -> forall v, v ∈ currentLevel s <-> dist g startVertex e v).
Proof.
  intros Hwf Hs HTC Hrun.
  pose proof (init_inv g TC startVertex Hwf Hs) as Hinit.
  pose proof (run_inv g TC startVertex sched Hwf HTC _ _ _ Hinit Hrun) as Hinv.
  destruct (run_level_inv g TC startVertex sched Hwf HTC _ _ _ O Hinit
              (init_level_inv g TC startVertex Hwf Hs) Hrun) as [e Hl].
  destruct Hinv as [Hc Hg]. exists e. split; [apply Hl|]. split_and!.
  - intros v Hm. destruct (decide (v ∈ unexpanded s)) as [Hin|Hn].
    + right. by apply (l_unexp _ _ _ _ Hl).
    + left. by apply (l_old _ _ _ _ Hl).
  - intros v Hin. apply (l_unexp _ _ _ _ Hl). unfold unexpanded, fresh.
    apply elem_of_app. by left.
  - intros Hpc v.
    destruct (c_quiet _ _ Hc) as [Hits Hidle]; [rewrite Hpc; simpl; tauto|].
    assert (unexpanded s = currentLevel s) as Hu.
    { unfold unexpanded, fresh. rewrite (c_next _ _ Hc (or_introl Hpc)), Hpc. simpl.
      by rewrite (bind_idle worker_local _ eq_refl Hidle). }
    assert (pending g s = []) as Hp.
    { unfold pending. rewrite Hits, Hpc. simpl.
      by rewrite (bind_idle (worker_pending g _) _ eq_refl Hidle). }
    rewrite <- Hu. split; [apply Hl|]. by apply level_inv_exact.
Qed.

Lemma frontiers_are_distance_classes_witness :
  exists e : nat,
    forall v,
      v ∈ currentLevel (exec scenario_graph 3 (take 13 (scenario_schedule 3 0))
                          (parallelBFS scenario_graph 3 0)).2
      <-> dist scenario_graph 0 e v.
Proof.
  destruct (frontiers_are_distance_classes scenario_graph 3 0 (take 13 (scenario_schedule 3 0))
              (exec scenario_graph 3 (take 13 (scenario_schedule 3 0))
                 (parallelBFS scenario_graph 3 0)).1
              (exec scenario_graph 3 (take 13 (scenario_schedule 3 0))
                 (parallelBFS scenario_graph 3 0)).2) as (e & _ & _ & _ & H).
  - exact scenario_graph_wf.
  - simpl. lia.
  - unfold UINT_MAX. lia.
  - vm_compute. reflexivity.
  - exists e. apply H. vm_compute. reflexivity.
Defined.

End LevelFacts.

(** ** Chunks of a level *)

Module ChunkCoverFacts.
Import UnboundedBlockingQueue Graph GraphFacts SliceFacts ChunkFacts.

Lemma slice_after_chunk (l : list Z) (cs c : Z) :
  1 <= c -> 0 <= cs < size l ->
  slice l (cs + c) (size l) = slice l (Z.min (cs + c) (size l)) (size l).
Proof.
  intros Hc Hcs. destruct (Z.le_gt_cases (cs + c) (size l)).
  - by rewrite Z.min_l.
  - rewrite Z.min_r by lia. by rewrite !slice_nil by lia.
Qed.

Lemma chunks_cover_from (l : list Z) (c : Z) :
  1 <= c ->
  forall (j k : nat),
    size l <= (Z.of_nat k + Z.of_nat j) * c ->
    ((0 < j)%nat -> (Z.of_nat k + Z.of_nat j - 1) * c < size l) ->
    (chunk_of c (size l) <$> seq k j) ≫= (fun tk => slice l (fst tk) (snd tk))
    = slice l (Z.of_nat k * c) (size l).
Proof.
  intros Hc. induction j as [|j IH]; intros k Hup Hlow.
  - simpl. by rewrite slice_nil by lia.
  - assert (Z.of_nat k * c < size l) as Hk by (specialize (Hlow ltac:(lia)); nia).
    cbn [seq]. rewrite fmap_cons, bind_cons. rewrite (IH (S k)) by lia.
    assert (chunk_of c (size l) k
            = (Z.of_nat k * c, Z.min (Z.of_nat k * c + c) (size l))) as ->
      by (unfold chunk_of; do 2 f_equal; lia).
    cbn [fst snd].
    replace (Z.of_nat (S k) * c) with (Z.of_nat k * c + c) by lia.
    rewrite (slice_after_chunk l (Z.of_nat k * c) c) by lia.
    symmetry. apply slice_split; lia.
Qed.

(** X10: the chunks of a level cut the frontier without loss or overlap:
    the slices of the submitted chunks, in order, make up the frontier,
    and no chunk is empty. *)
Theorem chunks_cover_the_frontier (l : list Z) (W : Z) :
  1 <= size l < 2 ^ 62 -> 1 <= W <= UINT_MAX ->
  exists (c : Z) (chunks : list (Z * Z)),
    level_chunkSize (size l) W = Some c
    /\ for_chunks (Z.to_nat (size l)) (size l) c 0 = Some chunks
    /\ chunks ≫= (fun tk => slice l (fst tk) (snd tk)) = l
    /\ Forall (fun tk => 0 <= fst tk < snd tk /\ snd tk <= size l) chunks
    /\ Z.of_nat (length chunks) <= size l.
Proof.
  intros HL HW.
  destruct (level_chunkSize_value (size l) W HL HW) as [Hc Hcr].
  set (c := (size l + W - 1) / W) in *.
  destruct (level_wg_count_value (size l) c HL ltac:(lia)) as (Hm & Hmr & Hmb).
  set (m := Z.to_nat (1 + (size l - 1) / c)).
  assert (Z.of_nat m = 1 + (size l - 1) / c) as Hmz by (unfold m; lia).
  exists c, (chunk_of c (size l) <$> seq 0 m). split_and!.
  - done.
  - change 0 with (Z.of_nat 0 * c). apply for_chunks_from; lia.
  - rewrite (chunks_cover_from l c ltac:(lia) m 0) by lia. simpl. apply slice_all.
  - apply Forall_fmap, Forall_forall. intros k [_ Hk]%elem_of_seq. simpl.
    assert (Z.of_nat k * c < size l) by nia. lia.
  - rewrite length_fmap, length_seq. lia.
Qed.

Lemma chunks_cover_the_frontier_witness :
  exists (c : Z) (chunks : list (Z * Z)),
    level_chunkSize 5 2 = Some c
    /\ for_chunks 5 5 c 0 = Some chunks
    /\ chunks ≫= (fun tk => slice [10; 11; 12; 13; 14] (fst tk) (snd tk)) = [10; 11; 12; 13; 14].
Proof.
  destruct (chunks_cover_the_frontier [10; 11; 12; 13; 14] 2) as (c & chunks & H1 & H2 & H3 & _).
  - vm_compute. split; [discriminate|reflexivity].
  - vm_compute. split; discriminate.
  - by exists c, chunks.
Defined.

End ChunkCoverFacts.

(** ** Laws of the queue *)

Module QueueLawFacts.
Import UnboundedBlockingQueue QueueFacts.

(** X16: a queue neither loses, duplicates nor reorders items: under any
    sequence of calls, the items it held followed by the values its
    [Push] calls accepted are the values its [Pop] calls returned followed
    by the items it still holds. *)
Theorem queue_conserves_items {T : Type} (ops : list (op T)) (q : t T) :
  snd q ++ accepted q ops = snd (run q ops) ++ snd (fst (run q ops)).
Proof.
  revert q. induction ops as [|o ops IH]; intros q; simpl.
  - by rewrite app_nil_r.
  - destruct o as [v|st|].
    + rewrite <- IH. unfold Push, Emplace.
      destruct (negb (State_eqb q.1 RUNNING)); simpl; [done|]. by rewrite <- app_assoc.
    + by rewrite <- IH.
    + unfold Pop. destruct (negb (Pop_pred q)); [by rewrite <- IH|].
      destruct (State_eqb q.1 FORCE_STOPPED); [by rewrite <- IH|].
      destruct q as [st [|y ys]]; simpl; [by rewrite <- (IH (st, []))|].
      specialize (IH (st, ys)). destruct (run (st, ys) ops) as [qf out]. simpl in *.
      by rewrite IH.
Qed.

Lemma pops_force_stopped {T : Type} (n : nat) (items : list T) :
  pops n (FORCE_STOPPED, items) = Some (replicate n None, (FORCE_STOPPED, items)).
Proof. induction n as [|n IH]; simpl; [done|]. by rewrite IH. Qed.

(** X17: [Stop(FORCE_STOPPED)] does not discard the queued items: while the
    queue is FORCE_STOPPED every [Pop] returns empty and leaves them in
    place, and a later [Stop(STOPPED)] or [Stop(RUNNING)] makes them come
    out again, in order. *)
Theorem force_stop_keeps_items {T : Type} (st : State) (items : list T) (n : nat) :
  pops n (Stop FORCE_STOPPED (st, items)) = Some (replicate n None, (FORCE_STOPPED, items))
  /\ pops (length items) (Stop STOPPED (Stop FORCE_STOPPED (st, items)))
     = Some (map Some items, (STOPPED, []))
  /\ pops (length items) (Stop RUNNING (Stop FORCE_STOPPED (st, items)))
     = Some (map Some items, (RUNNING, [])).
Proof.
  split; [apply pops_force_stopped|]. unfold Stop. simpl.
  split; by apply pops_drain.
Qed.


End QueueLawFacts.

(** ** The counter of a [WaitGroup] *)

Module WaitGroupUseFacts.
Import WaitGroup WaitGroupFacts.

Lemma step_count_range (w : positive) (g g' : t) (c : call) :
  0 <= count_ g < 2 ^ Z.pos w -> step w g c = Some g' -> 0 <= count_ g' < 2 ^ Z.pos w.
Proof.
  intros Hr Hs. destruct c; simpl in Hs.
  - injection Hs as <-. apply wrap_range.
  - injection Hs as <-. apply wrap_range.
  - by injection Hs as <-.
  - destruct (Wait_pred g); [|done]. by injection Hs as <-.
Qed.

Lemma run_count_range (w : positive) (cs : list call) : forall (g g' : t),
  0 <= count_ g < 2 ^ Z.pos w -> run w g cs = Some g' -> 0 <= count_ g' < 2 ^ Z.pos w.
Proof.
  induction cs as [|c cs IH]; intros g g' Hr; simpl.
  - by intros [= <-].
  - destruct (step w g c) as [g1|] eqn:Hs; [|done]. apply IH. by eapply step_count_range.
Qed.

(** X18: the counter is always the balance of the group: the initial count
    plus the added counts minus the number of [Done] calls, modulo [2^w];
    it is exactly that balance while the balance is in the range of
    [size_t], and [Wait] can return exactly when the balance is 0 modulo
    [2^w]. *)
Theorem counter_is_the_balance (w : positive) (N : Z) (cs : list call) (g : t) :
  0 <= N < 2 ^ Z.pos w ->
  run w (make N) cs = Some g ->
  count_ g = wrap w (N + added cs - dones cs)
  /\ (0 <= N + added cs - dones cs < 2 ^ Z.pos w -> count_ g = N + added cs - dones cs)
  /\ (is_Some (run w (make N) (cs ++ [CWaitReturn]))
      <-> wrap w (N + added cs - dones cs) = 0).
Proof.
  intros HN Hr.
  pose proof (run_count w cs _ _ Hr) as Hc. simpl in Hc.
  pose proof (run_count_range w cs (make N) g HN Hr) as Hrange.
  rewrite (wrap_small w (count_ g)) in Hc by done.
  split; [done|]. split; [intros Hb; by rewrite Hc, wrap_small|].
  rewrite calls_app, Hr. simpl. unfold Wait_pred. rewrite <- Hc.
  destruct (count_ g =? 0) eqn:Hz.
  - apply Z.eqb_eq in Hz. split; [done|]. intros _. by eexists.
  - apply Z.eqb_neq in Hz. split; [by intros [? ?]|done].
Qed.

Lemma counter_is_the_balance_witness :
  count_ {| count_ := 1; waiters_ := 1 |} = 2 + added [CAdd 1; CDone; CWaitEnter; CDone] - dones [CAdd 1; CDone; CWaitEnter; CDone].
Proof.
  refine (proj1 (proj2 (counter_is_the_balance 64 2 [CAdd 1; CDone; CWaitEnter; CDone]
                          {| count_ := 1; waiters_ := 1 |} _ _)) _).
  - vm_compute. split; [discriminate|reflexivity].
  - vm_compute. reflexivity.
  - vm_compute. split; [discriminate|reflexivity].
Defined.

End WaitGroupUseFacts.

(** ** Life of a pool *)

Module LifeFacts.
Import UnboundedBlockingQueue ThreadPool ThreadPoolLife InvariantFacts.

Lemma run_life_cons {T : Type} (s s2 : state T) (a : actor T) (sched : list (actor T))
    (es : list (event T)) :
  run s (a :: sched) = Some (es, s2) ->
  exists e s1 es', step s a = Some (e, s1) /\ run s1 sched = Some (es', s2) /\ es = e :: es'.
Proof.
  simpl. destruct (step s a) as [[e s1]|] eqn:Hs; [|done].
  destruct (run s1 sched) as [[es' s3]|] eqn:Hr; [|done].
  intros [= <- <-]. by exists e, s1, es'.
Qed.

Lemma run_life_app {T : Type} (sched1 sched2 : list (actor T)) : forall (s s1 s2 : state T) es1 es2,
  run s sched1 = Some (es1, s1) -> run s1 sched2 = Some (es2, s2) ->
  run s (sched1 ++ sched2) = Some (es1 ++ es2, s2).
Proof.
  induction sched1 as [|a sched1 IH]; intros s s1 s2 es1 es2 H1 H2.
  - simpl in H1. by simplify_eq.
  - apply run_life_cons in H1 as (e & s' & es' & Hs & Hr & ->).
    simpl. rewrite Hs. by rewrite (IH _ _ _ _ _ Hr H2).
Qed.

Lemma life_init_inv {T : Type} (num_threads : Z) : inv num_threads [] (@init T num_threads).
Proof.
  split; simpl; try done.
  - apply length_replicate.
  - intros k [? _]%lookup_replicate. done.
  - induction (Z.to_nat num_threads) as [|n IH]; [done|]. simpl. by rewrite IH.
Qed.

Lemma accepted_snoc {T : Type} (es : list (event T)) (e : event T) :
  accepted_tasks (es ++ [e])
  = accepted_tasks es ++ match e with Pushed task true => [task] | _ => [] end.
Proof. unfold accepted_tasks. rewrite omap_app. f_equal. by destruct e as [? []| | | | | |]. Qed.

Lemma rejected_snoc {T : Type} (es : list (event T)) (e : event T) :
  rejected_tasks (es ++ [e])
  = rejected_tasks es ++ match e with Pushed task false => [task] | _ => [] end.
Proof. unfold rejected_tasks. rewrite omap_app. f_equal. by destruct e as [? []| | | | | |]. Qed.

Lemma started_snoc {T : Type} (es : list (event T)) (e : event T) :
  started (es ++ [e]) = started es ++ match e with Started _ task => [task] | _ => [] end.
Proof. unfold started. rewrite omap_app. f_equal. by destruct e. Qed.

Lemma completed_snoc {T : Type} (es : list (event T)) (e : event T) :
  completed (es ++ [e])
  = completed es ++ match e with Finished _ task => [task] | _ => [] end.
Proof. unfold completed. rewrite omap_app. f_equal. by destruct e. Qed.

Ltac snoc_events :=
  rewrite ?accepted_snoc, ?rejected_snoc, ?started_snoc, ?completed_snoc; simpl;
  rewrite ?app_nil_r.

Lemma in_progress_replace {T : Type} (ws : list (worker T)) (k : nat) (w w' : worker T) :
  ws !! k = Some w ->
  exists rest, ws ≫= in_progress ≡ₚ in_progress w ++ rest
            /\ <[k := w']> ws ≫= in_progress ≡ₚ in_progress w' ++ rest.
Proof.
  intros Hk. destruct (workers_replace ws k w Hk) as (l1 & l2 & -> & Hins).
  exists ((l1 ≫= in_progress) ++ (l2 ≫= in_progress)). rewrite Hins.
  rewrite !bind_app, !bind_cons. split; solve_Permutation.
Qed.

Lemma step_life_inv {T : Type} (num_threads : Z) (es : list (event T)) (s s' : state T)
    (a : actor T) (e : event T) :
  inv num_threads es s -> step s a = Some (e, s') -> inv num_threads (es ++ [e]) s'.
Proof.
  intros [Hlen Hst Hjoin Hdes Hexit Hfifo Hrun Hrej Hno] Hs.
  destruct s as [[[qst its] ws] d]. unfold queued in *. simpl in *.
  destruct a as [task| |k]; simpl in Hs.
  - (* Push *)
    destruct d as [|i|]; [| |done]; subst qst; injection Hs as <- <-; simpl.
    + split; unfold queued; simpl; snoc_events.
      * done.
      * done.
      * done.
      * done.
      * intros k Hk. by destruct (Hexit k Hk).
      * by rewrite app_assoc, Hfifo.
      * done.
      * done.
      * first [done|intros Hn0; apply lookup_lt_Some in Hk; lia].
    + split; unfold queued; simpl; snoc_events; done.
  - (* destructor *)
    destruct d as [|i|]; [| |done].
    + injection Hs as <- <-. split; unfold queued; simpl; snoc_events.
      * done.
      * done.
      * intros i j [= <-]. lia.
      * done.
      * intros k Hk. by destruct (Hexit k Hk).
      * done.
      * done.
      * done.
      * first [done|intros Hn0; apply lookup_lt_Some in Hk; lia].
    + destruct (ws !! i) as [[|r|]|] eqn:Hi; [done|done| |]; injection Hs as <- <-.
      * split; unfold queued; simpl; snoc_events; try done.
        -- intros i' j [= <-] Hj. destruct (decide (j = i)) as [->|Hne]; [done|].
           apply (Hjoin i j eq_refl). lia.
        -- intros k Hk. by destruct (Hexit k Hk).
      * split; unfold queued; simpl; snoc_events; try done.
        -- intros _. apply Forall_lookup. intros j w Hj.
           apply lookup_ge_None in Hi. pose proof (lookup_lt_Some _ _ _ Hj).
           rewrite (Hjoin i j eq_refl) in Hj by lia. by injection Hj as <-.
        -- intros k Hk. by destruct (Hexit k Hk).
  - (* a thread of the pool *)
    destruct (ws !! k) as [[|task|]|] eqn:Hk; [| |done|done].
    + unfold Pop, Pop_pred in Hs. simpl in Hs.
      assert (qst <> FORCE_STOPPED) as Hnf by (destruct d; by subst qst).
      destruct its as [|y ys].
      * destruct qst; simpl in Hs; [done| |done]. injection Hs as <- <-.
        assert (d <> Alive) as Hd by (by destruct d).
        destruct (in_progress_replace ws k Idle Exited Hk) as (rest & Hr & Hr').
        split; unfold queued; simpl; snoc_events.
        -- by rewrite length_insert.
        -- done.
        -- intros i j Hd' Hj. destruct (decide (j = k)) as [->|Hne].
           ++ apply list_lookup_insert_eq. by eapply lookup_lt_Some.
           ++ rewrite list_lookup_insert_ne by done. by eapply Hjoin.
        -- intros Hd'. specialize (Hdes Hd'). rewrite Forall_lookup in Hdes.
           by specialize (Hdes k _ Hk).
        -- done.
        -- by rewrite app_nil_r in Hfifo.
        -- by rewrite Hr', <- Hrun, Hr.
        -- intros ->. done.
        -- first [done|intros Hn0; apply lookup_lt_Some in Hk; lia].
      * assert (e = Started k y
                /\ s' = mkState (ThreadPool.mk (qst, ys) (<[k := Running y]> ws)) d)
          as [-> ->].
        { destruct qst; simpl in Hs; [| |done]; by injection Hs as <- <-. }
        destruct (in_progress_replace ws k Idle (Running y) Hk) as (rest & Hr & Hr').
        split; unfold queued; simpl; snoc_events.
        -- by rewrite length_insert.
        -- done.
        -- intros i j Hd' Hj. destruct (decide (j = k)) as [->|Hne].
           ++ rewrite (Hjoin i k Hd' Hj) in Hk. done.
           ++ rewrite list_lookup_insert_ne by done. by eapply Hjoin.
        -- intros Hd'. specialize (Hdes Hd'). rewrite Forall_lookup in Hdes.
           by specialize (Hdes k _ Hk).
        -- intros k' Hk'. destruct (decide (k' = k)) as [->|Hne].
           ++ rewrite list_lookup_insert_eq in Hk' by (by eapply lookup_lt_Some). done.
           ++ rewrite list_lookup_insert_ne in Hk' by done. by destruct (Hexit k' Hk').
        -- rewrite <- Hfifo. by rewrite <- app_assoc.
        -- rewrite Hr'. simpl. rewrite <- Hrun, Hr. simpl. solve_Permutation.
        -- done.
        -- first [done|intros Hn0; apply lookup_lt_Some in Hk; lia].
    + injection Hs as <- <-.
      destruct (in_progress_replace ws k (Running task) Idle Hk) as (rest & Hr & Hr').
      split; unfold queued; simpl; snoc_events.
      * by rewrite length_insert.
      * done.
      * intros i j Hd' Hj. destruct (decide (j = k)) as [->|Hne].
        -- rewrite (Hjoin i k Hd' Hj) in Hk. done.
        -- rewrite list_lookup_insert_ne by done. by eapply Hjoin.
      * intros Hd'. specialize (Hdes Hd'). rewrite Forall_lookup in Hdes.
        by specialize (Hdes k _ Hk).
      * intros k' Hk'. destruct (decide (k' = k)) as [->|Hne].
        -- rewrite list_lookup_insert_eq in Hk' by (by eapply lookup_lt_Some). done.
        -- rewrite list_lookup_insert_ne in Hk' by done. by apply Hexit in Hk'.
      * done.
      * rewrite Hr'. simpl. rewrite <- Hrun, Hr. simpl. solve_Permutation.
      * done.
      * first [done|intros Hn0; apply lookup_lt_Some in Hk; lia].
Qed.

Lemma run_life_inv {T : Type} (num_threads : Z) (sched : list (actor T)) :
  forall (es0 es : list (event T)) (s s' : state T),
    inv num_threads es0 s -> run s sched = Some (es, s') -> inv num_threads (es0 ++ es) s'.
Proof.
  induction sched as [|a sched IH]; intros es0 es s s' Hi Hr.
  - simpl in Hr. simplify_eq. by rewrite app_nil_r.
  - apply run_life_cons in Hr as (e & s1 & es' & Hs & Hr & ->).
    rewrite (cons_middle e), app_assoc. eapply IH; [|done]. by eapply step_life_inv.
Qed.

Lemma dtor_cases (p : dtor_pc) : p = Destroyed \/ p <> Destroyed.
Proof. destruct p; [by right|by right|by left]. Qed.

Lemma sum_list_append (l1 l2 : list nat) :
  sum_list (l1 ++ l2) = (sum_list l1 + sum_list l2)%nat.
Proof. induction l1 as [|x l1 IH]; simpl; [done|]. rewrite IH. lia. Qed.

Lemma weight_replace {T : Type} (ws : list (worker T)) (k : nat) (w w' : worker T) :
  ws !! k = Some w ->
  (sum_list (thread_weight <$> <[k := w']> ws) + thread_weight w
   = sum_list (thread_weight <$> ws) + thread_weight w')%nat.
Proof.
  intros Hk. destruct (workers_replace ws k w Hk) as (l1 & l2 & -> & Hins).
  rewrite Hins, !fmap_app, !fmap_cons, !sum_list_append. simpl. lia.
Qed.

(** Every transition other than a [Push] uses up some of the weight. *)
Lemma step_weight {T : Type} (s s' : state T) (a : actor T) (e : event T) :
  is_client a = false -> step s a = Some (e, s') -> (weight s' < weight s)%nat.
Proof.
  intros Ha Hs. destruct s as [[[qst its] ws] d]. unfold weight, queued. simpl in *.
  destruct a as [task| |k]; [done| |]; simpl in Hs.
  - destruct d as [|i|]; [| |done].
    + injection Hs as <- <-. simpl. lia.
    + destruct (ws !! i) as [[|r|]|] eqn:Hi; [done|done| |]; injection Hs as <- <-; simpl.
      * apply lookup_lt_Some in Hi. lia.
      * lia.
  - destruct (ws !! k) as [[|task|]|] eqn:Hk; [| |done|done].
    + unfold Pop, Pop_pred in Hs. simpl in Hs. destruct its as [|y ys].
      * pose proof (weight_replace ws k Idle Exited Hk) as Hw.
        destruct qst; simpl in Hs; [done| |]; injection Hs as <- <-; simpl in *;
          rewrite length_insert; lia.
      * pose proof (weight_replace ws k Idle (Running y) Hk) as Hw.
        pose proof (weight_replace ws k Idle Exited Hk) as Hw'.
        destruct qst; simpl in Hs; injection Hs as <- <-; simpl in *;
          rewrite length_insert; lia.
    + pose proof (weight_replace ws k (Running task) Idle Hk) as Hw.
      injection Hs as <- <-. simpl in *. rewrite length_insert. lia.
Qed.

(** Until the destructor has returned, the destructor or a thread of the
    pool can move. *)
Lemma life_progress {T : Type} (num_threads : Z) (es : list (event T)) (s : state T) :
  inv num_threads es s -> dtor s <> Destroyed ->
  exists a, is_client a = false /\ is_Some (step s a).
Proof.
  intros [Hlen Hst Hjoin Hdes Hexit Hfifo Hrun Hrej Hno] Hd.
  destruct s as [[[qst its] ws] d]. simpl in *.
  destruct d as [|i|]; [| |done].
  - exists Owner. split; [done|]. by eexists.
  - subst qst. destruct (ws !! i) as [[|r|]|] eqn:Hi.
    + exists (Thread i). split; [done|]. simpl. rewrite Hi.
      unfold Pop, Pop_pred. simpl. destruct its; by eexists.
    + exists (Thread i). split; [done|]. simpl. rewrite Hi. by eexists.
    + exists Owner. split; [done|]. simpl. rewrite Hi. by eexists.
    + exists Owner. split; [done|]. simpl. rewrite Hi. by eexists.
Qed.

Lemma run_weight {T : Type} (sched : list (actor T)) : forall (s s' : state T) es,
  Forall (fun a => is_client a = false) sched -> run s sched = Some (es, s') ->
  (length sched + weight s' <= weight s)%nat.
Proof.
  induction sched as [|a sched IH]; intros s s' es Hc Hr.
  - simpl in Hr. simplify_eq. simpl. lia.
  - apply run_life_cons in Hr as (e & s1 & es' & Hs & Hr & ->).
    apply Forall_cons in Hc as [Ha Hc].
    pose proof (step_weight s s1 a e Ha Hs). specialize (IH s1 s' es' Hc Hr). simpl. lia.
Qed.

Lemma life_completes {T : Type} (num_threads : Z) (n : nat) :
  forall (es : list (event T)) (s : state T),
    inv num_threads es s -> (weight s < n)%nat ->
    exists sched es' s',
      Forall (fun a => is_client a = false) sched
      /\ run s sched = Some (es', s') /\ dtor s' = Destroyed.
Proof.
  induction n as [|n IH]; intros es s Hi Hw; [lia|].
  destruct (dtor_cases (dtor s)) as [Hd|Hd].
  - exists [], [], s. by split.
  - destruct (life_progress num_threads es s Hi Hd) as (a & Ha & [[e s1] Hs]).
    pose proof (step_weight s s1 a e Ha Hs) as Hlt.
    destruct (IH (es ++ [e]) s1) as (sched & es' & s' & Hc & Hr & Hd').
    + by eapply step_life_inv.
    + lia.
    + exists (a :: sched), (e :: es'), s'. split; [by constructor|]. split; [|done].
      simpl. by rewrite Hs, Hr.
Qed.

(** X19: a pool hands the tasks to its threads in the order of the
    accepted_tasks [Push] calls, each one once: in every execution the tasks
    started so far followed by the queued ones are the accepted_tasks ones in
    order, and the started ones are the completed and the running ones.
    Before the destructor every [Push] is accepted_tasks; from its [Stop] on the
    queue is STOPPED and a [Push] changes nothing. *)
Theorem pool_runs_each_task_once {T : Type} (num_threads : Z) (sched : list (actor T))
    (es : list (event T)) (s : state T) :
  run (init num_threads) sched = Some (es, s) ->
  started es ++ queued s = accepted_tasks es
  /\ completed es ++ (threads_ (pool s) ≫= in_progress) ≡ₚ started es
  /\ length (threads_ (pool s)) = Z.to_nat num_threads
  /\ (dtor s = Alive -> rejected_tasks es = [] /\ fst (tasks_ (pool s)) = RUNNING)
  /\ (dtor s <> Alive ->
      fst (tasks_ (pool s)) = STOPPED
      /\ forall task, ThreadPool.Push task (pool s) = pool s).
Proof.
  intros Hr. pose proof (run_life_inv num_threads sched [] es _ s (life_init_inv num_threads) Hr)
    as [Hlen Hst Hjoin Hdes Hexit Hfifo Hrun Hrej Hno].
  simpl in *. split_and!; try done.
  - intros Hd. split; [by apply Hrej|]. by rewrite Hst, Hd.
  - intros Hd. assert (fst (tasks_ (pool s)) = STOPPED) as Hq by (rewrite Hst; by destruct (dtor s)).
    split; [done|]. intros task. destruct s as [[[qst its] ws] d]. simpl in *.
    clear Hst. by subst qst.
Qed.

Lemma pool_runs_each_task_once_witness :
  started ((default ([], init 2) (run (init 2) [Client 7%nat; Client 8%nat; Thread 1%nat])).1)
  ++ queued ((default ([], init 2) (run (init 2) [Client 7%nat; Client 8%nat; Thread 1%nat])).2)
  = [7%nat; 8%nat].
Proof.
  refine (proj1 (pool_runs_each_task_once 2 [Client 7%nat; Client 8%nat; Thread 1%nat] _ _ _)).
  vm_compute. reflexivity.
Defined.

(** X20: when the destructor has returned every thread has left its loop;
    with at least one thread the queue is empty and every accepted_tasks task
    has been run to completion, and none is still running; with no thread
    no task was ever started and the accepted_tasks ones are still queued. *)
Theorem destructor_drains_the_queue {T : Type} (num_threads : Z) (sched : list (actor T))
    (es : list (event T)) (s : state T) :
  run (init num_threads) sched = Some (es, s) -> dtor s = Destroyed ->
  Forall (fun w => w = Exited) (threads_ (pool s))
  /\ (1 <= num_threads ->
      queued s = [] /\ completed es ≡ₚ accepted_tasks es /\ started es = accepted_tasks es)
  /\ (num_threads <= 0 -> started es = [] /\ completed es = [] /\ queued s = accepted_tasks es).
Proof.
  intros Hr Hd. pose proof (run_life_inv num_threads sched [] es _ s (life_init_inv num_threads) Hr)
    as [Hlen Hst Hjoin Hdes Hexit Hfifo Hrun Hrej Hno].
  simpl in *. specialize (Hdes Hd).
  assert (threads_ (pool s) ≫= in_progress = []) as Hnone.
  { clear -Hdes. induction Hdes as [|w ws -> _ IH]; [done|]. by rewrite bind_cons, IH. }
  rewrite Hnone, app_nil_r in Hrun.
  split; [done|]. split.
  - intros Hn. destruct (threads_ (pool s)) as [|w ws] eqn:Hws; [simpl in Hlen; lia|].
    destruct (Hexit O) as [Hq _].
    { apply Forall_cons in Hdes as [-> _]. done. }
    rewrite Hq, app_nil_r in Hfifo. by rewrite Hrun, Hfifo.
  - intros Hn. rewrite (Hno Hn) in *. split; [done|]. split; [|done].
    by apply Permutation_nil_r in Hrun.
Qed.

Lemma destructor_drains_the_queue_witness :
  queued ((default ([], init 1)
             (run (init 1) [Client 7%nat; Owner; Client 8%nat; Thread 0%nat; Thread 0%nat;
                            Thread 0%nat; Owner; Owner])).2) = [].
Proof.
  refine (proj1 (proj1 (proj2 (destructor_drains_the_queue 1
            [Client 7%nat; Owner; Client 8%nat; Thread 0%nat; Thread 0%nat;
             Thread 0%nat; Owner; Owner] _ _ _ _)) _)).
  - vm_compute. reflexivity.
  - vm_compute. reflexivity.
  - lia.
Defined.

(** X21: the destructor returns.  From every state of every execution the
    destructor and the threads of the pool can run to the return of the
    destructor without any further [Push]; no sequence of their
    transitions is longer than [weight] (three per queued task and per
    running task, one per idle thread, and the [Stop] and the [join]s),
    and one that cannot be continued has reached the return. *)
Theorem destructor_returns {T : Type} (num_threads : Z) (sched : list (actor T))
    (es : list (event T)) (s : state T) :
  run (init num_threads) sched = Some (es, s) ->
  (exists sched' es' s',
     Forall (fun a => is_client a = false) sched'
     /\ run (init num_threads) (sched ++ sched') = Some (es ++ es', s')
     /\ dtor s' = Destroyed)
  /\ forall sched' es' s',
       Forall (fun a => is_client a = false) sched' ->
       run s sched' = Some (es', s') ->
       (length sched' <= weight s)%nat
       /\ ((forall a, is_client a = false -> step s' a = None) -> dtor s' = Destroyed).
Proof.
  intros Hr. pose proof (run_life_inv num_threads sched [] es _ s (life_init_inv num_threads) Hr)
    as Hi. simpl in Hi. split.
  - destruct (life_completes num_threads (S (weight s)) es s Hi) as (sched' & es' & s' & Hc & Hr' & Hd);
      [lia|].
    exists sched', es', s'. split; [done|]. split; [|done]. by eapply run_life_app.
  - intros sched' es' s' Hc Hr'. pose proof (run_weight sched' s s' es' Hc Hr') as Hw.
    split; [lia|]. intros Hstuck.
    destruct (dtor_cases (dtor s')) as [?|Hd]; [done|]. exfalso.
    assert (inv num_threads (es ++ es') s') as Hi' by (by eapply run_life_inv).
    destruct (life_progress num_threads _ s' Hi' Hd) as (a & Ha & [[e s1] Hs]).
    rewrite (Hstuck a Ha) in Hs. done.
Qed.

Lemma destructor_returns_witness :
  exists sched' es' s',
    Forall (fun a => is_client a = false) sched'
    /\ run (init 2) ([Client 7%nat; Thread 0%nat; Client 8%nat] ++ sched')
       = Some ((default ([], init 2)
                  (run (init 2) [Client 7%nat; Thread 0%nat; Client 8%nat])).1 ++ es', s')
    /\ dtor s' = Destroyed.
Proof.
  refine (proj1 (destructor_returns 2 [Client 7%nat; Thread 0%nat; Client 8%nat] _ _ _)).
  vm_compute. reflexivity.
Defined.

End LifeFacts.
